(** * Finite-difference wave and Schrodinger simulations: the update kernels

    A shallow embedding of the numerical kernels of [wave_billiard.c],
    [schrodinger.c] and [wave_3d.c], and the properties of the stencil
    updater, the initialisers and the normaliser stated against them.

    Modelling conventions.
    - A C [double] is a real number ([R]): arithmetic is exact, which is the
      reading under which the algebraic statements about the kernels are made.
    - A C [int] index is a [Z]; the C remainder [%] truncates toward zero and
      is [Z.rem].
    - An array is a total map from indices to cells.  [double *phi[NX]] is
      addressed by two indices, the flat [double phi[NX*NY]] of [wave_3d.c]
      by the single index [i*NY+j] that the source computes.  Storing into an
      array is a functional update of that map.
    - A [for] loop is a left fold of its body over the list of the values its
      counter takes, in the order the sequential program takes them.  The
      [omp parallel for] pragmas are read as their sequential elision.
    - Compile-time grid sizes and physical constants ([NX], [NY], [COURANT],
      [KAPPA], [B_COND], ...) are parameters of the kernels; the debugging
      switch [FLOOR] keeps the value the sources give it.
    - A kernel that takes input and output arrays is a function of two
      separate values: the callers pass distinct buffers for the two. *)

From Stdlib Require Import ZArith List Bool Lia Reals Lra FinFun Permutation.
Import ListNotations.

Local Open Scope Z_scope.

(** ** Arrays and loops *)

Definition array2 (A : Type) : Type := Z -> Z -> A.

Definition aset {A : Type} (a : array2 A) (i j : Z) (v : A) : array2 A :=
  fun i' j' => if (i' =? i) && (j' =? j) then v else a i' j'.

Definition array1 (A : Type) : Type := Z -> A.

Definition aset1 {A : Type} (a : array1 A) (k : Z) (v : A) : array1 A :=
  fun k' => if k' =? k then v else a k'.

(** [range lo hi] lists [lo, lo+1, ..., hi-1]: the values of the counter of
    [for (i = lo; i < hi; i++)]. *)
Definition range (lo hi : Z) : list Z :=
  map (fun k => lo + Z.of_nat k) (seq 0 (Z.to_nat (hi - lo))).

Definition for_loop {S : Type} (lo hi : Z) (body : Z -> S -> S) (s : S) : S :=
  fold_left (fun acc i => body i acc) (range lo hi) s.

(** The doubly nested loop [for (i...) for (j...)] and the list of the index
    pairs it visits, in order. *)
Definition for_loop2 {S : Type} (ilo ihi jlo jhi : Z)
    (body : Z -> Z -> S -> S) (s : S) : S :=
  for_loop ilo ihi (fun i => for_loop jlo jhi (fun j => body i j)) s.

Definition cells (ilo ihi jlo jhi : Z) : list (Z * Z) :=
  flat_map (fun i => map (fun j => (i, j)) (range jlo jhi)) (range ilo ihi).

(** [#define FLOOR 0], the same in the three programs. *)
Definition FLOOR : bool := false.

(** The clamp of the debugging branch:
    [if (v > VMAX) v = VMAX; if (v < -VMAX) v = -VMAX;]. *)
Definition floor_clamp (VMAX v : R) : R :=
  let v1 := if Rlt_dec VMAX v then VMAX else v in
  if Rlt_dec v1 (- VMAX) then (- VMAX)%R else v1.

(** ** wave_billiard.c *)

Module WaveBilliard.

Record state : Type := mkState {
  phi : array2 R;
  psi : array2 R;
  xy_in : array2 Z
}.

Section Kernel.

Variables NX NY : Z.
Variables courant2 KAPPA GAMMA VMAX : R.
(** [ij_to_xy] and [xy_in_billiard] come from [sub_wave.c]. *)
Variable ij_to_xy : Z -> Z -> R * R.
Variable xy_in_billiard : R -> R -> Z.

Local Open Scope R_scope.

(** The drop profile shared by [init_wave] and [add_drop_to_wave]. *)
Definition dist2_of (x y : R) (i j : Z) : R :=
  let xy := ij_to_xy i j in
  (fst xy - x) * (fst xy - x) + (snd xy - y) * (snd xy - y).

Definition init_wave_cell (x y : R) (i j : Z) (s : state) : state :=
  let xy := ij_to_xy i j in
  let dist2 := dist2_of x y i j in
  let s1 := mkState (phi s) (psi s)
              (aset (xy_in s) i j (xy_in_billiard (fst xy) (snd xy))) in
  let s2 := mkState
              (aset (phi s1) i j
                 (0.2 * exp (- dist2 / 0.001) * cos (- sqrt dist2 / 0.01)))
              (psi s1) (xy_in s1) in
  mkState (phi s2) (aset (psi s2) i j 0) (xy_in s2).

Definition init_wave (x y : R) (s : state) : state :=
  for_loop2 0 NX 0 NY (init_wave_cell x y) s.

Definition add_drop_cell (factor x y : R) (i j : Z) (s : state) : state :=
  let dist2 := dist2_of x y i j in
  mkState
    (aset (phi s) i j
       (phi s i j
        + 0.2 * factor * exp (- dist2 / 0.001) * cos (- sqrt dist2 / 0.01)))
    (psi s) (xy_in s).

Definition add_drop_to_wave (factor x y : R) (s : state) : state :=
  for_loop2 0 NX 0 NY (add_drop_cell factor x y) s.

(** The body of the double loop of [evolve_wave].  The new value of
    [phi[i][j]] is stored into the array the Laplacian is read from. *)
Definition evolve_cell (i j : Z) (s : state) : state :=
  if xy_in s i j =? 0 then s
  else
    let iplus := Z.rem (i + 1) NX in
    let iminus := Z.rem (i - 1) NX in
    let iminus := if (iminus <? 0)%Z then (iminus + NX)%Z else iminus in
    let jplus := Z.rem (j + 1) NY in
    let jminus := Z.rem (j - 1) NY in
    let jminus := if (jminus <? 0)%Z then (jminus + NY)%Z else jminus in
    let delta :=
      phi s iplus j + phi s iminus j + phi s i jplus + phi s i jminus
      - 4.0 * phi s i j in
    let x := phi s i j in
    let y := psi s i j in
    let s1 := mkState
                (aset (phi s) i j
                   (- y + 2 * x + courant2 * delta - KAPPA * x - GAMMA * (x - y)))
                (psi s) (xy_in s) in
    let s2 := mkState (phi s1) (aset (psi s1) i j x) (xy_in s1) in
    if FLOOR then
      mkState (aset (phi s2) i j (floor_clamp VMAX (phi s2 i j)))
              (aset (psi s2) i j (floor_clamp VMAX (psi s2 i j)))
              (xy_in s2)
    else s2.

Definition evolve_wave (s : state) : state :=
  for_loop2 0 NX 0 NY evolve_cell s.

(** [compute_variance]: both counters start at 1. *)
Definition variance_cell (s : state) (i j : Z) (acc : Z * R) : Z * R :=
  if xy_in s i j =? 0 then acc
  else ((fst acc + 1)%Z, snd acc + phi s i j * phi s i j).

Definition compute_variance (s : state) : R :=
  let acc := for_loop2 1 NX 1 NY (variance_cell s) (0%Z, 0) in
  let n := if (fst acc =? 0)%Z then 1%Z else fst acc in
  snd acc / IZR n.

End Kernel.

End WaveBilliard.

(** ** schrodinger.c *)

Module Schrodinger.

(** Modelled from the spec: the boundary policies are declared in
    [global_pdes.c], which is not among the sources.  The type has the three
    policies that [evolve_wave_half] tests [B_COND] against (reflecting,
    periodic, absorbing); any other value would leave the neighbour indices
    unassigned. *)
Inductive b_cond : Type := BC_DIRICHLET | BC_PERIODIC | BC_ABSORBING.

(** A pair of arrays: real part [phi] and imaginary part [psi]. *)
Record field : Type := mkField {
  phi : array2 R;
  psi : array2 R
}.

(** The buffers of [animation]: the primary pair and the scratch pair. *)
Record state : Type := mkState {
  main : field;
  tmp : field
}.

Section Kernel.

Variables NX NY : Z.
Variable B_COND : b_cond.
Variables intstep intstep1 VMAX : R.
Variable ij_to_xy : Z -> Z -> R * R.
Variable xy_in_billiard : R -> R -> Z.

Local Open Scope R_scope.

Definition init_coherent_cell (x y px py scalex : R) (i j : Z)
    (s : field * array2 Z) : field * array2 Z :=
  let scale2 := scalex * scalex in
  let xy := ij_to_xy i j in
  let xy_in := aset (snd s) i j (xy_in_billiard (fst xy) (snd xy)) in
  if xy_in i j =? 0 then
    (mkField (aset (phi (fst s)) i j 0) (aset (psi (fst s)) i j 0), xy_in)
  else
    let dist2 := (fst xy - x) * (fst xy - x) + (snd xy - y) * (snd xy - y) in
    let module := exp (- dist2 / scale2) in
    let module := if Rlt_dec module 1.0e-15 then 1.0e-15 else module in
    let phase := (px * (fst xy - x) + py * (snd xy - y)) / scalex in
    (mkField (aset (phi (fst s)) i j (module * cos phase))
             (aset (psi (fst s)) i j (module * sin phase)), xy_in).

Definition init_coherent_state (x y px py scalex : R)
    (s : field * array2 Z) : field * array2 Z :=
  for_loop2 0 NX 0 NY (init_coherent_cell x y px py scalex) s.

(** The neighbour indices [(iplus, iminus, jplus, jminus)]. *)
Definition neighbours (i j : Z) : Z * Z * Z * Z :=
  match B_COND with
  | BC_DIRICHLET | BC_ABSORBING =>
      let iplus := (i + 1)%Z in
      let iplus := if (iplus =? NX)%Z then (NX - 1)%Z else iplus in
      let iminus := (i - 1)%Z in
      let iminus := if (iminus =? -1)%Z then 0%Z else iminus in
      let jplus := (j + 1)%Z in
      let jplus := if (jplus =? NY)%Z then (NY - 1)%Z else jplus in
      let jminus := (j - 1)%Z in
      let jminus := if (jminus =? -1)%Z then 0%Z else jminus in
      (iplus, iminus, jplus, jminus)
  | BC_PERIODIC =>
      let iplus := Z.rem (i + 1) NX in
      let iminus := Z.rem (i - 1) NX in
      let iminus := if (iminus <? 0)%Z then (iminus + NX)%Z else iminus in
      let jplus := Z.rem (j + 1) NY in
      let jminus := Z.rem (j - 1) NY in
      let jminus := if (jminus <? 0)%Z then (jminus + NY)%Z else jminus in
      (iplus, iminus, jplus, jminus)
  end.

Definition delta_of (a : array2 R) (i j : Z) : R :=
  let '(iplus, iminus, jplus, jminus) := neighbours i j in
  a iplus j + a iminus j + a i jplus + a i jminus - 4.0 * a i j.

Definition store (out : field) (i j : Z) (vphi vpsi : R) : field :=
  let o1 := mkField (aset (phi out) i j vphi) (psi out) in
  mkField (phi o1) (aset (psi o1) i j vpsi).

(** The body of the double loop of [evolve_wave_half]: it reads [fin]
    ([phi_in], [psi_in]) and stores into [out] ([phi_out], [psi_out]). *)
Definition half_cell (fin : field) (xy_in : array2 Z) (i j : Z)
    (out : field) : field :=
  if xy_in i j =? 0 then out
  else
    let delta1 := delta_of (phi fin) i j in
    let delta2 := delta_of (psi fin) i j in
    let x := phi fin i j in
    let y := psi fin i j in
    let out1 :=
      match B_COND with
      | BC_ABSORBING =>
          if (0 <? i)%Z && (i <? NX - 1)%Z && (0 <? j)%Z && (j <? NY - 1)%Z
          then store out i j (x - intstep * delta2) (y + intstep * delta1)
          else if (i =? NX - 1)%Z
          then store out i j (x - intstep1 * (y - psi fin (i - 1)%Z j))
                             (y + intstep1 * (x - phi fin (i - 1)%Z j))
          else if (j =? NY - 1)%Z
          then store out i j (x - intstep1 * (y - psi fin i (j - 1)%Z))
                             (y + intstep1 * (x - phi fin i (j - 1)%Z))
          else if (i =? 0)%Z
          then store out i j (x - intstep1 * (y - psi fin 1%Z j))
                             (y + intstep1 * (x - phi fin 1%Z j))
          else if (j =? 0)%Z
          then store out i j (x - intstep1 * (y - psi fin i 1%Z))
                             (y + intstep1 * (x - phi fin i 1%Z))
          else out
      | _ => store out i j (x - intstep * delta2) (y + intstep * delta1)
      end in
    if FLOOR then
      mkField (aset (phi out1) i j (floor_clamp VMAX (phi out1 i j)))
              (aset (psi out1) i j (floor_clamp VMAX (psi out1 i j)))
    else out1.

Definition evolve_wave_half (fin out : field) (xy_in : array2 Z) : field :=
  for_loop2 0 NX 0 NY (half_cell fin xy_in) out.

(** [evolve_wave]: the first half-step reads the primary pair and writes the
    scratch pair, the second reads the scratch pair and writes the primary. *)
Definition evolve_wave (xy_in : array2 Z) (s : state) : state :=
  let tmp1 := evolve_wave_half (main s) (tmp s) xy_in in
  let main1 := evolve_wave_half tmp1 (main s) xy_in in
  mkState main1 tmp1.

Definition variance_cell (f : field) (xy_in : array2 Z) (i j : Z)
    (acc : Z * R) : Z * R :=
  if xy_in i j =? 0 then acc
  else ((fst acc + 1)%Z,
        snd acc + (phi f i j * phi f i j + psi f i j * psi f i j)).

Definition compute_variance (f : field) (xy_in : array2 Z) : R :=
  let acc := for_loop2 1 NX 1 NY (variance_cell f xy_in) (0%Z, 0) in
  let n := if (fst acc =? 0)%Z then 1%Z else fst acc in
  snd acc / IZR n.

Definition renormalise_cell (xy_in : array2 Z) (stdv : R) (i j : Z)
    (f : field) : field :=
  if xy_in i j =? 0 then f
  else
    let f1 := mkField (aset (phi f) i j (phi f i j / stdv)) (psi f) in
    mkField (phi f1) (aset (psi f1) i j (psi f1 i j / stdv)).

Definition renormalise_field (f : field) (xy_in : array2 Z) (variance : R)
    : field :=
  let stdv := sqrt variance in
  for_loop2 1 NX 1 NY (renormalise_cell xy_in stdv) f.

End Kernel.

End Schrodinger.

(** ** wave_3d.c *)

Module Wave3D.

(** Modelled from the spec: the boundary policies are declared in
    [global_pdes.c], which is not among the sources.  The type has the four
    policies of the spec, under the names of the [case] labels of
    [evolve_wave_half]: reflecting, periodic, absorbing, and periodic along
    one axis with absorbing along the other. *)
Inductive b_cond : Type :=
  BC_DIRICHLET | BC_PERIODIC | BC_ABSORBING | BC_VPER_HABS.

(** A pair of flat arrays: [phi] is the field at time t, [psi] at t-1. *)
Record field : Type := mkField {
  phi : array1 R;
  psi : array1 R
}.

Definition set_phi (out : field) (k : Z) (v : R) : field :=
  mkField (aset1 (phi out) k v) (psi out).

Definition set_psi (out : field) (k : Z) (v : R) : field :=
  mkField (phi out) (aset1 (psi out) k v).

(** The buffers of [animation] and the [static long time] of
    [evolve_wave_half]. *)
Record state : Type := mkState {
  main : field;
  tmp : field;
  time : Z
}.

(** The four boundary loops of [evolve_wave_half]. *)
Inductive edge : Type := Left | Right | Top | Bottom.

Section Kernel.

Variables NX NY : Z.
Variable B_COND : b_cond.
Variables TWOSPEEDS OSCILLATE_LEFT : bool.
Variables KAPPA KAPPA_SIDES GAMMA_SIDES KAPPA_TOPBOT GAMMA_TOPBOT : R.
Variables AMPLITUDE OMEGA VMAX : R.
Variable xy_in : array1 Z.
Variables tc tcc tgamma : array1 R.

Local Open Scope R_scope.

(** The guard [(TWOSPEEDS)||(xy_in[k] != 0)]. *)
Definition active (k : Z) : bool := TWOSPEEDS || negb (xy_in k =? 0).

(** [-y + 2*x + tcc[k]*delta - KAPPA*x - tgamma[k]*(x-y)]. *)
Definition leapfrog (k : Z) (x y delta : R) : R :=
  - y + 2 * x + tcc k * delta - KAPPA * x - tgamma k * (x - y).

Definition bulk_cell (fin : field) (i j : Z) (out : field) : field :=
  if active (i * NY + j) then
    let x := phi fin (i * NY + j)%Z in
    let y := psi fin (i * NY + j)%Z in
    let delta :=
      phi fin ((i + 1) * NY + j)%Z + phi fin ((i - 1) * NY + j)%Z
      + phi fin (i * NY + j + 1)%Z + phi fin (i * NY + j - 1)%Z - 4.0 * x in
    let o1 := set_phi out (i * NY + j) (leapfrog (i * NY + j) x y delta) in
    set_psi o1 (i * NY + j) x
  else out.

Definition bulk (fin out : field) : field :=
  for_loop2 1 (NX - 1) 1 (NY - 1) (bulk_cell fin) out.

Definition left_cell (fin : field) (j : Z) (out : field) : field :=
  if active j then
    let x := phi fin j in
    let y := psi fin j in
    let o1 :=
      match B_COND with
      | BC_DIRICHLET =>
          let delta :=
            phi fin (NY + j)%Z + phi fin (j + 1)%Z + phi fin (j - 1)%Z
            - 3.0 * x in
          set_phi out j (leapfrog j x y delta)
      | BC_PERIODIC =>
          let delta :=
            phi fin (NY + j)%Z + phi fin ((NX - 1) * NY + j)%Z
            + phi fin (j + 1)%Z + phi fin (j - 1)%Z - 4.0 * x in
          set_phi out j (leapfrog j x y delta)
      | BC_ABSORBING | BC_VPER_HABS =>
          set_phi out j
            (x - tc j * (x - phi fin (NY + j)%Z) - KAPPA_SIDES * x
             - GAMMA_SIDES * (x - y))
      end in
    set_psi o1 j x
  else out.

(** [tm] is the value of [time] after the [time++] of the call. *)
Definition left_boundary (tm : Z) (fin out : field) : field :=
  if OSCILLATE_LEFT then
    for_loop 1 (NY - 1)
      (fun j o => set_phi o j (AMPLITUDE * cos (IZR tm * OMEGA))) out
  else for_loop 1 (NY - 1) (left_cell fin) out.

Definition right_cell (fin : field) (j : Z) (out : field) : field :=
  let k := ((NX - 1) * NY + j)%Z in
  if active k then
    let x := phi fin k in
    let y := psi fin k in
    let o1 :=
      match B_COND with
      | BC_DIRICHLET =>
          let delta :=
            phi fin ((NX - 2) * NY + j)%Z + phi fin ((NX - 1) * NY + j + 1)%Z
            + phi fin ((NX - 1) * NY + j - 1)%Z - 3.0 * x in
          set_phi out k (leapfrog k x y delta)
      | BC_PERIODIC =>
          let delta :=
            phi fin ((NX - 2) * NY + j)%Z + phi fin j
            + phi fin ((NX - 1) * NY + j + 1)%Z
            + phi fin ((NX - 1) * NY + j - 1)%Z - 4.0 * x in
          set_phi out k (leapfrog k x y delta)
      | BC_ABSORBING | BC_VPER_HABS =>
          set_phi out k
            (x - tc k * (x - phi fin ((NX - 2) * NY + j)%Z) - KAPPA_SIDES * x
             - GAMMA_SIDES * (x - y))
      end in
    set_psi o1 k x
  else out.

Definition right_boundary (fin out : field) : field :=
  for_loop 1 (NY - 1) (right_cell fin) out.

(** [iplus = i+1; if (iplus == NX) iplus = NX-1;] and its mirror. *)
Definition iplus_clamp (i : Z) : Z :=
  let iplus := (i + 1)%Z in if (iplus =? NX)%Z then (NX - 1)%Z else iplus.

Definition iminus_clamp (i : Z) : Z :=
  let iminus := (i - 1)%Z in if (iminus =? -1)%Z then 0%Z else iminus.

Definition iplus_wrap (i : Z) : Z := Z.rem (i + 1) NX.

Definition iminus_wrap (i : Z) : Z :=
  let iminus := Z.rem (i - 1) NX in
  if (iminus <? 0)%Z then (iminus + NX)%Z else iminus.

Definition top_cell (fin : field) (i : Z) (out : field) : field :=
  let k := (i * NY + NY - 1)%Z in
  if active k then
    let x := phi fin k in
    let y := psi fin k in
    let o1 :=
      match B_COND with
      | BC_DIRICHLET =>
          let iplus := iplus_clamp i in
          let iminus := iminus_clamp i in
          let delta :=
            phi fin (iplus * NY + NY - 1)%Z + phi fin (iminus * NY + NY - 1)%Z
            + phi fin (i * NY + NY - 2)%Z - 3.0 * x in
          set_phi out k (leapfrog k x y delta)
      | BC_PERIODIC =>
          let iplus := iplus_wrap i in
          let iminus := iminus_wrap i in
          let delta :=
            phi fin (iplus * NY + NY - 1)%Z + phi fin (iminus * NY + NY - 1)%Z
            + phi fin (i * NY + NY - 2)%Z + phi fin (i * NY)%Z - 4.0 * x in
          set_phi out k (leapfrog k x y delta)
      | BC_ABSORBING =>
          set_phi out k
            (x - tc k * (x - phi fin (i * NY + NY - 2)%Z) - KAPPA_TOPBOT * x
             - GAMMA_TOPBOT * (x - y))
      | BC_VPER_HABS =>
          let iplus := iplus_clamp i in
          let iminus := iminus_clamp i in
          let delta :=
            phi fin (iplus * NY + NY - 1)%Z + phi fin (iminus * NY + NY - 1)%Z
            + phi fin (i * NY + NY - 2)%Z + phi fin (i * NY)%Z - 4.0 * x in
          if (i =? 0)%Z then
            set_phi out (NY - 1)
              (x - tc (NY - 1)%Z * (x - phi fin (1 * NY + NY - 1)%Z)
               - KAPPA_SIDES * x - GAMMA_SIDES * (x - y))
          else set_phi out k (leapfrog k x y delta)
      end in
    set_psi o1 k x
  else out.

Definition top_boundary (fin out : field) : field :=
  for_loop 0 NX (top_cell fin) out.

Definition bottom_cell (fin : field) (i : Z) (out : field) : field :=
  let k := (i * NY)%Z in
  if active k then
    let x := phi fin k in
    let y := psi fin k in
    let o1 :=
      match B_COND with
      | BC_DIRICHLET =>
          let iplus := iplus_clamp i in
          let iminus := iminus_clamp i in
          let delta :=
            phi fin (iplus * NY)%Z + phi fin (iminus * NY)%Z
            + phi fin (i * NY + 1)%Z - 3.0 * x in
          set_phi out k (leapfrog k x y delta)
      | BC_PERIODIC =>
          let iplus := iplus_wrap i in
          let iminus := iminus_wrap i in
          let delta :=
            phi fin (iplus * NY)%Z + phi fin (iminus * NY)%Z
            + phi fin (i * NY + 1)%Z + phi fin (i * NY + NY - 1)%Z - 4.0 * x in
          set_phi out k (leapfrog k x y delta)
      | BC_ABSORBING =>
          set_phi out k
            (x - tc k * (x - phi fin (i * NY + 1)%Z) - KAPPA_TOPBOT * x
             - GAMMA_TOPBOT * (x - y))
      | BC_VPER_HABS =>
          let iplus := iplus_clamp i in
          let iminus := iminus_clamp i in
          let delta :=
            phi fin (iplus * NY)%Z + phi fin (iminus * NY)%Z
            + phi fin (i * NY + 1)%Z + phi fin (i * NY + NY - 1)%Z - 4.0 * x in
          if (i =? 0)%Z then
            set_phi out 0
              (x - tc 0%Z * (x - phi fin NY) - KAPPA_SIDES * x
               - GAMMA_SIDES * (x - y))
          else set_phi out k (leapfrog k x y delta)
      end in
    set_psi o1 k x
  else out.

Definition bottom_boundary (fin out : field) : field :=
  for_loop 0 NX (bottom_cell fin) out.

(** One boundary loop, by name. *)
Definition edge_pass (tm : Z) (fin : field) (e : edge) (out : field) : field :=
  match e with
  | Left => left_boundary tm fin out
  | Right => right_boundary fin out
  | Top => top_boundary fin out
  | Bottom => bottom_boundary fin out
  end.

(** The boundary loops run in a given order; the source runs
    [Left; Right; Top; Bottom]. *)
Definition edge_passes (tm : Z) (fin : field) (order : list edge)
    (out : field) : field :=
  fold_left (fun o e => edge_pass tm fin e o) order out.

Definition oscillate_corners (tm : Z) (out : field) : field :=
  if OSCILLATE_LEFT then
    let o1 := set_phi out 0 (AMPLITUDE * cos (IZR tm * OMEGA)) in
    set_phi o1 (NY - 1) (AMPLITUDE * cos (IZR tm * OMEGA))
  else out.

Definition floor_cell (i j : Z) (out : field) : field :=
  let k := (i * NY + j)%Z in
  if negb (xy_in k =? 0) then
    mkField (aset1 (phi out) k (floor_clamp VMAX (phi out k)))
            (aset1 (psi out) k (floor_clamp VMAX (psi out k)))
  else out.

Definition floor_pass (out : field) : field :=
  if FLOOR then for_loop2 0 NX 0 NY floor_cell out else out.

(** [evolve_wave_half], called when the static counter holds [time0]. *)
Definition evolve_wave_half (time0 : Z) (fin out : field) : field :=
  let tm := (time0 + 1)%Z in
  let o := bulk fin out in
  let o := edge_passes tm fin [Left; Right; Top; Bottom] o in
  let o := oscillate_corners tm o in
  floor_pass o.

Definition evolve_wave (s : state) : state :=
  let tmp1 := evolve_wave_half (time s) (main s) (tmp s) in
  let main1 := evolve_wave_half (time s + 1) tmp1 (main s) in
  mkState main1 tmp1 (time s + 2).

End Kernel.

End Wave3D.

(** ** Reference formulations

    The formulations the kernels are compared with.  They follow the wording
    of the specification, are stated directly, cell by cell, and are not read
    off the loops above. *)

Module Reference.

Local Open Scope R_scope.

(** Index wrapped onto the torus. *)
Definition wrap (n k : Z) : Z := Z.modulo k n.

Definition laplacian_periodic (NX NY : Z) (a : array2 R) (i j : Z) : R :=
  a (wrap NX (i + 1)) j + a (wrap NX (i - 1)) j
  + a i (wrap NY (j + 1)) + a i (wrap NY (j - 1)) - 4 * a i j.

Definition in_grid (NX NY i j : Z) : bool :=
  (0 <=? i)%Z && (i <? NX)%Z && (0 <=? j)%Z && (j <? NY)%Z.

(** Two-phase step of the wave variant on a torus: every inside cell of the
    new state is computed from the old state only,
    [new_now = -y + 2x + squaredCourant * laplacian - stiffness * x
               - damping * (x - y)] and [new_previous = x]. *)
Definition wave_two_phase (NX NY : Z) (courant2 stiffness damping : R)
    (s : WaveBilliard.state) : WaveBilliard.state :=
  let updated i j :=
    in_grid NX NY i j && negb (WaveBilliard.xy_in s i j =? 0) in
  WaveBilliard.mkState
    (fun i j =>
       if updated i j then
         let x := WaveBilliard.phi s i j in
         let y := WaveBilliard.psi s i j in
         - y + 2 * x
         + courant2 * laplacian_periodic NX NY (WaveBilliard.phi s) i j
         - stiffness * x - damping * (x - y)
       else WaveBilliard.phi s i j)
    (fun i j =>
       if updated i j then WaveBilliard.phi s i j else WaveBilliard.psi s i j)
    (WaveBilliard.xy_in s).

(** The aggregate over all inside cells of the grid: the sum of the squared
    magnitudes divided by the number of inside cells, floored to 1. *)
Definition inside_cells (NX NY : Z) (mask : array2 Z) : list (Z * Z) :=
  filter (fun c => negb (mask (fst c) (snd c) =? 0)) (cells 0 NX 0 NY).

Definition Rsum (l : list R) : R := fold_right Rplus 0 l.

Definition aggregate (NX NY : Z) (mask : array2 Z) (sq : Z -> Z -> R) : R :=
  let inside := inside_cells NX NY mask in
  Rsum (map (fun c => sq (fst c) (snd c)) inside)
  / IZR (Z.max 1 (Z.of_nat (length inside))).

(** Index clamped into [0, n-1]. *)
Definition clamp (n k : Z) : Z :=
  if (k <? 0)%Z then 0%Z else if (n - 1 <? k)%Z then (n - 1)%Z else k.

(** The four-neighbour Laplacian with out-of-range neighbours clamped. *)
Definition laplacian_clamped (NX NY : Z) (a : array2 R) (i j : Z) : R :=
  a (clamp NX (i + 1)) j + a (clamp NX (i - 1)) j
  + a i (clamp NY (j + 1)) + a i (clamp NY (j - 1)) - 4 * a i j.

(** The Laplacian over the neighbours that exist: their sum minus their
    number times the centre value. *)
Definition present (n k : Z) : bool := (0 <=? k)%Z && (k <? n)%Z.

Definition neighbour_count (NX NY i j : Z) : Z :=
  ((if present NX (i + 1) then 1 else 0)
   + (if present NX (i - 1) then 1 else 0)
   + (if present NY (j + 1) then 1 else 0)
   + (if present NY (j - 1) then 1 else 0))%Z.

Definition neighbour_sum (NX NY : Z) (a : array2 R) (i j : Z) : R :=
  (if present NX (i + 1) then a (i + 1)%Z j else 0)
  + (if present NX (i - 1) then a (i - 1)%Z j else 0)
  + (if present NY (j + 1) then a i (j + 1)%Z else 0)
  + (if present NY (j - 1) then a i (j - 1)%Z else 0).

Definition laplacian_open (NX NY : Z) (a : array2 R) (i j : Z) : R :=
  neighbour_sum NX NY a i j - IZR (neighbour_count NX NY i j) * a i j.

(** A flat array of [wave_3d.c] seen through two indices. *)
Definition unflat (NY : Z) (a : array1 R) : array2 R :=
  fun i j => a (i * NY + j)%Z.

End Reference.

(** ** Concrete inputs *)

Module Inputs.

Import WaveBilliard.
Local Open Scope R_scope.

(** A unit impulse at cell (2,2) of a fully-inside grid, zero elsewhere. *)
Definition impulse : state :=
  mkState (fun i j => if (i =? 2)%Z && (j =? 2)%Z then 1 else 0)
          (fun _ _ => 0)
          (fun _ _ => 1%Z).

(** The same grid with the impulse moved to cell (0,2). *)
Definition impulse_far : state :=
  mkState (fun i j => if (i =? 0)%Z && (j =? 2)%Z then 1 else 0)
          (fun _ _ => 0)
          (fun _ _ => 1%Z).

(** The all-zero field on a fully-inside grid. *)
Definition flat : state :=
  mkState (fun _ _ => 0) (fun _ _ => 0) (fun _ _ => 1%Z).

(** A unit value in the corner cell (0,0) of a fully-inside grid. *)
Definition corner_spike : state :=
  mkState (fun i j => if (i =? 0)%Z && (j =? 0)%Z then 1 else 0)
          (fun _ _ => 0)
          (fun _ _ => 1%Z).

Definition corner_spike_field : Schrodinger.field :=
  Schrodinger.mkField (phi corner_spike) (psi corner_spike).

(** Lattice coordinates equal to the indices, and an empty domain. *)
Definition unit_coords (i j : Z) : R * R := (IZR i, IZR j).

Definition nowhere (x y : R) : Z := 0%Z.

(** The field equal to 1 + 0i in every cell, and the mask that marks every
    cell as inside. *)
Definition uniform_field : Schrodinger.field :=
  Schrodinger.mkField (fun _ _ => 1) (fun _ _ => 0).

Definition full_mask : array2 Z := fun _ _ => 1%Z.

(** An array whose cells all differ on a 3x3 grid. *)
Definition ramp : array2 R := fun i j => IZR (i + 3 * j).

(** Flat arrays for [wave_3d.c]: constant coefficients and a domain that
    covers the grid. *)
Definition all_inside : array1 Z := fun _ => 1%Z.

Definition constant (v : R) : array1 R := fun _ => v.

(** A mask of [wave_billiard.c] that marks every cell as outside. *)
Definition blocked (s : state) : state :=
  mkState (phi s) (psi s) (fun _ _ => 0%Z).

End Inputs.

(** ** Auxiliary notions *)

(** Two states of [wave_billiard.c] with the same mask and the same values
    in both arrays at every cell the mask marks as outside. *)
Definition same_outside (s0 s : WaveBilliard.state) : Prop :=
  WaveBilliard.xy_in s = WaveBilliard.xy_in s0
  /\ forall i j, WaveBilliard.xy_in s0 i j = 0 ->
       WaveBilliard.phi s i j = WaveBilliard.phi s0 i j
       /\ WaveBilliard.psi s i j = WaveBilliard.psi s0 i j.

(** The cells that [compute_variance] and [renormalise_field] act on: those
    of rows and columns 1 and up that the mask marks as inside. *)
Definition inside (xy_in : array2 Z) (c : Z * Z) : bool :=
  negb (xy_in (fst c) (snd c) =? 0).

Definition counted (NX NY : Z) (xy_in : array2 Z) : list (Z * Z) :=
  filter (inside xy_in) (cells 1 NX 1 NY).

(** Squared magnitude of the complex field at a cell. *)
Definition sq_mag (f : Schrodinger.field) (c : Z * Z) : R :=
  (Schrodinger.phi f (fst c) (snd c) * Schrodinger.phi f (fst c) (snd c)
   + Schrodinger.psi f (fst c) (snd c) * Schrodinger.psi f (fst c) (snd c))%R.

(** The divisor of [compute_variance]: [if (n==0) n=1;]. *)
Definition denominator (n : Z) : Z := if n =? 0 then 1 else n.

(** The Laplacian that goes with a non-absorbing policy of
    [schrodinger.c]: wrapped indices on the torus, clamped indices at a
    reflecting wall. *)
Definition policy_laplacian (bc : Schrodinger.b_cond) (NX NY : Z)
    (a : array2 R) (i j : Z) : R :=
  match bc with
  | Schrodinger.BC_PERIODIC => Reference.laplacian_periodic NX NY a i j
  | _ => Reference.laplacian_clamped NX NY a i j
  end.

(** The two values a pair of flat arrays holds at an index. *)
Definition at_ (o : Wave3D.field) (k : Z) : R * R :=
  (Wave3D.phi o k, Wave3D.psi o k).

(** The indices that the loop of an edge addresses: the index expression of
    the loop over the range of its counter. *)
Definition footprint (NX NY : Z) (e : Wave3D.edge) : list Z :=
  match e with
  | Wave3D.Left => map (fun j => j) (range 1 (NY - 1))
  | Wave3D.Right => map (fun j => (NX - 1) * NY + j) (range 1 (NY - 1))
  | Wave3D.Top => map (fun i => i * NY + NY - 1) (range 0 NX)
  | Wave3D.Bottom => map (fun i => i * NY) (range 0 NX)
  end.

(** A pass stores into index [k] when some input makes its output differ
    from the output buffer it was given at [k]. *)
Definition modifies (pass : Wave3D.field -> Wave3D.field -> Wave3D.field)
    (k : Z) : Prop :=
  exists fin out : Wave3D.field, at_ (pass fin out) k <> at_ out k.

(** The four corner cells, as flat indices. *)
Definition top_corner (NX NY k : Z) : Prop :=
  k = 0 * NY + NY - 1 \/ k = (NX - 1) * NY + NY - 1.

Definition bottom_corner (NX NY k : Z) : Prop :=
  k = 0 * NY \/ k = (NX - 1) * NY.

Definition all_edges : list Wave3D.edge :=
  [Wave3D.Left; Wave3D.Right; Wave3D.Top; Wave3D.Bottom].

(** Border and corner cells of the grid. *)
Definition on_border (NX NY i j : Z) : Prop :=
  i = 0 \/ i = NX - 1 \/ j = 0 \/ j = NY - 1.

Definition is_corner (NX NY i j : Z) : bool :=
  ((i =? 0) || (i =? NX - 1)) && ((j =? 0) || (j =? NY - 1)).

(** ** The animation loops

    The part of the three [animation] functions that acts on the field
    arrays and on the coefficient tables; drawing, pauses and frame files do
    not touch them. *)

Module Animation.

Section WaveBilliardLoop.

Variables NX NY : Z.
Variables COURANT KAPPA GAMMA VMAX : R.
Variable SCALE : bool.
Variables NSTEPS NVID : Z.
Variable ij_to_xy : Z -> Z -> R * R.
Variable xy_in_billiard : R -> R -> Z.

Local Open Scope R_scope.

(** [if (SCALE) scale = sqrt(1.0 + compute_variance(...)); else scale = 1.0;] *)
Definition wave_scale (s : WaveBilliard.state) : R :=
  if SCALE then sqrt (1.0 + WaveBilliard.compute_variance NX NY s) else 1.0.

(** [for (j=0; j<NVID; j++) evolve_wave(phi, psi, xy_in);] with
    [courant2 = COURANT*COURANT]. *)
Definition wave_frame (s : WaveBilliard.state) : WaveBilliard.state :=
  for_loop 0 NVID
    (fun _ acc =>
       WaveBilliard.evolve_wave NX NY (COURANT * COURANT) KAPPA GAMMA VMAX acc)
    s.

(** [init_wave(0.0, 0.0, ...)] followed by the frames 0 .. NSTEPS. *)
Definition wave_animation (s0 : WaveBilliard.state) : WaveBilliard.state :=
  let s := WaveBilliard.init_wave NX NY ij_to_xy xy_in_billiard 0.0 0.0 s0 in
  for_loop 0 (NSTEPS + 1) (fun _ acc => wave_frame acc) s.

End WaveBilliardLoop.

Section SchrodingerLoop.

Variables NX NY : Z.
Variable B_COND : Schrodinger.b_cond.
Variables XMIN XMAX DT HBAR VMAX : R.
Variable SCALE : bool.
Variables NSTEPS NVID : Z.
Variable ij_to_xy : Z -> Z -> R * R.
Variable xy_in_billiard : R -> R -> Z.

Local Open Scope R_scope.

Definition dx : R := (XMAX - XMIN) / IZR NX.

Definition intstep : R := DT / (dx * dx * HBAR).

Definition intstep1 : R := DT / (dx * HBAR).

(** [if (SCALE) { var = compute_variance(...); scale = sqrt(1.0 + var);
    renormalise_field(phi, psi, xy_in, var); }] *)
Definition normalise (xy_in : array2 Z) (f : Schrodinger.field)
    : Schrodinger.field :=
  if SCALE then
    let var := Schrodinger.compute_variance NX NY f xy_in in
    Schrodinger.renormalise_field NX NY f xy_in var
  else f.

Definition schrodinger_scale (xy_in : array2 Z) (f : Schrodinger.field) : R :=
  if SCALE then sqrt (1.0 + Schrodinger.compute_variance NX NY f xy_in)
  else 1.0.

(** One pass of the frame loop: the renormalisation, then [NVID] calls of
    [evolve_wave]. *)
Definition schrodinger_frame (xy_in : array2 Z) (s : Schrodinger.state)
    : Schrodinger.state :=
  let s1 := Schrodinger.mkState (normalise xy_in (Schrodinger.main s))
              (Schrodinger.tmp s) in
  for_loop 0 NVID
    (fun _ acc =>
       Schrodinger.evolve_wave NX NY B_COND intstep intstep1 VMAX xy_in acc)
    s1.

(** [init_coherent_state(0.5, 0.0, 40.0, 0.0, 0.25, ...)], the first
    renormalisation, and the frames 0 .. NSTEPS.  [s0] and [xy0] are the
    contents of the freshly allocated arrays. *)
Definition schrodinger_animation (s0 : Schrodinger.state) (xy0 : array2 Z)
    : Schrodinger.state * array2 Z :=
  let init :=
    Schrodinger.init_coherent_state NX NY ij_to_xy xy_in_billiard
      0.5 0.0 40.0 0.0 0.25 (Schrodinger.main s0, xy0) in
  let xy_in := snd init in
  let s1 := Schrodinger.mkState (normalise xy_in (fst init))
              (Schrodinger.tmp s0) in
  (for_loop 0 (NSTEPS + 1) (fun _ acc => schrodinger_frame xy_in acc) s1,
   xy_in).

End SchrodingerLoop.

(** The tables of wave speeds and dissipation of [wave_3d.c]. *)
Record tables : Type := mkTables {
  tc : array1 R;
  tcc : array1 R;
  tgamma : array1 R
}.

Section Wave3DTables.

Variables NX NY : Z.
Variable TWOSPEEDS : bool.
Variables COURANT COURANTB GAMMA GAMMAB : R.
Variable xy_in : array1 Z.

Local Open Scope R_scope.

(** The body of the loop "initialize table of wave speeds/dissipation", with
    [courant2 = COURANT*COURANT] and [courantb2 = COURANTB*COURANTB]. *)
Definition table_cell (i j : Z) (t : tables) : tables :=
  let k := (i * NY + j)%Z in
  if negb (xy_in k =? 0) then
    let t1 := mkTables (aset1 (tc t) k COURANT) (tcc t) (tgamma t) in
    let t2 := mkTables (tc t1) (aset1 (tcc t1) k (COURANT * COURANT))
                (tgamma t1) in
    if (xy_in k =? 1)%Z
    then mkTables (tc t2) (tcc t2) (aset1 (tgamma t2) k GAMMA)
    else mkTables (tc t2) (tcc t2) (aset1 (tgamma t2) k GAMMAB)
  else if TWOSPEEDS then
    let t1 := mkTables (aset1 (tc t) k COURANTB) (tcc t) (tgamma t) in
    let t2 := mkTables (tc t1) (aset1 (tcc t1) k (COURANTB * COURANTB))
                (tgamma t1) in
    mkTables (tc t2) (tcc t2) (aset1 (tgamma t2) k GAMMAB)
  else t.

Definition init_tables (t : tables) : tables :=
  for_loop2 0 NX 0 NY table_cell t.

End Wave3DTables.

End Animation.

(** ** Further auxiliary notions *)

(** What a state of [wave_billiard.c] holds at a cell. *)
Definition wave_at (s : WaveBilliard.state) (c : Z * Z) : R * R * Z :=
  (WaveBilliard.phi s (fst c) (snd c), WaveBilliard.psi s (fst c) (snd c),
   WaveBilliard.xy_in s (fst c) (snd c)).

(** What a pair of arrays of [schrodinger.c] holds at a cell. *)
Definition field_at (f : Schrodinger.field) (c : Z * Z) : R * R :=
  (Schrodinger.phi f (fst c) (snd c), Schrodinger.psi f (fst c) (snd c)).

(** What the tables of [wave_3d.c] hold at an index. *)
Definition tables_at (t : Animation.tables) (k : Z) : R * R * R :=
  (Animation.tc t k, Animation.tcc t k, Animation.tgamma t k).

(** The drop of [init_wave] and [add_drop_to_wave] at a squared distance. *)
Definition drop (dist2 : R) : R :=
  (0.2 * exp (- dist2 / 0.001) * cos (- sqrt dist2 / 0.01))%R.


(** The neighbour indices of [evolve_wave] of [wave_billiard.c]. *)
Definition wrap_plus (n k : Z) : Z := Z.rem (k + 1) n.

Definition wrap_minus (n k : Z) : Z :=
  let m := Z.rem (k - 1) n in if m <? 0 then m + n else m.

(** The inward neighbour that the absorbing policy of [schrodinger.c] uses
    at a cell outside the bulk: the tests are made in the order right, upper,
    left, lower border. *)
Definition absorbing_neighbour (NX NY i j : Z) : Z * Z :=
  if i =? NX - 1 then (i - 1, j)
  else if j =? NY - 1 then (i, j - 1)
  else if i =? 0 then (1, j)
  else (i, 1).

Definition in_bulk (NX NY i j : Z) : bool :=
  (0 <? i) && (i <? NX - 1) && (0 <? j) && (j <? NY - 1).

(** A pair of arrays of [schrodinger.c] that holds [a + i b] at every cell
    of the grid. *)
Definition uniform_on_grid (NX NY : Z) (a b : R) (f : Schrodinger.field)
    : Prop :=
  forall i j, 0 <= i < NX -> 0 <= j < NY -> field_at f (i, j) = (a, b).

(** ** Further concrete inputs *)

Module Samples.

Local Open Scope R_scope.

(** The all-zero pair of arrays of [schrodinger.c]. *)
Definition zero_field : Schrodinger.field :=
  Schrodinger.mkField (fun _ _ => 0) (fun _ _ => 0).

(** Buffers of [schrodinger.c] whose two pairs hold 1 + 0i everywhere. *)
Definition uniform_state : Schrodinger.state :=
  Schrodinger.mkState Inputs.uniform_field Inputs.uniform_field.

(** A pair of flat arrays of [wave_3d.c] with distinct cells, and buffers
    made of it. *)
Definition ramp_field : Wave3D.field :=
  Wave3D.mkField (fun k => IZR k) (fun k => IZR (2 * k)).

Definition ramp_state : Wave3D.state :=
  Wave3D.mkState ramp_field ramp_field 0.

(** A mask of [wave_3d.c] that marks every cell as outside. *)
Definition all_outside : array1 Z := fun _ => 0%Z.

(** A half-step of [wave_3d.c] on a 3x3 grid whose cells are all inside,
    with unit coefficients and no damping. *)
Definition half3 (bc : Wave3D.b_cond) (oscillate : bool) : Wave3D.field :=
  Wave3D.evolve_wave_half 3 3 bc false oscillate 0 0 0 0 0 1 1 10
    Inputs.all_inside (Inputs.constant 1) (Inputs.constant 1)
    (Inputs.constant 0) 0 ramp_field ramp_field.

Definition zero_tables : Animation.tables :=
  Animation.mkTables (fun _ => 0) (fun _ => 0) (fun _ => 0).

End Samples.

(** * Properties *)

(** ** Loops *)

Lemma in_range (lo hi k : Z) : In k (range lo hi) <-> lo <= k < hi.
Proof.
  unfold range. rewrite in_map_iff. split.
  - intros [n [<- Hn]]. apply in_seq in Hn. lia.
  - intros H. exists (Z.to_nat (k - lo)). split; [lia|].
    apply in_seq. lia.
Qed.

Lemma NoDup_range (lo hi : Z) : NoDup (range lo hi).
Proof.
  unfold range. apply Injective_map_NoDup.
  - intros a b H. lia.
  - apply seq_NoDup.
Qed.

Lemma in_cells (ilo ihi jlo jhi i j : Z) :
  In (i, j) (cells ilo ihi jlo jhi) <-> (ilo <= i < ihi /\ jlo <= j < jhi).
Proof.
  unfold cells. rewrite in_flat_map. split.
  - intros [i' [Hi Hj]]. apply in_map_iff in Hj as [j' [E Hj']].
    inversion E; subst. apply in_range in Hi, Hj'. lia.
  - intros [Hi Hj]. exists i. split; [now apply in_range|].
    apply in_map_iff. exists j. split; [reflexivity|now apply in_range].
Qed.

Lemma NoDup_cells (ilo ihi jlo jhi : Z) : NoDup (cells ilo ihi jlo jhi).
Proof.
  unfold cells.
  assert (G : forall l, NoDup l ->
            NoDup (flat_map (fun i : Z => map (fun j : Z => (i, j))
                                         (range jlo jhi)) l)).
  { induction l as [|a l IH]; intros Hl; simpl; [constructor|].
    inversion Hl as [|? ? Ha Hl']; subst.
    apply NoDup_app.
    - apply Injective_map_NoDup; [|apply NoDup_range].
      intros x y E. now inversion E.
    - now apply IH.
    - intros [i j] H1 H2. apply in_map_iff in H1 as [j' [E _]].
      inversion E; subst. apply in_flat_map in H2 as [i' [Hi' H2]].
      apply in_map_iff in H2 as [j'' [E' _]]. inversion E'; subst.
      contradiction. }
  apply G, NoDup_range.
Qed.

(** The nested loop is one fold over the list of the cells it visits. *)
Lemma for_loop2_cells {S : Type} (ilo ihi jlo jhi : Z)
    (body : Z -> Z -> S -> S) (s : S) :
  for_loop2 ilo ihi jlo jhi body s
  = fold_left (fun acc c => body (fst c) (snd c) acc)
      (cells ilo ihi jlo jhi) s.
Proof.
  unfold for_loop2, for_loop, cells.
  generalize (range ilo ihi) as l. intros l. revert s.
  induction l as [|i l IH]; intros s; simpl; [reflexivity|].
  rewrite fold_left_app, IH. f_equal.
  generalize (range jlo jhi) as m. intros m. revert s.
  induction m as [|j m IHm]; intros s; simpl; [reflexivity|].
  apply IHm.
Qed.

(** A property kept by every iteration is kept by the loop. *)
Lemma fold_left_inv {S T : Type} (P : S -> Prop) (f : S -> T -> S)
    (l : list T) (s : S) :
  P s -> (forall t s', In t l -> P s' -> P (f s' t)) -> P (fold_left f l s).
Proof.
  revert s. induction l as [|t l IH]; intros s Hs Hf; simpl; [exact Hs|].
  apply IH.
  - apply Hf; [now left|exact Hs].
  - intros t' s' Ht'. apply Hf. now right.
Qed.

(** In a loop over distinct items, what holds just after the iteration for
    item [t] and is kept by the iterations for the other items holds at the
    end. *)
Lemma fold_left_hit {S T : Type} (P : S -> Prop) (f : S -> T -> S)
    (l : list T) (t : T) (s : S) :
  NoDup l -> In t l ->
  (forall s', P (f s' t)) ->
  (forall t' s', In t' l -> t' <> t -> P s' -> P (f s' t')) ->
  P (fold_left f l s).
Proof.
  intros Hnd Hin Hset Hkeep.
  apply in_split in Hin as [l1 [l2 ->]].
  rewrite fold_left_app. simpl.
  apply fold_left_inv; [apply Hset|].
  intros t' s' Ht' Hs'. apply Hkeep; [apply in_or_app; right; now right| |exact Hs'].
  apply NoDup_remove_2 in Hnd. intros ->. apply Hnd.
  apply in_or_app. now right.
Qed.

(** ** Arrays *)

Lemma aset_same {A : Type} (a : array2 A) (i j : Z) (v : A) :
  aset a i j v i j = v.
Proof. unfold aset. now rewrite !Z.eqb_refl. Qed.

Lemma aset_other {A : Type} (a : array2 A) (i j i' j' : Z) (v : A) :
  (i', j') <> (i, j) -> aset a i j v i' j' = a i' j'.
Proof.
  intros H. unfold aset.
  destruct (i' =? i) eqn:Ei; [|reflexivity].
  destruct (j' =? j) eqn:Ej; [|reflexivity].
  apply Z.eqb_eq in Ei, Ej. subst. now contradiction H.
Qed.

Lemma aset1_same {A : Type} (a : array1 A) (k : Z) (v : A) :
  aset1 a k v k = v.
Proof. unfold aset1. now rewrite Z.eqb_refl. Qed.

Lemma aset1_other {A : Type} (a : array1 A) (k k' : Z) (v : A) :
  k' <> k -> aset1 a k v k' = a k'.
Proof.
  intros H. unfold aset1. destruct (k' =? k) eqn:E; [|reflexivity].
  apply Z.eqb_eq in E. contradiction.
Qed.

Lemma cell_eq_dec (c d : Z * Z) : {c = d} + {c <> d}.
Proof. decide equality; apply Z.eq_dec. Qed.

(** ** wave_billiard.c: the stencil updater leaves outside cells alone *)

Section WaveBilliardFacts.

Import WaveBilliard.

Variables NX NY : Z.
Variables courant2 KAPPA GAMMA VMAX : R.

Local Abbreviation step := (evolve_wave NX NY courant2 KAPPA GAMMA VMAX).

Lemma same_outside_refl (s : state) : same_outside s s.
Proof. split; [reflexivity|now intros]. Qed.

Lemma same_outside_trans (s0 s1 s2 : state) :
  same_outside s0 s1 -> same_outside s1 s2 -> same_outside s0 s2.
Proof.
  intros [M1 H1] [M2 H2]. split; [congruence|].
  intros i j Hout. destruct (H1 i j Hout) as [A B].
  assert (Hout1 : xy_in s1 i j = 0) by (rewrite M1; exact Hout).
  destruct (H2 i j Hout1) as [C D]. split; congruence.
Qed.

Lemma evolve_cell_same_outside (i j : Z) (s : state) :
  same_outside s (evolve_cell NX NY courant2 KAPPA GAMMA VMAX i j s).
Proof.
  unfold evolve_cell.
  destruct (xy_in s i j =? 0) eqn:Em; [apply same_outside_refl|].
  apply Z.eqb_neq in Em. unfold FLOOR. cbn [phi psi xy_in].
  split; [reflexivity|].
  intros i' j' Hout.
  assert (Hne : (i', j') <> (i, j)) by (intros E; inversion E; subst; contradiction).
  cbn [phi psi xy_in]. now rewrite !aset_other by exact Hne.
Qed.

Lemma evolve_wave_same_outside (s : state) : same_outside s (step s).
Proof.
  unfold WaveBilliard.evolve_wave. rewrite for_loop2_cells.
  apply fold_left_inv; [apply same_outside_refl|].
  intros [i j] s' _ Hs'. eapply same_outside_trans; [exact Hs'|].
  apply evolve_cell_same_outside.
Qed.

Lemma iter_evolve_wave_same_outside (n : nat) (s : state) :
  same_outside s (Nat.iter n step s).
Proof.
  induction n as [|n IH]; [apply same_outside_refl|].
  rewrite Nat.iter_succ.
  eapply same_outside_trans; [exact IH|apply evolve_wave_same_outside].
Qed.

End WaveBilliardFacts.

(** ** schrodinger.c: the half-step *)

Section SchrodingerFacts.

Import Schrodinger.

Variables NX NY : Z.
Variable B_COND : b_cond.
Variables intstep intstep1 VMAX : R.
Variable xy_in : array2 Z.

Local Abbreviation half_cell := (half_cell NX NY B_COND intstep intstep1 VMAX).
Local Abbreviation evolve_wave_half :=
  (evolve_wave_half NX NY B_COND intstep intstep1 VMAX).
Local Abbreviation evolve_wave := (evolve_wave NX NY B_COND intstep intstep1 VMAX).

Lemma store_other (out : field) (i j i' j' : Z) (a b : R) :
  (i', j') <> (i, j) ->
  phi (store out i j a b) i' j' = phi out i' j'
  /\ psi (store out i j a b) i' j' = psi out i' j'.
Proof.
  intros H. unfold store. cbn [phi psi]. now rewrite !aset_other by exact H.
Qed.

Lemma store_same (out : field) (i j : Z) (a b : R) :
  phi (store out i j a b) i j = a /\ psi (store out i j a b) i j = b.
Proof. unfold store. cbn [phi psi]. now rewrite !aset_same. Qed.

(** The iteration for cell [(i,j)] stores at most into cell [(i,j)]. *)
Lemma half_cell_other (fin out : field) (i j i' j' : Z) :
  (i', j') <> (i, j) ->
  phi (half_cell fin xy_in i j out) i' j' = phi out i' j'
  /\ psi (half_cell fin xy_in i j out) i' j' = psi out i' j'.
Proof.
  intros H. unfold Schrodinger.half_cell, FLOOR.
  destruct (xy_in i j =? 0); [now split|].
  destruct B_COND; try (now apply store_other).
  repeat match goal with
         | |- context [if ?b then _ else _] => destruct b
         end; try (now apply store_other); now split.
Qed.

(** It stores nothing when the mask marks the cell as outside. *)
Lemma half_cell_outside (fin out : field) (i j i' j' : Z) :
  xy_in i' j' = 0 ->
  phi (half_cell fin xy_in i j out) i' j' = phi out i' j'
  /\ psi (half_cell fin xy_in i j out) i' j' = psi out i' j'.
Proof.
  intros Hout. destruct (cell_eq_dec (i', j') (i, j)) as [E|E].
  - inversion E; subst. unfold Schrodinger.half_cell.
    rewrite Hout. now split.
  - now apply half_cell_other.
Qed.

Lemma evolve_wave_half_outside (fin out : field) (i j : Z) :
  xy_in i j = 0 ->
  phi (evolve_wave_half fin out xy_in) i j = phi out i j
  /\ psi (evolve_wave_half fin out xy_in) i j = psi out i j.
Proof.
  intros Hout. unfold Schrodinger.evolve_wave_half. rewrite for_loop2_cells.
  apply (fold_left_inv
           (fun o => phi o i j = phi out i j /\ psi o i j = psi out i j));
    [now split|].
  intros [i' j'] o _ [Hp Hq]. cbn [fst snd].
  destruct (half_cell_outside fin o i' j' i j Hout) as [A B].
  split; congruence.
Qed.

(** Under a non-absorbing policy the iteration for an inside cell stores the
    leapfrog values, computed from the input pair alone. *)
Lemma half_cell_inside (fin out : field) (i j : Z) :
  B_COND <> BC_ABSORBING -> xy_in i j <> 0 ->
  half_cell fin xy_in i j out
  = store out i j
      (phi fin i j - intstep * delta_of NX NY B_COND (psi fin) i j)%R
      (psi fin i j + intstep * delta_of NX NY B_COND (phi fin) i j)%R.
Proof.
  intros Hbc Hin. unfold Schrodinger.half_cell, FLOOR.
  apply Z.eqb_neq in Hin. rewrite Hin.
  destruct B_COND; try reflexivity. now contradiction Hbc.
Qed.

Lemma evolve_wave_half_inside (fin out : field) (i j : Z) :
  B_COND <> BC_ABSORBING -> 0 <= i < NX -> 0 <= j < NY -> xy_in i j <> 0 ->
  phi (evolve_wave_half fin out xy_in) i j
  = (phi fin i j - intstep * delta_of NX NY B_COND (psi fin) i j)%R
  /\ psi (evolve_wave_half fin out xy_in) i j
     = (psi fin i j + intstep * delta_of NX NY B_COND (phi fin) i j)%R.
Proof.
  intros Hbc Hi Hj Hin. unfold Schrodinger.evolve_wave_half.
  rewrite for_loop2_cells.
  apply (fold_left_hit
           (fun o =>
              phi o i j
              = (phi fin i j - intstep * delta_of NX NY B_COND (psi fin) i j)%R
              /\ psi o i j
                 = (psi fin i j
                    + intstep * delta_of NX NY B_COND (phi fin) i j)%R)
           _ _ (i, j)).
  - apply NoDup_cells.
  - apply in_cells. lia.
  - intros o. cbn [fst snd]. rewrite half_cell_inside by assumption.
    apply store_same.
  - intros [i' j'] o _ Hne [Hp Hq]. cbn [fst snd].
    assert (Hne' : (i, j) <> (i', j')) by congruence.
    destruct (half_cell_other fin o i' j' i j Hne') as [A B].
    split; congruence.
Qed.

(** A full step: both pairs keep their outside cells. *)
Lemma evolve_wave_outside (s : state) (i j : Z) :
  xy_in i j = 0 ->
  (phi (main (evolve_wave xy_in s)) i j = phi (main s) i j
   /\ psi (main (evolve_wave xy_in s)) i j = psi (main s) i j)
  /\ (phi (tmp (evolve_wave xy_in s)) i j = phi (tmp s) i j
      /\ psi (tmp (evolve_wave xy_in s)) i j = psi (tmp s) i j).
Proof.
  intros Hout. unfold Schrodinger.evolve_wave. cbn [main tmp].
  split; now apply evolve_wave_half_outside.
Qed.

Lemma iter_evolve_wave_outside (n : nat) (s : state) (i j : Z) :
  xy_in i j = 0 ->
  (phi (main (Nat.iter n (evolve_wave xy_in) s)) i j = phi (main s) i j
   /\ psi (main (Nat.iter n (evolve_wave xy_in) s)) i j = psi (main s) i j)
  /\ (phi (tmp (Nat.iter n (evolve_wave xy_in) s)) i j = phi (tmp s) i j
      /\ psi (tmp (Nat.iter n (evolve_wave xy_in) s)) i j = psi (tmp s) i j).
Proof.
  intros Hout. induction n as [|n IH]; [simpl; tauto|].
  rewrite Nat.iter_succ.
  destruct (evolve_wave_outside (Nat.iter n (evolve_wave xy_in) s) i j Hout)
    as [[A B] [C D]].
  destruct IH as [[A' B'] [C' D']]. repeat split; congruence.
Qed.

End SchrodingerFacts.

(** ** C3: mask invariance *)

(** C3.  In [wave_billiard.c] and in [schrodinger.c], whatever the number [n]
    of steps of the stencil updater, a cell that the domain mask marks as
    outside holds in every field array the value it held before the first
    step: the updater never stores into it. *)
Theorem mask_invariance :
  (forall (NX NY : Z) (courant2 KAPPA GAMMA VMAX : R) (n : nat)
          (s : WaveBilliard.state) (i j : Z),
      WaveBilliard.xy_in s i j = 0 ->
      let s' :=
        Nat.iter n (WaveBilliard.evolve_wave NX NY courant2 KAPPA GAMMA VMAX) s
      in
      WaveBilliard.phi s' i j = WaveBilliard.phi s i j
      /\ WaveBilliard.psi s' i j = WaveBilliard.psi s i j)
  /\
  (forall (NX NY : Z) (B_COND : Schrodinger.b_cond) (intstep intstep1 VMAX : R)
          (xy_in : array2 Z) (n : nat) (s : Schrodinger.state) (i j : Z),
      xy_in i j = 0 ->
      let s' :=
        Nat.iter n
          (Schrodinger.evolve_wave NX NY B_COND intstep intstep1 VMAX xy_in) s
      in
      (Schrodinger.phi (Schrodinger.main s') i j
       = Schrodinger.phi (Schrodinger.main s) i j
       /\ Schrodinger.psi (Schrodinger.main s') i j
          = Schrodinger.psi (Schrodinger.main s) i j)
      /\ (Schrodinger.phi (Schrodinger.tmp s') i j
          = Schrodinger.phi (Schrodinger.tmp s) i j
          /\ Schrodinger.psi (Schrodinger.tmp s') i j
             = Schrodinger.psi (Schrodinger.tmp s) i j)).
Proof.
  split.
  - intros NX NY courant2 KAPPA GAMMA VMAX n s i j Hout s'.
    destruct (iter_evolve_wave_same_outside NX NY courant2 KAPPA GAMMA VMAX n s)
      as [_ H].
    exact (H i j Hout).
  - intros NX NY B_COND intstep intstep1 VMAX xy_in n s i j Hout s'.
    now apply iter_evolve_wave_outside.
Qed.

(** ** wave_billiard.c on concrete grids *)

(** Unfolds the kernels on a concrete input, leaving real arithmetic to
    [lra]. *)
Ltac run_kernel :=
  cbv -[Rplus Rminus Rmult Ropp Rdiv Rinv IZR exp cos sin sqrt Rlt_dec].

(** C2.  [evolve_wave] of [wave_billiard.c] on the 4x4 fully-inside periodic
    grid with squared Courant number 0.25, no stiffness and no damping,
    started from the unit impulse at (2,2): the centre becomes 1.125 and not
    1.0, the neighbours (1,2) and (2,1) become 0.25 but (3,2) and (2,3)
    become 19/64, the cells (1,3), (3,1) and (3,3) leave zero, and the
    previous-array equals the pre-step field on the whole grid.  The cells
    visited later read the values already stored for the earlier ones. *)
Theorem impulse_step_in_place (VMAX : R) :
  let s' := WaveBilliard.evolve_wave 4 4 0.25 0 0 VMAX Inputs.impulse in
  WaveBilliard.phi s' 2 2 = 1.125%R
  /\ WaveBilliard.phi s' 1 2 = 0.25%R
  /\ WaveBilliard.phi s' 2 1 = 0.25%R
  /\ WaveBilliard.phi s' 3 2 = 0.296875%R
  /\ WaveBilliard.phi s' 2 3 = 0.296875%R
  /\ WaveBilliard.phi s' 1 3 = 0.0625%R
  /\ WaveBilliard.phi s' 3 1 = 0.0625%R
  /\ WaveBilliard.phi s' 3 3 = 0.1484375%R
  /\ Forall (fun c => WaveBilliard.psi s' (fst c) (snd c)
                      = WaveBilliard.phi Inputs.impulse (fst c) (snd c))
            (cells 0 4 0 4).
Proof.
  intros s'. subst s'.
  repeat match goal with |- _ /\ _ => split end;
    try (run_kernel; lra).
  repeat constructor; run_kernel; lra.
Qed.

(** C1.  [evolve_wave] of [wave_billiard.c] updates [phi] in place.  On the
    4x4 periodic grid the all-zero field and the field with a unit value at
    (0,2) agree at cell (2,2) and at its four axis neighbours, in both arrays
    and in the mask, yet one step gives them different values at (2,2): the
    output at a cell is not a function of the pre-step values at the cell
    and its neighbours.  On the unit impulse the in-place step and the
    two-phase step differ at (2,2). *)
Theorem evolve_wave_reads_own_writes (VMAX : R) :
  let step := WaveBilliard.evolve_wave 4 4 0.25 0 0 VMAX in
  Forall (fun c =>
            WaveBilliard.phi Inputs.flat (fst c) (snd c)
            = WaveBilliard.phi Inputs.impulse_far (fst c) (snd c)
            /\ WaveBilliard.psi Inputs.flat (fst c) (snd c)
               = WaveBilliard.psi Inputs.impulse_far (fst c) (snd c)
            /\ WaveBilliard.xy_in Inputs.flat (fst c) (snd c)
               = WaveBilliard.xy_in Inputs.impulse_far (fst c) (snd c))
         [(2, 2); (3, 2); (1, 2); (2, 3); (2, 1)]
  /\ WaveBilliard.phi (step Inputs.flat) 2 2
     <> WaveBilliard.phi (step Inputs.impulse_far) 2 2
  /\ WaveBilliard.phi (step Inputs.impulse) 2 2 = 1.125%R
  /\ WaveBilliard.phi
       (Reference.wave_two_phase 4 4 0.25 0 0 Inputs.impulse) 2 2 = 1%R.
Proof.
  intros step. subst step. split; [|split; [|split]].
  - repeat constructor.
  - run_kernel. lra.
  - run_kernel. lra.
  - run_kernel. lra.
Qed.

(** C4.  [compute_variance] starts both counters at 1.  On the 2x2
    fully-inside grid whose only non-zero value is a 1 in cell (0,0), the
    aggregate over all inside cells is 1/4, and [compute_variance] returns 0,
    in [wave_billiard.c] and in [schrodinger.c] alike. *)
Theorem compute_variance_skips_first_row_and_column :
  (WaveBilliard.compute_variance 2 2 Inputs.corner_spike = 0%R
   /\ Reference.aggregate 2 2 (WaveBilliard.xy_in Inputs.corner_spike)
        (fun i j => WaveBilliard.phi Inputs.corner_spike i j
                    * WaveBilliard.phi Inputs.corner_spike i j)%R = 0.25%R)
  /\
  (Schrodinger.compute_variance 2 2 Inputs.corner_spike_field
     (WaveBilliard.xy_in Inputs.corner_spike) = 0%R
   /\ Reference.aggregate 2 2 (WaveBilliard.xy_in Inputs.corner_spike)
        (fun i j =>
           Schrodinger.phi Inputs.corner_spike_field i j
           * Schrodinger.phi Inputs.corner_spike_field i j
           + Schrodinger.psi Inputs.corner_spike_field i j
             * Schrodinger.psi Inputs.corner_spike_field i j)%R = 0.25%R).
Proof.
  repeat split; run_kernel; lra.
Qed.

(** The drop profile at its centre. *)
Lemma drop_at_centre (d : R) :
  d = 0%R -> (exp (- d / 0.001) * cos (- sqrt d / 0.01) = 1)%R.
Proof.
  intros ->. rewrite sqrt_0.
  replace (- 0 / 0.001)%R with 0%R by lra. rewrite exp_0.
  replace (- 0 / 0.01)%R with 0%R by lra. rewrite cos_0. lra.
Qed.

(** C5.  [init_wave] and [add_drop_to_wave] of [wave_billiard.c] store the
    drop into every cell of the grid without consulting the mask.  On a
    one-cell grid whose cell is outside the domain, with the drop centred on
    the cell, [init_wave] leaves 0.2 in the outside cell and
    [add_drop_to_wave] with factor 1 raises it to 0.4. *)
Theorem init_wave_writes_outside_cells (s0 : WaveBilliard.state) :
  let s1 :=
    WaveBilliard.init_wave 1 1 Inputs.unit_coords Inputs.nowhere 0 0 s0 in
  let s2 := WaveBilliard.add_drop_to_wave 1 1 Inputs.unit_coords 1 0 0 s1 in
  WaveBilliard.xy_in s1 0 0 = 0
  /\ WaveBilliard.phi s1 0 0 = 0.2%R
  /\ WaveBilliard.xy_in s2 0 0 = 0
  /\ WaveBilliard.phi s2 0 0 = 0.4%R.
Proof.
  intros s1 s2.
  assert (D0 : WaveBilliard.dist2_of Inputs.unit_coords 0 0 0 0 = 0%R).
  { unfold WaveBilliard.dist2_of, Inputs.unit_coords. cbn [fst snd]. lra. }
  assert (H1 : WaveBilliard.phi s1 0 0 = 0.2%R).
  { subst s1. unfold WaveBilliard.init_wave. rewrite for_loop2_cells.
    change (cells 0 1 0 1) with [(0, 0)]. cbn [fold_left fst snd].
    unfold WaveBilliard.init_wave_cell. cbn [WaveBilliard.phi].
    rewrite aset_same, Rmult_assoc, (drop_at_centre _ D0). lra. }
  split; [|split; [|split]].
  - subst s1. reflexivity.
  - exact H1.
  - subst s2 s1. reflexivity.
  - subst s2. unfold WaveBilliard.add_drop_to_wave. rewrite for_loop2_cells.
    change (cells 0 1 0 1) with [(0, 0)]. cbn [fold_left fst snd].
    unfold WaveBilliard.add_drop_cell. cbn [WaveBilliard.phi].
    rewrite aset_same, H1, Rmult_assoc, (drop_at_centre _ D0). lra.
Qed.

(** ** schrodinger.c: the normaliser *)

Section NormaliserFacts.

Import Schrodinger.

Variables NX NY : Z.
Variable xy_in : array2 Z.

Local Open Scope R_scope.

Lemma Rsum_nonneg (l : list R) :
  Forall (fun v => 0 <= v) l -> 0 <= Reference.Rsum l.
Proof.
  induction 1 as [|v l Hv _ IH]; simpl; lra.
Qed.

Lemma Rsum_pos (l : list R) (v : R) :
  Forall (fun w => 0 <= w) l -> In v l -> 0 < v -> 0 < Reference.Rsum l.
Proof.
  induction 1 as [|w l Hw Hl IH]; intros Hin Hv; [contradiction|].
  simpl. pose proof (Rsum_nonneg l Hl) as Hs.
  destruct Hin as [->|Hin]; [lra|]. specialize (IH Hin Hv). lra.
Qed.

Lemma Rsum_scale (k : R) (l : list R) :
  Reference.Rsum (map (fun v => v * k) l) = Reference.Rsum l * k.
Proof.
  induction l as [|v l IH]; simpl; [lra|]. rewrite IH. lra.
Qed.

Lemma sq_mag_nonneg (f : field) (c : Z * Z) : 0 <= sq_mag f c.
Proof. unfold sq_mag. nra. Qed.

(** The accumulator of [compute_variance] after any part of its loop. *)
Lemma variance_fold (f : field) (l : list (Z * Z)) (n : Z) (v : R) :
  fold_left (fun acc c => variance_cell f xy_in (fst c) (snd c) acc) l (n, v)
  = ((n + Z.of_nat (length (filter (inside xy_in) l)))%Z,
     v + Reference.Rsum (map (sq_mag f) (filter (inside xy_in) l))).
Proof.
  revert n v. induction l as [|c l IH]; intros n v.
  - simpl. f_equal; [lia|lra].
  - cbn [fold_left filter].
    assert (Hc : variance_cell f xy_in (fst c) (snd c) (n, v)
                 = if inside xy_in c then ((n + 1)%Z, v + sq_mag f c)
                   else (n, v)).
    { unfold variance_cell, inside, sq_mag. cbn [fst snd].
      destruct (xy_in (fst c) (snd c) =? 0)%Z; reflexivity. }
    rewrite Hc. destruct (inside xy_in c); rewrite IH; [|reflexivity].
    cbn [length map]. unfold Reference.Rsum. cbn [fold_right].
    f_equal; [lia|lra].
Qed.

(** [compute_variance] is the sum of the squared magnitudes of the counted
    cells over their number, floored to 1. *)
Lemma compute_variance_counted (f : field) :
  compute_variance NX NY f xy_in
  = Reference.Rsum (map (sq_mag f) (counted NX NY xy_in))
    / IZR (denominator (Z.of_nat (length (counted NX NY xy_in)))).
Proof.
  unfold compute_variance. rewrite for_loop2_cells, variance_fold.
  cbn [fst snd]. unfold denominator, counted. rewrite Z.add_0_l.
  f_equal. lra.
Qed.

Lemma denominator_pos (n : nat) : 0 < IZR (denominator (Z.of_nat n)).
Proof.
  unfold denominator. destruct (Z.of_nat n =? 0)%Z eqn:E.
  - lra.
  - apply Z.eqb_neq in E. apply IZR_lt. lia.
Qed.

Lemma in_counted (i j : Z) :
  In (i, j) (counted NX NY xy_in)
  <-> ((1 <= i < NX)%Z /\ (1 <= j < NY)%Z /\ xy_in i j <> 0%Z).
Proof.
  unfold counted. rewrite filter_In, in_cells. unfold inside. cbn [fst snd].
  rewrite negb_true_iff, Z.eqb_neq. tauto.
Qed.

(** The iteration of [renormalise_field] for one cell touches that cell
    only, and nothing if the mask marks it as outside. *)
Lemma renormalise_cell_other (stdv : R) (f : field) (i j i' j' : Z) :
  (i', j') <> (i, j) ->
  phi (renormalise_cell xy_in stdv i j f) i' j' = phi f i' j'
  /\ psi (renormalise_cell xy_in stdv i j f) i' j' = psi f i' j'.
Proof.
  intros H. unfold renormalise_cell.
  destruct (xy_in i j =? 0)%Z; [now split|].
  cbn [phi psi]. now rewrite !aset_other by exact H.
Qed.

Lemma renormalise_cell_same (stdv : R) (f : field) (i j : Z) :
  xy_in i j <> 0%Z ->
  phi (renormalise_cell xy_in stdv i j f) i j = phi f i j / stdv
  /\ psi (renormalise_cell xy_in stdv i j f) i j = psi f i j / stdv.
Proof.
  intros H. unfold renormalise_cell. apply Z.eqb_neq in H. rewrite H.
  cbn [phi psi]. now rewrite !aset_same.
Qed.

(** [renormalise_field] divides both components of every counted cell by
    [sqrt variance], whatever [variance] is. *)
Lemma renormalise_field_counted (f : field) (variance : R) (i j : Z) :
  In (i, j) (counted NX NY xy_in) ->
  phi (renormalise_field NX NY f xy_in variance) i j
  = phi f i j / sqrt variance
  /\ psi (renormalise_field NX NY f xy_in variance) i j
     = psi f i j / sqrt variance.
Proof.
  intros Hc. apply in_counted in Hc as (Hi & Hj & Hin).
  unfold renormalise_field. rewrite for_loop2_cells.
  assert (Hc : In (i, j) (cells 1 NX 1 NY)) by (apply in_cells; lia).
  apply in_split in Hc as [l1 [l2 E]].
  pose proof (NoDup_cells 1 NX 1 NY) as Hnd. rewrite E in Hnd |- *.
  rewrite fold_left_app. cbn [fold_left fst snd].
  set (g := fun (acc : field) (c : Z * Z) =>
              renormalise_cell xy_in (sqrt variance) (fst c) (snd c) acc).
  assert (Hbefore : phi (fold_left g l1 f) i j = phi f i j
                    /\ psi (fold_left g l1 f) i j = psi f i j).
  { apply (fold_left_inv
             (fun o => phi o i j = phi f i j /\ psi o i j = psi f i j));
      [now split|].
    intros [i' j'] o Hin' [Hp Hq]. unfold g. cbn [fst snd].
    assert (Hne : (i, j) <> (i', j')).
    { intros Eq. inversion Eq; subst. apply NoDup_remove_2 in Hnd.
      apply Hnd, in_or_app. now left. }
    destruct (renormalise_cell_other (sqrt variance) o i' j' i j Hne).
    split; congruence. }
  destruct Hbefore as [Bp Bq].
  apply (fold_left_inv
           (fun o => phi o i j = phi f i j / sqrt variance
                     /\ psi o i j = psi f i j / sqrt variance)).
  - destruct (renormalise_cell_same (sqrt variance) (fold_left g l1 f) i j Hin)
      as [A B].
    split; congruence.
  - intros [i' j'] o Hin' [Hp Hq]. unfold g. cbn [fst snd].
    assert (Hne : (i, j) <> (i', j')).
    { intros Eq. inversion Eq; subst. apply NoDup_remove_2 in Hnd.
      apply Hnd, in_or_app. now right. }
    destruct (renormalise_cell_other (sqrt variance) o i' j' i j Hne).
    split; congruence.
Qed.

End NormaliserFacts.

(** ** schrodinger.c: the initialiser respects the mask *)

Section CoherentState.

Import Schrodinger.

Variables NX NY : Z.
Variable ij_to_xy : Z -> Z -> R * R.
Variable xy_in_billiard : R -> R -> Z.
Variables x y px py scalex : R.

Local Abbreviation init_cell :=
  (init_coherent_cell ij_to_xy xy_in_billiard x y px py scalex).

Lemma init_coherent_cell_other (i j i' j' : Z) (s : field * array2 Z) :
  (i', j') <> (i, j) ->
  phi (fst (init_cell i j s)) i' j' = phi (fst s) i' j'
  /\ psi (fst (init_cell i j s)) i' j' = psi (fst s) i' j'
  /\ snd (init_cell i j s) i' j' = snd s i' j'.
Proof.
  intros H. unfold init_coherent_cell. cbv zeta.
  destruct (aset (snd s) i j _ i j =? 0); cbn [fst snd phi psi];
    now rewrite !aset_other by exact H.
Qed.

(** The iteration for a cell that the domain excludes stores the mask value
    0 and zero in both components; for a cell of the domain it stores a
    value of positive squared magnitude. *)
Lemma init_coherent_cell_same (i j : Z) (s : field * array2 Z) :
  let s' := init_cell i j s in
  let c := ij_to_xy i j in
  snd s' i j = xy_in_billiard (fst c) (snd c)
  /\ (xy_in_billiard (fst c) (snd c) = 0 ->
      phi (fst s') i j = 0%R /\ psi (fst s') i j = 0%R)
  /\ (xy_in_billiard (fst c) (snd c) <> 0 ->
      (0 < phi (fst s') i j * phi (fst s') i j
           + psi (fst s') i j * psi (fst s') i j)%R).
Proof.
  intros s' c. subst s' c. unfold init_coherent_cell. cbv zeta.
  rewrite aset_same.
  destruct (xy_in_billiard (fst (ij_to_xy i j)) (snd (ij_to_xy i j)) =? 0)
    eqn:E; cbn [fst snd phi psi]; rewrite !aset_same.
  - apply Z.eqb_eq in E. repeat split; try assumption. intros H.
    contradiction.
  - apply Z.eqb_neq in E. split; [reflexivity|]. split; [intros H; contradiction|].
    intros _.
    match goal with
    | |- (0 < ?m * cos ?p * (?m * cos ?p) + ?m * sin ?p * (?m * sin ?p))%R =>
        assert (Hm : (0 < m)%R);
        [|pose proof (sin2_cos2 p) as Hsc; unfold Rsqr in Hsc;
          replace (m * cos p * (m * cos p) + m * sin p * (m * sin p))%R
            with (m * m * (sin p * sin p + cos p * cos p))%R by ring;
          rewrite Hsc; nra]
    end.
    destruct (Rlt_dec _ _); [lra|apply exp_pos].
Qed.

Lemma init_coherent_state_at (i j : Z) (s : field * array2 Z) :
  0 <= i < NX -> 0 <= j < NY ->
  let s' := init_coherent_state NX NY ij_to_xy xy_in_billiard x y px py
              scalex s in
  let c := ij_to_xy i j in
  snd s' i j = xy_in_billiard (fst c) (snd c)
  /\ (xy_in_billiard (fst c) (snd c) = 0 ->
      phi (fst s') i j = 0%R /\ psi (fst s') i j = 0%R)
  /\ (xy_in_billiard (fst c) (snd c) <> 0 ->
      (0 < phi (fst s') i j * phi (fst s') i j
           + psi (fst s') i j * psi (fst s') i j)%R).
Proof.
  intros Hi Hj s' c. subst s' c. unfold init_coherent_state.
  rewrite for_loop2_cells.
  apply (fold_left_hit
           (fun s' : field * array2 Z =>
              snd s' i j
              = xy_in_billiard (fst (ij_to_xy i j)) (snd (ij_to_xy i j))
              /\ (xy_in_billiard (fst (ij_to_xy i j)) (snd (ij_to_xy i j)) = 0
                  -> phi (fst s') i j = 0%R /\ psi (fst s') i j = 0%R)
              /\ (xy_in_billiard (fst (ij_to_xy i j)) (snd (ij_to_xy i j))
                  <> 0 ->
                  (0 < phi (fst s') i j * phi (fst s') i j
                       + psi (fst s') i j * psi (fst s') i j)%R))
           _ _ (i, j)).
  - apply NoDup_cells.
  - apply in_cells. lia.
  - intros s'. cbn [fst snd]. apply init_coherent_cell_same.
  - intros [i' j'] s' _ Hne H. cbn [fst snd].
    assert (Hne' : (i, j) <> (i', j')) by congruence.
    destruct (init_coherent_cell_other i' j' i j s' Hne') as (A & B & C).
    rewrite A, B, C. exact H.
Qed.

End CoherentState.

(** ** C6 and C9: renormalisation *)

Section Renormalisation.

Import Schrodinger.

Variables NX NY : Z.
Variable xy_in : array2 Z.

Local Open Scope R_scope.

Lemma sq_mag_renormalised (f : field) (variance : R) (c : Z * Z) :
  0 < variance -> In c (counted NX NY xy_in) ->
  sq_mag (renormalise_field NX NY f xy_in variance) c
  = sq_mag f c * / variance.
Proof.
  intros Hv Hc. destruct c as [i j].
  destruct (renormalise_field_counted NX NY xy_in f variance i j Hc) as [A B].
  unfold sq_mag. cbn [fst snd]. rewrite A, B.
  pose proof (sqrt_lt_R0 variance Hv) as Hs.
  pose proof (sqrt_sqrt variance (Rlt_le _ _ Hv)) as Hss.
  remember (sqrt variance) as sd eqn:Esd. clear Esd.
  rewrite <- Hss. field. lra.
Qed.

Lemma variance_positive (f : field) (i j : Z) :
  In (i, j) (counted NX NY xy_in) ->
  phi f i j <> 0 \/ psi f i j <> 0 ->
  0 < compute_variance NX NY f xy_in.
Proof.
  intros Hc Hnz. rewrite compute_variance_counted.
  apply Rdiv_lt_0_compat; [|apply denominator_pos].
  apply (Rsum_pos _ (sq_mag f (i, j))).
  - apply Forall_forall. intros v Hv. apply in_map_iff in Hv as [c [<- _]].
    apply sq_mag_nonneg.
  - apply in_map. exact Hc.
  - unfold sq_mag. cbn [fst snd]. destruct Hnz as [H|H]; nra.
Qed.


End Renormalisation.

(** C6.  In [schrodinger.c], for every field and mask whose
    [compute_variance] is positive, [renormalise_field] with that value
    followed by [compute_variance] on the renormalised field returns
    exactly 1 (doubles read as real numbers). *)
Theorem renormalise_then_variance (NX NY : Z) (xy_in : array2 Z)
    (f : Schrodinger.field) :
  (0 < Schrodinger.compute_variance NX NY f xy_in)%R ->
  Schrodinger.compute_variance NX NY
    (Schrodinger.renormalise_field NX NY f xy_in
       (Schrodinger.compute_variance NX NY f xy_in))
    xy_in
  = 1%R.
Proof.
  intros Hv.
  set (var := Schrodinger.compute_variance NX NY f xy_in) in *.
  rewrite compute_variance_counted.
  rewrite (map_ext_in _ (fun c => (sq_mag f c * / var)%R));
    [|intros c Hc; now apply sq_mag_renormalised].
  rewrite <- (map_map (sq_mag f) (fun v => (v * / var)%R)), Rsum_scale.
  assert (Ev : var
               = (Reference.Rsum (map (sq_mag f) (counted NX NY xy_in))
                  / IZR (denominator
                           (Z.of_nat (length (counted NX NY xy_in)))))%R)
    by (unfold var; apply compute_variance_counted).
  pose proof (denominator_pos (length (counted NX NY xy_in))) as Hd.
  set (S := Reference.Rsum (map (sq_mag f) (counted NX NY xy_in))) in *.
  set (d := IZR (denominator (Z.of_nat (length (counted NX NY xy_in))))) in *.
  assert (HS : (S = var * d)%R) by (rewrite Ev; field; lra).
  rewrite HS. field. split; lra.
Qed.

Lemma renormalise_then_variance_witness :
  (0 < Schrodinger.compute_variance 2 2 Inputs.uniform_field
         Inputs.full_mask)%R
  /\ Schrodinger.compute_variance 2 2
       (Schrodinger.renormalise_field 2 2 Inputs.uniform_field
          Inputs.full_mask
          (Schrodinger.compute_variance 2 2 Inputs.uniform_field
             Inputs.full_mask))
       Inputs.full_mask
     = 1%R.
Proof.
  assert (H : (0 < Schrodinger.compute_variance 2 2 Inputs.uniform_field
                     Inputs.full_mask)%R)
    by (run_kernel; lra).
  split; [exact H|].
  apply (renormalise_then_variance 2 2 Inputs.full_mask Inputs.uniform_field).
  exact H.
Defined.



(** ** wave_3d.c: loops that store at one index per iteration *)

Section FlatLoop.

Import Wave3D.

Variable cell : Z -> field -> field.
Variable f : Z -> Z.
Variables lo hi : Z.

(** Iteration [t] stores at index [f t] only, what it stores there depends
    on the output buffer through its value at [f t] at most, and distinct
    iterations address distinct indices. *)
Hypothesis cell_other :
  forall t out k, k <> f t -> at_ (cell t out) k = at_ out k.
Hypothesis cell_local :
  forall t o1 o2, at_ o1 (f t) = at_ o2 (f t) ->
                  at_ (cell t o1) (f t) = at_ (cell t o2) (f t).
Hypothesis f_inj :
  forall t t', lo <= t < hi -> lo <= t' < hi -> f t = f t' -> t = t'.

Lemma flat_loop_miss (out : field) (k : Z) :
  ~ In k (map f (range lo hi)) ->
  at_ (for_loop lo hi cell out) k = at_ out k.
Proof.
  intros Hk. unfold for_loop.
  apply (fold_left_inv (fun o => at_ o k = at_ out k)); [reflexivity|].
  intros t o Ht Ho. rewrite cell_other; [exact Ho|].
  intros ->. apply Hk, in_map, Ht.
Qed.

Lemma flat_loop_hit (out : field) (t : Z) :
  lo <= t < hi ->
  at_ (for_loop lo hi cell out) (f t) = at_ (cell t out) (f t).
Proof.
  intros Ht. unfold for_loop.
  assert (Hin : In t (range lo hi)) by now apply in_range.
  pose proof (NoDup_range lo hi) as Hnd.
  assert (Hall : forall t', In t' (range lo hi) -> lo <= t' < hi)
    by (intros t'; apply in_range).
  apply in_split in Hin as [l1 [l2 E]]. rewrite E in Hnd, Hall |- *.
  rewrite fold_left_app. cbn [fold_left].
  assert (Hother : forall t', In t' (l1 ++ l2) -> f t <> f t').
  { intros t' Hin' Ef. apply NoDup_remove_2 in Hnd. apply Hnd.
    assert (t = t'); [|now subst].
    apply f_inj; [exact Ht| |exact Ef].
    apply Hall. apply in_app_or in Hin'. apply in_or_app.
    destruct Hin'; [now left|right; now right]. }
  apply (fold_left_inv (fun o => at_ o (f t) = at_ (cell t out) (f t))).
  - apply cell_local.
    apply (fold_left_inv (fun o => at_ o (f t) = at_ out (f t)));
      [reflexivity|].
    intros t' o Hin' Ho. rewrite cell_other; [exact Ho|].
    apply Hother, in_or_app. now left.
  - intros t' o Hin' Ho. rewrite cell_other; [exact Ho|].
    apply Hother, in_or_app. now right.
Qed.

(** So the loop acts index by index. *)
Lemma flat_loop_local (o1 o2 : field) (k : Z) :
  at_ o1 k = at_ o2 k ->
  at_ (for_loop lo hi cell o1) k = at_ (for_loop lo hi cell o2) k.
Proof.
  intros H. destruct (in_dec Z.eq_dec k (map f (range lo hi))) as [Hk|Hk].
  - apply in_map_iff in Hk as [t [<- Ht]]. apply in_range in Ht.
    rewrite !flat_loop_hit by exact Ht. now apply cell_local.
  - rewrite !flat_loop_miss by exact Hk. exact H.
Qed.

End FlatLoop.

Lemma flat_index_inj (NY i j i' j' : Z) :
  0 <= j < NY -> 0 <= j' < NY -> i * NY + j = i' * NY + j' ->
  i = i' /\ j = j'.
Proof.
  intros Hj Hj' E. assert (i = i') by nia. subst. lia.
Qed.

Lemma at_set_phi_other (o : Wave3D.field) (k k' : Z) (v : R) :
  k' <> k -> at_ (Wave3D.set_phi o k v) k' = at_ o k'.
Proof.
  intros H. unfold at_, Wave3D.set_phi. cbn [Wave3D.phi Wave3D.psi].
  now rewrite aset1_other.
Qed.

Lemma at_set_psi_other (o : Wave3D.field) (k k' : Z) (v : R) :
  k' <> k -> at_ (Wave3D.set_psi o k v) k' = at_ o k'.
Proof.
  intros H. unfold at_, Wave3D.set_psi. cbn [Wave3D.phi Wave3D.psi].
  now rewrite aset1_other.
Qed.

Lemma at_set_both (o : Wave3D.field) (k : Z) (v x : R) :
  at_ (Wave3D.set_psi (Wave3D.set_phi o k v) k x) k = (v, x).
Proof.
  unfold at_, Wave3D.set_psi, Wave3D.set_phi. cbn [Wave3D.phi Wave3D.psi].
  now rewrite !aset1_same.
Qed.

(** ** wave_3d.c: the four boundary loops *)

Section EdgeFacts.

Import Wave3D.

Variables NX NY : Z.
Variable B_COND : b_cond.
Variables TWOSPEEDS OSCILLATE_LEFT : bool.
Variables KAPPA KAPPA_SIDES GAMMA_SIDES KAPPA_TOPBOT GAMMA_TOPBOT : R.
Variables AMPLITUDE OMEGA VMAX : R.
Variable xy_in : array1 Z.
Variables tc tcc tgamma : array1 R.
Variable tm : Z.
Variable fin : field.

Hypothesis NX_ge : 2 <= NX.
Hypothesis NY_ge : 2 <= NY.

Local Abbreviation left_cell :=
  (left_cell NX NY B_COND TWOSPEEDS KAPPA KAPPA_SIDES GAMMA_SIDES xy_in
     tc tcc tgamma fin).
Local Abbreviation right_cell :=
  (right_cell NX NY B_COND TWOSPEEDS KAPPA KAPPA_SIDES GAMMA_SIDES xy_in
     tc tcc tgamma fin).
Local Abbreviation top_cell :=
  (top_cell NX NY B_COND TWOSPEEDS KAPPA KAPPA_SIDES GAMMA_SIDES
     KAPPA_TOPBOT GAMMA_TOPBOT xy_in tc tcc tgamma fin).
Local Abbreviation bottom_cell :=
  (bottom_cell NX NY B_COND TWOSPEEDS KAPPA KAPPA_SIDES GAMMA_SIDES
     KAPPA_TOPBOT GAMMA_TOPBOT xy_in tc tcc tgamma fin).
Local Abbreviation pass :=
  (edge_pass NX NY B_COND TWOSPEEDS OSCILLATE_LEFT KAPPA KAPPA_SIDES
     GAMMA_SIDES KAPPA_TOPBOT GAMMA_TOPBOT AMPLITUDE OMEGA xy_in tc tcc
     tgamma tm fin).
Local Abbreviation passes :=
  (edge_passes NX NY B_COND TWOSPEEDS OSCILLATE_LEFT KAPPA KAPPA_SIDES
     GAMMA_SIDES KAPPA_TOPBOT GAMMA_TOPBOT AMPLITUDE OMEGA xy_in tc tcc
     tgamma tm fin).

(** Stores of one iteration, read back. *)
Ltac stores :=
  repeat first
    [ rewrite at_set_psi_other by assumption
    | rewrite at_set_phi_other by assumption
    | rewrite at_set_both ];
  try reflexivity.

Lemma left_cell_other (j : Z) (out : field) (k : Z) :
  k <> j -> at_ (left_cell j out) k = at_ out k.
Proof.
  intros H. unfold Wave3D.left_cell.
  destruct (active TWOSPEEDS xy_in j); [|reflexivity].
  destruct B_COND; stores.
Qed.

Lemma left_cell_local (j : Z) (o1 o2 : field) :
  at_ o1 j = at_ o2 j -> at_ (left_cell j o1) j = at_ (left_cell j o2) j.
Proof.
  intros H. unfold Wave3D.left_cell.
  destruct (active TWOSPEEDS xy_in j); [|exact H].
  destruct B_COND; stores.
Qed.

Lemma right_cell_other (j : Z) (out : field) (k : Z) :
  k <> (NX - 1) * NY + j -> at_ (right_cell j out) k = at_ out k.
Proof.
  intros H. unfold Wave3D.right_cell.
  destruct (active TWOSPEEDS xy_in ((NX - 1) * NY + j)); [|reflexivity].
  destruct B_COND; stores.
Qed.

Lemma right_cell_local (j : Z) (o1 o2 : field) :
  at_ o1 ((NX - 1) * NY + j) = at_ o2 ((NX - 1) * NY + j) ->
  at_ (right_cell j o1) ((NX - 1) * NY + j)
  = at_ (right_cell j o2) ((NX - 1) * NY + j).
Proof.
  intros H. unfold Wave3D.right_cell.
  destruct (active TWOSPEEDS xy_in ((NX - 1) * NY + j)); [|exact H].
  destruct B_COND; stores.
Qed.

Lemma top_cell_other (i : Z) (out : field) (k : Z) :
  k <> i * NY + NY - 1 -> at_ (top_cell i out) k = at_ out k.
Proof.
  intros H. unfold Wave3D.top_cell.
  destruct (active TWOSPEEDS xy_in (i * NY + NY - 1)); [|reflexivity].
  destruct B_COND; stores.
  destruct (i =? 0) eqn:E; stores.
  apply Z.eqb_eq in E. subst i. rewrite at_set_phi_other by lia.
  reflexivity.
Qed.

Lemma top_cell_local (i : Z) (o1 o2 : field) :
  at_ o1 (i * NY + NY - 1) = at_ o2 (i * NY + NY - 1) ->
  at_ (top_cell i o1) (i * NY + NY - 1)
  = at_ (top_cell i o2) (i * NY + NY - 1).
Proof.
  intros H. unfold Wave3D.top_cell.
  destruct (active TWOSPEEDS xy_in (i * NY + NY - 1)); [|exact H].
  destruct B_COND; stores.
  destruct (i =? 0) eqn:E; stores.
  apply Z.eqb_eq in E. subst i.
  replace (0 * NY + NY - 1) with (NY - 1) by lia. stores.
Qed.

Lemma bottom_cell_other (i : Z) (out : field) (k : Z) :
  k <> i * NY -> at_ (bottom_cell i out) k = at_ out k.
Proof.
  intros H. unfold Wave3D.bottom_cell.
  destruct (active TWOSPEEDS xy_in (i * NY)); [|reflexivity].
  destruct B_COND; stores.
  destruct (i =? 0) eqn:E; stores.
  apply Z.eqb_eq in E. subst i. rewrite at_set_phi_other by lia.
  reflexivity.
Qed.

Lemma bottom_cell_local (i : Z) (o1 o2 : field) :
  at_ o1 (i * NY) = at_ o2 (i * NY) ->
  at_ (bottom_cell i o1) (i * NY) = at_ (bottom_cell i o2) (i * NY).
Proof.
  intros H. unfold Wave3D.bottom_cell.
  destruct (active TWOSPEEDS xy_in (i * NY)); [|exact H].
  destruct B_COND; stores.
  destruct (i =? 0) eqn:E; stores.
  apply Z.eqb_eq in E. subst i.
  replace (0 * NY) with 0 by lia. stores.
Qed.

(** An edge loop changes nothing outside its footprint. *)
Lemma edge_pass_miss (e : edge) (out : field) (k : Z) :
  ~ In k (footprint NX NY e) -> at_ (pass e out) k = at_ out k.
Proof.
  intros Hk. destruct e; unfold edge_pass, footprint in *.
  - unfold left_boundary. destruct OSCILLATE_LEFT.
    + apply (flat_loop_miss _ (fun j => j)); [|exact Hk].
      intros t o k' Hne. now apply at_set_phi_other.
    + apply (flat_loop_miss _ (fun j => j)); [|exact Hk].
      intros t o k' Hne. now apply left_cell_other.
  - unfold right_boundary.
    apply (flat_loop_miss _ (fun j => (NX - 1) * NY + j)); [|exact Hk].
    intros t o k' Hne. now apply right_cell_other.
  - unfold top_boundary.
    apply (flat_loop_miss _ (fun i => i * NY + NY - 1)); [|exact Hk].
    intros t o k' Hne. now apply top_cell_other.
  - unfold bottom_boundary.
    apply (flat_loop_miss _ (fun i => i * NY)); [|exact Hk].
    intros t o k' Hne. now apply bottom_cell_other.
Qed.

Lemma at_set_phi_same (o : field) (k : Z) (v : R) :
  at_ (set_phi o k v) k = (v, psi o k).
Proof.
  unfold at_, set_phi. cbn [phi psi]. now rewrite aset1_same.
Qed.

(** What an edge loop leaves at an index depends on the output buffer
    through its value at that index at most. *)
Lemma edge_pass_local (e : edge) (o1 o2 : field) (k : Z) :
  at_ o1 k = at_ o2 k -> at_ (pass e o1) k = at_ (pass e o2) k.
Proof.
  intros H. destruct e; unfold edge_pass.
  - unfold left_boundary. destruct OSCILLATE_LEFT.
    + apply (flat_loop_local _ (fun j => j)); [| | |exact H].
      * intros t o k' Hne. now apply at_set_phi_other.
      * intros t p q Hpq. rewrite !at_set_phi_same.
        unfold at_ in Hpq. congruence.
      * intros t t' _ _ E. exact E.
    + apply (flat_loop_local _ (fun j => j)); [| | |exact H].
      * intros t o k' Hne. now apply left_cell_other.
      * intros t p q. apply left_cell_local.
      * intros t t' _ _ E. exact E.
  - unfold right_boundary.
    apply (flat_loop_local _ (fun j => (NX - 1) * NY + j)); [| | |exact H].
    + intros t o k' Hne. now apply right_cell_other.
    + intros t p q. apply right_cell_local.
    + intros t t' _ _ E. lia.
  - unfold top_boundary.
    apply (flat_loop_local _ (fun i => i * NY + NY - 1)); [| | |exact H].
    + intros t o k' Hne. now apply top_cell_other.
    + intros t p q. apply top_cell_local.
    + intros t t' _ _ E. nia.
  - unfold bottom_boundary.
    apply (flat_loop_local _ (fun i => i * NY)); [| | |exact H].
    + intros t o k' Hne. now apply bottom_cell_other.
    + intros t p q. apply bottom_cell_local.
    + intros t t' _ _ E. nia.
Qed.

(** Every index of a footprint is [i*NY+j] for a boundary position. *)
Lemma footprint_position (e : edge) (k : Z) :
  In k (footprint NX NY e) ->
  exists i j, k = i * NY + j /\ 0 <= i < NX /\ 0 <= j < NY
    /\ match e with
       | Left => i = 0 /\ 1 <= j < NY - 1
       | Right => i = NX - 1 /\ 1 <= j < NY - 1
       | Top => j = NY - 1
       | Bottom => j = 0
       end.
Proof.
  intros Hk. destruct e; unfold footprint in Hk;
    apply in_map_iff in Hk as [t [<- Ht]]; apply in_range in Ht.
  - exists 0, t. repeat split; lia.
  - exists (NX - 1), t. repeat split; lia.
  - exists t, (NY - 1). repeat split; lia.
  - exists t, 0. repeat split; lia.
Qed.

(** The footprints of two different edge loops share no index. *)
Lemma footprint_disjoint (e1 e2 : edge) (k : Z) :
  e1 <> e2 -> In k (footprint NX NY e1) -> ~ In k (footprint NX NY e2).
Proof.
  intros Hne H1 H2.
  apply footprint_position in H1 as (i1 & j1 & E1 & Hi1 & Hj1 & P1).
  apply footprint_position in H2 as (i2 & j2 & E2 & Hi2 & Hj2 & P2).
  rewrite E1 in E2.
  destruct (flat_index_inj NY i1 j1 i2 j2 Hj1 Hj2 E2) as [Ei Ej].
  destruct e1, e2; try (now contradiction Hne); lia.
Qed.

Lemma edge_pass_comm (e1 e2 : edge) (out : field) (k : Z) :
  at_ (pass e1 (pass e2 out)) k = at_ (pass e2 (pass e1 out)) k.
Proof.
  destruct (in_dec Z.eq_dec k (footprint NX NY e1)) as [H1|H1].
  - destruct (in_dec Z.eq_dec k (footprint NX NY e2)) as [H2|H2].
    + assert (e1 = e2).
      { destruct e1, e2; try reflexivity;
          exfalso; (eapply footprint_disjoint; [|exact H1|exact H2]);
          discriminate. }
      now subst.
    + rewrite (edge_pass_miss e2 (pass e1 out)) by exact H2.
      apply edge_pass_local. now apply edge_pass_miss.
  - rewrite (edge_pass_miss e1 (pass e2 out)) by exact H1.
    apply edge_pass_local. symmetry. now apply edge_pass_miss.
Qed.

Lemma edge_passes_local (order : list edge) (o1 o2 : field) (k : Z) :
  at_ o1 k = at_ o2 k -> at_ (passes order o1) k = at_ (passes order o2) k.
Proof.
  revert o1 o2. induction order as [|e l IH]; intros o1 o2 H; [exact H|].
  unfold edge_passes. cbn [fold_left]. apply IH. now apply edge_pass_local.
Qed.

(** The boundary loops may run in any order. *)
Lemma edge_passes_permutation (l1 l2 : list edge) :
  Permutation l1 l2 ->
  forall out k, at_ (passes l1 out) k = at_ (passes l2 out) k.
Proof.
  induction 1 as [|e l l' _ IH|x y l|l l' l'' _ IH1 _ IH2]; intros out k.
  - reflexivity.
  - unfold edge_passes. cbn [fold_left]. apply IH.
  - unfold edge_passes. cbn [fold_left].
    apply edge_passes_local. apply edge_pass_comm.
  - now rewrite IH1.
Qed.

Lemma edge_passes_miss (order : list edge) (out : field) (k : Z) :
  (forall e, In e order -> ~ In k (footprint NX NY e)) ->
  at_ (passes order out) k = at_ out k.
Proof.
  revert out. induction order as [|x l IH]; intros out H; [reflexivity|].
  unfold edge_passes. cbn [fold_left]. fold (passes l (pass x out)).
  rewrite IH by (intros e He; apply H; now right).
  apply edge_pass_miss, H. now left.
Qed.

(** At an index of the footprint of [e], loops run once each leave together
    what the loop of [e] alone leaves. *)
Lemma edge_passes_single (order : list edge) (e : edge) (out : field)
    (k : Z) :
  NoDup order -> In e order -> In k (footprint NX NY e) ->
  at_ (passes order out) k = at_ (pass e out) k.
Proof.
  intros Hnd He Hk. revert out.
  induction order as [|x l IH]; intros out; [contradiction|].
  inversion Hnd as [|? ? Hx Hl]; subst.
  unfold edge_passes. cbn [fold_left]. fold (passes l (pass x out)).
  destruct He as [->|He].
  - apply edge_passes_miss. intros y Hy.
    apply footprint_disjoint with (e1 := e); [|exact Hk].
    intros ->. contradiction.
  - rewrite IH by assumption. apply edge_pass_local, edge_pass_miss.
    apply footprint_disjoint with (e1 := e); [|exact Hk].
    intros ->. contradiction.
Qed.

(** At the index of one of its iterations, an edge loop leaves what that
    iteration alone leaves. *)
Lemma left_boundary_at (j : Z) (out : field) :
  OSCILLATE_LEFT = false -> 1 <= j < NY - 1 ->
  at_ (pass Left out) j = at_ (left_cell j out) j.
Proof.
  intros Hosc Hj. unfold edge_pass, left_boundary. rewrite Hosc.
  apply (flat_loop_hit _ (fun j => j)); [| | |exact Hj].
  - intros t o k' Hne. now apply left_cell_other.
  - intros t p q. apply left_cell_local.
  - intros t t' _ _ E. exact E.
Qed.

Lemma right_boundary_at (j : Z) (out : field) :
  1 <= j < NY - 1 ->
  at_ (pass Right out) ((NX - 1) * NY + j)
  = at_ (right_cell j out) ((NX - 1) * NY + j).
Proof.
  intros Hj. unfold edge_pass, right_boundary.
  apply (flat_loop_hit _ (fun j => (NX - 1) * NY + j)); [| | |exact Hj].
  - intros t o k' Hne. now apply right_cell_other.
  - intros t p q. apply right_cell_local.
  - intros t t' _ _ E. lia.
Qed.

Lemma top_boundary_at (i : Z) (out : field) :
  0 <= i < NX ->
  at_ (pass Top out) (i * NY + NY - 1) = at_ (top_cell i out) (i * NY + NY - 1).
Proof.
  intros Hi. unfold edge_pass, top_boundary.
  apply (flat_loop_hit _ (fun i => i * NY + NY - 1)); [| | |exact Hi].
  - intros t o k' Hne. now apply top_cell_other.
  - intros t p q. apply top_cell_local.
  - intros t t' _ _ E. nia.
Qed.

Lemma bottom_boundary_at (i : Z) (out : field) :
  0 <= i < NX ->
  at_ (pass Bottom out) (i * NY) = at_ (bottom_cell i out) (i * NY).
Proof.
  intros Hi. unfold edge_pass, bottom_boundary.
  apply (flat_loop_hit _ (fun i => i * NY)); [| | |exact Hi].
  - intros t o k' Hne. now apply bottom_cell_other.
  - intros t p q. apply bottom_cell_local.
  - intros t t' _ _ E. nia.
Qed.

(** An active cell receives in [psi_out] the value of [phi_in]. *)
Lemma top_cell_psi (i : Z) (out : field) :
  active TWOSPEEDS xy_in (i * NY + NY - 1) = true ->
  psi (top_cell i out) (i * NY + NY - 1) = phi fin (i * NY + NY - 1).
Proof.
  intros Ha. unfold Wave3D.top_cell. rewrite Ha.
  unfold set_psi. cbn [psi]. apply aset1_same.
Qed.

Lemma bottom_cell_psi (i : Z) (out : field) :
  active TWOSPEEDS xy_in (i * NY) = true ->
  psi (bottom_cell i out) (i * NY) = phi fin (i * NY).
Proof.
  intros Ha. unfold Wave3D.bottom_cell. rewrite Ha.
  unfold set_psi. cbn [psi]. apply aset1_same.
Qed.

(** The bulk loop stores at interior indices only. *)
Lemma bulk_miss (e : edge) (out : field) (k : Z) :
  In k (footprint NX NY e) ->
  at_ (bulk NX NY TWOSPEEDS KAPPA xy_in tcc tgamma fin out) k = at_ out k.
Proof.
  intros Hk. apply footprint_position in Hk as (i & j & -> & Hi & Hj & P).
  unfold bulk. rewrite for_loop2_cells.
  apply (fold_left_inv (fun o => at_ o (i * NY + j) = at_ out (i * NY + j)));
    [reflexivity|].
  intros [i' j'] o Hc Ho. apply in_cells in Hc. cbn [fst snd].
  unfold bulk_cell.
  destruct (active TWOSPEEDS xy_in (i' * NY + j')); [|exact Ho].
  assert (Hne : i * NY + j <> i' * NY + j').
  { intros E. apply flat_index_inj in E as [Ei Ej]; [|lia|lia].
    destruct e; lia. }
  now rewrite at_set_psi_other, at_set_phi_other by exact Hne.
Qed.

End EdgeFacts.

(** ** C10: the corners of the grid in wave_3d.c *)

Section Corners.

Import Wave3D.

Variables NX NY : Z.
Variable B_COND : b_cond.
Variables TWOSPEEDS OSCILLATE_LEFT : bool.
Variables KAPPA KAPPA_SIDES GAMMA_SIDES KAPPA_TOPBOT GAMMA_TOPBOT : R.
Variables AMPLITUDE OMEGA : R.
Variable xy_in : array1 Z.
Variables tc tcc tgamma : array1 R.
Variable tm : Z.

Local Abbreviation loop_of e :=
  (fun fin out : field =>
     edge_pass NX NY B_COND TWOSPEEDS OSCILLATE_LEFT KAPPA KAPPA_SIDES
       GAMMA_SIDES KAPPA_TOPBOT GAMMA_TOPBOT AMPLITUDE OMEGA xy_in tc tcc
       tgamma tm fin e out).
Local Abbreviation loops order fin out :=
  (edge_passes NX NY B_COND TWOSPEEDS OSCILLATE_LEFT KAPPA KAPPA_SIDES
     GAMMA_SIDES KAPPA_TOPBOT GAMMA_TOPBOT AMPLITUDE OMEGA xy_in tc tcc
     tgamma tm fin order out).

Lemma top_corner_footprint (k : Z) :
  2 <= NX -> top_corner NX NY k -> In k (footprint NX NY Top).
Proof.
  intros HX [->| ->]; unfold footprint; apply in_map_iff.
  - exists 0. split; [reflexivity|apply in_range; lia].
  - exists (NX - 1). split; [reflexivity|apply in_range; lia].
Qed.

Lemma bottom_corner_footprint (k : Z) :
  2 <= NX -> bottom_corner NX NY k -> In k (footprint NX NY Bottom).
Proof.
  intros HX [->| ->]; unfold footprint; apply in_map_iff.
  - exists 0. split; [reflexivity|apply in_range; lia].
  - exists (NX - 1). split; [reflexivity|apply in_range; lia].
Qed.

Lemma loop_not_modifies (e e' : edge) (k : Z) :
  2 <= NX -> 2 <= NY -> e' <> e -> In k (footprint NX NY e') ->
  ~ modifies (loop_of e) k.
Proof.
  intros HX HY Hne Hk [fin [out H]]. apply H. cbv beta.
  apply edge_pass_miss. intros Hk'.
  exact (footprint_disjoint NX NY HX HY e' e k Hne Hk Hk').
Qed.

(** An input that tells a store from no store: [phi_in] is 1 everywhere and
    the output buffer holds 0 everywhere. *)
Lemma top_modifies (i : Z) :
  2 <= NY -> 0 <= i < NX ->
  active TWOSPEEDS xy_in (i * NY + NY - 1) = true ->
  modifies (loop_of Top) (i * NY + NY - 1).
Proof.
  intros HY Hi Ha.
  exists (mkField (fun _ => 1%R) (fun _ => 0%R)).
  exists (mkField (fun _ => 0%R) (fun _ => 0%R)).
  cbv beta. rewrite top_boundary_at by assumption.
  unfold at_ at 1. rewrite top_cell_psi by exact Ha.
  unfold at_. cbn [phi psi]. intros E. inversion E. lra.
Qed.

Lemma bottom_modifies (i : Z) :
  2 <= NY -> 0 <= i < NX ->
  active TWOSPEEDS xy_in (i * NY) = true ->
  modifies (loop_of Bottom) (i * NY).
Proof.
  intros HY Hi Ha.
  exists (mkField (fun _ => 1%R) (fun _ => 0%R)).
  exists (mkField (fun _ => 0%R) (fun _ => 0%R)).
  cbv beta. rewrite bottom_boundary_at by assumption.
  unfold at_ at 1. rewrite bottom_cell_psi by exact Ha.
  unfold at_. cbn [phi psi]. intros E. inversion E. lra.
Qed.

(** With the guard false the iteration stores nothing. *)
Lemma top_keeps_inactive (i : Z) :
  2 <= NY -> 0 <= i < NX ->
  active TWOSPEEDS xy_in (i * NY + NY - 1) = false ->
  ~ modifies (loop_of Top) (i * NY + NY - 1).
Proof.
  intros HY Hi Ha [fin [out H]]. apply H. cbv beta.
  rewrite top_boundary_at by assumption.
  unfold top_cell. now rewrite Ha.
Qed.

Lemma bottom_keeps_inactive (i : Z) :
  2 <= NY -> 0 <= i < NX ->
  active TWOSPEEDS xy_in (i * NY) = false ->
  ~ modifies (loop_of Bottom) (i * NY).
Proof.
  intros HY Hi Ha [fin [out H]]. apply H. cbv beta.
  rewrite bottom_boundary_at by assumption.
  unfold bottom_cell. now rewrite Ha.
Qed.

(** C10.  In [evolve_wave_half] of [wave_3d.c], on a grid of at least two
    rows and two columns: the loops of the left and right edges run over
    j = 1 .. NY-2 and store into no corner cell; a corner at j = NY-1 is
    stored into by the top loop and by no other, a corner at j = 0 by the
    bottom loop and by no other (the store happens exactly when the guard
    [(TWOSPEEDS)||(xy_in != 0)] holds at the corner); and the four loops,
    run in any order, leave the same two output arrays. *)
Theorem corner_written_by_one_pass :
  2 <= NX -> 2 <= NY ->
  footprint NX NY Left = map (fun j => j) (range 1 (NY - 1))
  /\ footprint NX NY Right = map (fun j => (NX - 1) * NY + j) (range 1 (NY - 1))
  /\ (forall k, top_corner NX NY k ->
        ~ modifies (loop_of Left) k
        /\ ~ modifies (loop_of Right) k
        /\ ~ modifies (loop_of Bottom) k
        /\ (modifies (loop_of Top) k <-> active TWOSPEEDS xy_in k = true))
  /\ (forall k, bottom_corner NX NY k ->
        ~ modifies (loop_of Left) k
        /\ ~ modifies (loop_of Right) k
        /\ ~ modifies (loop_of Top) k
        /\ (modifies (loop_of Bottom) k <-> active TWOSPEEDS xy_in k = true))
  /\ (forall (order1 order2 : list edge) (fin out : field) (k : Z),
        Permutation order1 all_edges -> Permutation order2 all_edges ->
        at_ (loops order1 fin out) k = at_ (loops order2 fin out) k).
Proof.
  intros HX HY. split; [reflexivity|]. split; [reflexivity|].
  split; [|split].
  - intros k Hk. pose proof (top_corner_footprint k HX Hk) as Hf.
    split; [|split; [|split]].
    + apply (loop_not_modifies Left Top); [assumption..|discriminate|exact Hf].
    + apply (loop_not_modifies Right Top); [assumption..|discriminate|exact Hf].
    + apply (loop_not_modifies Bottom Top);
        [assumption..|discriminate|exact Hf].
    + assert (Hi : exists i, 0 <= i < NX /\ k = i * NY + NY - 1).
      { destruct Hk as [->| ->]; [exists 0|exists (NX - 1)]; split;
          solve [reflexivity | lia]. }
      destruct Hi as [i [Hi ->]]. split.
      * intros Hm.
        destruct (active TWOSPEEDS xy_in (i * NY + NY - 1)) eqn:Ha;
          [reflexivity|].
        exfalso. exact (top_keeps_inactive i HY Hi Ha Hm).
      * intros Ha. now apply top_modifies.
  - intros k Hk. pose proof (bottom_corner_footprint k HX Hk) as Hf.
    split; [|split; [|split]].
    + apply (loop_not_modifies Left Bottom);
        [assumption..|discriminate|exact Hf].
    + apply (loop_not_modifies Right Bottom);
        [assumption..|discriminate|exact Hf].
    + apply (loop_not_modifies Top Bottom);
        [assumption..|discriminate|exact Hf].
    + assert (Hi : exists i, 0 <= i < NX /\ k = i * NY).
      { destruct Hk as [->| ->]; [exists 0|exists (NX - 1)]; split;
          solve [reflexivity | lia]. }
      destruct Hi as [i [Hi ->]]. split.
      * intros Hm.
        destruct (active TWOSPEEDS xy_in (i * NY)) eqn:Ha; [reflexivity|].
        exfalso. exact (bottom_keeps_inactive i HY Hi Ha Hm).
      * intros Ha. now apply bottom_modifies.
  - intros order1 order2 fin out k H1 H2.
    apply edge_passes_permutation; [assumption..|].
    eapply Permutation_trans; [exact H1|]. now apply Permutation_sym.
Qed.

End Corners.

(** ** Neighbour indices and Laplacians *)

Section Neighbours.

Variables NX NY : Z.

Lemma rem_wrap_plus (n i : Z) :
  0 <= i < n -> Z.rem (i + 1) n = Reference.wrap n (i + 1).
Proof.
  intros H. unfold Reference.wrap. apply Z.rem_mod_nonneg; lia.
Qed.

Lemma rem_wrap_minus (n i : Z) :
  0 <= i < n ->
  (let m := Z.rem (i - 1) n in if m <? 0 then m + n else m)
  = Reference.wrap n (i - 1).
Proof.
  intros H. unfold Reference.wrap. cbv zeta.
  destruct (Z.eq_dec i 0) as [->|Hi].
  - change (0 - 1) with (- (1)). rewrite Z.rem_opp_l by lia.
    destruct (Z.eq_dec n 1) as [->|Hn]; [reflexivity|].
    rewrite Z.rem_small by lia.
    replace (- (1) <? 0) with true by (symmetry; apply Z.ltb_lt; lia).
    apply Z.mod_unique with (q := -1); lia.
  - rewrite Z.rem_mod_nonneg by lia.
    pose proof (Z.mod_pos_bound (i - 1) n) as Hb.
    replace ((i - 1) mod n <? 0) with false
      by (symmetry; apply Z.ltb_ge; lia).
    reflexivity.
Qed.

Lemma clamp_plus (n i : Z) :
  0 <= i < n ->
  (let p := i + 1 in if p =? n then n - 1 else p) = Reference.clamp n (i + 1).
Proof.
  intros H. unfold Reference.clamp. cbv zeta.
  destruct (i + 1 =? n) eqn:E1; destruct (i + 1 <? 0) eqn:E2;
    destruct (n - 1 <? i + 1) eqn:E3;
    rewrite ?Z.eqb_eq, ?Z.eqb_neq, ?Z.ltb_lt, ?Z.ltb_ge in *; lia.
Qed.

Lemma clamp_minus (n i : Z) :
  0 <= i < n ->
  (let m := i - 1 in if m =? -1 then 0 else m) = Reference.clamp n (i - 1).
Proof.
  intros H. unfold Reference.clamp. cbv zeta.
  destruct (i - 1 =? -1) eqn:E1; destruct (i - 1 <? 0) eqn:E2;
    destruct (n - 1 <? i - 1) eqn:E3;
    rewrite ?Z.eqb_eq, ?Z.eqb_neq, ?Z.ltb_lt, ?Z.ltb_ge in *; lia.
Qed.

(** The Laplacian that [evolve_wave_half] of [schrodinger.c] computes under
    a non-absorbing policy. *)
Lemma delta_of_policy (bc : Schrodinger.b_cond) (a : array2 R) (i j : Z) :
  bc <> Schrodinger.BC_ABSORBING -> 0 <= i < NX -> 0 <= j < NY ->
  Schrodinger.delta_of NX NY bc a i j = policy_laplacian bc NX NY a i j.
Proof.
  intros Hbc Hi Hj. unfold Schrodinger.delta_of, Schrodinger.neighbours.
  destruct bc; [| |now contradiction Hbc]; cbv zeta.
  - pose proof (clamp_plus NX i Hi) as A. pose proof (clamp_minus NX i Hi) as B.
    pose proof (clamp_plus NY j Hj) as C. pose proof (clamp_minus NY j Hj) as D.
    cbv zeta in A, B, C, D. rewrite A, B, C, D.
    unfold policy_laplacian, Reference.laplacian_clamped. lra.
  - pose proof (rem_wrap_minus NX i Hi) as B.
    pose proof (rem_wrap_minus NY j Hj) as D.
    cbv zeta in B, D. rewrite B, D, !rem_wrap_plus by assumption.
    unfold policy_laplacian, Reference.laplacian_periodic. lra.
Qed.

Lemma clamp_present (n i : Z) :
  0 <= i < n ->
  Reference.clamp n (i + 1)
  = (if Reference.present n (i + 1) then i + 1 else i)
  /\ Reference.clamp n (i - 1)
     = (if Reference.present n (i - 1) then i - 1 else i).
Proof.
  intros H. unfold Reference.clamp, Reference.present.
  split.
  - destruct (i + 1 <? 0) eqn:E1; destruct (n - 1 <? i + 1) eqn:E2;
      destruct (0 <=? i + 1) eqn:E3; destruct (i + 1 <? n) eqn:E4;
      cbn [andb];
      rewrite ?Z.leb_le, ?Z.leb_gt, ?Z.ltb_lt, ?Z.ltb_ge in *; lia.
  - destruct (i - 1 <? 0) eqn:E1; destruct (n - 1 <? i - 1) eqn:E2;
      destruct (0 <=? i - 1) eqn:E3; destruct (i - 1 <? n) eqn:E4;
      cbn [andb];
      rewrite ?Z.leb_le, ?Z.leb_gt, ?Z.ltb_lt, ?Z.ltb_ge in *; lia.
Qed.

(** Clamping the missing neighbours is dropping them: the clamped
    four-neighbour Laplacian is the Laplacian over the neighbours that
    exist. *)
Lemma laplacian_clamped_open (a : array2 R) (i j : Z) :
  0 <= i < NX -> 0 <= j < NY ->
  Reference.laplacian_clamped NX NY a i j
  = Reference.laplacian_open NX NY a i j.
Proof.
  intros Hi Hj.
  destruct (clamp_present NX i Hi) as [A B].
  destruct (clamp_present NY j Hj) as [C D].
  unfold Reference.laplacian_clamped, Reference.laplacian_open,
    Reference.neighbour_sum, Reference.neighbour_count.
  rewrite A, B, C, D.
  destruct (Reference.present NX (i + 1)), (Reference.present NX (i - 1)),
    (Reference.present NY (j + 1)), (Reference.present NY (j - 1));
    cbn [Z.add Pos.add Pos.succ]; lra.
Qed.

(** An edge cell that is not a corner has three neighbours, a corner cell
    has two. *)
Lemma neighbour_count_edge (i j : Z) :
  2 <= NX -> 2 <= NY -> 0 <= i < NX -> 0 <= j < NY ->
  on_border NX NY i j ->
  Reference.neighbour_count NX NY i j = if is_corner NX NY i j then 2 else 3.
Proof.
  intros HX HY Hi Hj He. unfold on_border in He.
  unfold Reference.neighbour_count, Reference.present, is_corner.
  destruct (0 <=? i + 1) eqn:E1; destruct (i + 1 <? NX) eqn:E2;
    destruct (0 <=? i - 1) eqn:E3; destruct (i - 1 <? NX) eqn:E4;
    destruct (0 <=? j + 1) eqn:E5; destruct (j + 1 <? NY) eqn:E6;
    destruct (0 <=? j - 1) eqn:E7; destruct (j - 1 <? NY) eqn:E8;
    destruct (i =? 0) eqn:F1; destruct (i =? NX - 1) eqn:F2;
    destruct (j =? 0) eqn:F3; destruct (j =? NY - 1) eqn:F4;
    cbn [andb orb];
    rewrite ?Z.leb_le, ?Z.leb_gt, ?Z.ltb_lt, ?Z.ltb_ge, ?Z.eqb_eq, ?Z.eqb_neq
      in *; lia.
Qed.

End Neighbours.

(** ** C7: the Schrodinger tick *)

(** C7.  In [schrodinger.c] under a non-absorbing policy, a half-step leaves
    at every inside cell of the grid [phi - intstep * Laplacian(psi)] and
    [psi + intstep * Laplacian(phi)], both Laplacians taken in the input
    pair (wrapped indices under the periodic policy, clamped indices under
    the reflecting one); and [evolve_wave] is two half-steps: the first reads
    the primary pair and writes the scratch pair, the second reads the
    scratch pair and writes the primary pair. *)
Theorem schrodinger_tick (NX NY : Z) (B_COND : Schrodinger.b_cond)
    (intstep intstep1 VMAX : R) (xy_in : array2 Z) :
  B_COND <> Schrodinger.BC_ABSORBING ->
  (forall (fin out : Schrodinger.field) (i j : Z),
      0 <= i < NX -> 0 <= j < NY -> xy_in i j <> 0 ->
      let out' :=
        Schrodinger.evolve_wave_half NX NY B_COND intstep intstep1 VMAX
          fin out xy_in in
      Schrodinger.phi out' i j
      = (Schrodinger.phi fin i j
         - intstep * policy_laplacian B_COND NX NY (Schrodinger.psi fin) i j)%R
      /\ Schrodinger.psi out' i j
         = (Schrodinger.psi fin i j
            + intstep
              * policy_laplacian B_COND NX NY (Schrodinger.phi fin) i j)%R)
  /\
  (forall s : Schrodinger.state,
      let half := Schrodinger.evolve_wave_half NX NY B_COND intstep intstep1
                    VMAX in
      let s' := Schrodinger.evolve_wave NX NY B_COND intstep intstep1 VMAX
                  xy_in s in
      Schrodinger.tmp s'
      = half (Schrodinger.main s) (Schrodinger.tmp s) xy_in
      /\ Schrodinger.main s'
         = half (Schrodinger.tmp s') (Schrodinger.main s) xy_in).
Proof.
  intros Hbc. split.
  - intros fin out i j Hi Hj Hin out'. subst out'.
    rewrite <- !(delta_of_policy NX NY B_COND) by assumption.
    now apply evolve_wave_half_inside.
  - intros s half s'. subst half s'. split; reflexivity.
Qed.

Lemma schrodinger_tick_witness :
  Schrodinger.BC_PERIODIC <> Schrodinger.BC_ABSORBING
  /\ Schrodinger.phi
       (Schrodinger.evolve_wave_half 4 4 Schrodinger.BC_PERIODIC 1 1 10
          Inputs.uniform_field Inputs.uniform_field Inputs.full_mask) 2 2
     = (Schrodinger.phi Inputs.uniform_field 2%Z 2%Z
        - 1 * policy_laplacian Schrodinger.BC_PERIODIC 4 4
                (Schrodinger.psi Inputs.uniform_field) 2%Z 2%Z)%R.
Proof.
  assert (H : Schrodinger.BC_PERIODIC <> Schrodinger.BC_ABSORBING)
    by discriminate.
  split; [exact H|].
  apply (proj1 (schrodinger_tick 4 4 Schrodinger.BC_PERIODIC 1 1 10
                  Inputs.full_mask H)
               Inputs.uniform_field Inputs.uniform_field 2 2);
    unfold Inputs.full_mask; lia.
Defined.

(** ** C8: the reflecting wall *)

(** Case analysis on every test of the goal. *)
Ltac split_tests :=
  repeat match goal with
         | |- context [if ?b then _ else _] => destruct b eqn:?
         end;
  rewrite ?Z.eqb_eq, ?Z.eqb_neq, ?Z.ltb_lt, ?Z.ltb_ge, ?Z.leb_le, ?Z.leb_gt
    in *;
  try lia.

(** Reads of array [a] at indices that are equal are made syntactically
    equal. *)
Ltac unify_reads a :=
  repeat match goal with
         | |- context [a ?k1] =>
             match goal with
             | |- context [a ?k2] =>
                 lazymatch k1 with
                 | k2 => fail
                 | _ => replace k2 with k1 by lia
                 end
             end
         end.

Section DirichletEdges.

Import Wave3D.

Variables NX NY : Z.
Variable TWOSPEEDS : bool.
Variables KAPPA KAPPA_SIDES GAMMA_SIDES KAPPA_TOPBOT GAMMA_TOPBOT : R.
Variables AMPLITUDE OMEGA VMAX : R.
Variable xy_in : array1 Z.
Variables tc tcc tgamma : array1 R.
Variable time0 : Z.
Variables fin out : field.

Hypothesis NX_ge : 2 <= NX.
Hypothesis NY_ge : 2 <= NY.

Local Abbreviation half :=
  (evolve_wave_half NX NY BC_DIRICHLET TWOSPEEDS false KAPPA KAPPA_SIDES
     GAMMA_SIDES KAPPA_TOPBOT GAMMA_TOPBOT AMPLITUDE OMEGA VMAX xy_in tc tcc
     tgamma time0 fin out).

Lemma NoDup_all_edges : NoDup all_edges.
Proof.
  unfold all_edges. repeat constructor; simpl; intuition discriminate.
Qed.

(** At an index of the footprint of an edge, the half-step leaves what the
    loop of that edge leaves when run alone on the given output buffer. *)
Lemma half_at_edge (e : edge) (k : Z) :
  In k (footprint NX NY e) ->
  at_ half k
  = at_ (edge_pass NX NY BC_DIRICHLET TWOSPEEDS false KAPPA KAPPA_SIDES
           GAMMA_SIDES KAPPA_TOPBOT GAMMA_TOPBOT AMPLITUDE OMEGA xy_in tc tcc
           tgamma (time0 + 1) fin e out) k.
Proof.
  intros Hk. unfold evolve_wave_half, floor_pass, oscillate_corners, FLOOR.
  cbv zeta.
  rewrite (edge_passes_single NX NY BC_DIRICHLET TWOSPEEDS false KAPPA
             KAPPA_SIDES GAMMA_SIDES KAPPA_TOPBOT GAMMA_TOPBOT AMPLITUDE OMEGA
             xy_in tc tcc tgamma (time0 + 1) fin NX_ge NY_ge all_edges e);
    [|apply NoDup_all_edges|destruct e; simpl; tauto|exact Hk].
  apply edge_pass_local; try assumption.
  now apply (bulk_miss NX NY _ _ _ _ _ _ NX_ge NY_ge e).
Qed.

(** Under the reflecting policy, the half-step leaves at every active cell
    of the border the interior recurrence applied to the clamped
    four-neighbour Laplacian of [phi_in]. *)
Lemma dirichlet_edge_update (i j : Z) :
  0 <= i < NX -> 0 <= j < NY -> on_border NX NY i j ->
  active TWOSPEEDS xy_in (i * NY + j) = true ->
  phi half (i * NY + j)
  = leapfrog KAPPA tcc tgamma (i * NY + j)
      (phi fin (i * NY + j)) (psi fin (i * NY + j))
      (Reference.laplacian_clamped NX NY (Reference.unflat NY (phi fin)) i j).
Proof.
  intros Hi Hj He Ha. unfold on_border in He.
  change (phi half (i * NY + j)) with (fst (at_ half (i * NY + j))).
  assert (Hcase : j = NY - 1 \/ j = 0 \/ (1 <= j < NY - 1 /\ i = 0)
                  \/ (1 <= j < NY - 1 /\ i = NX - 1)) by lia.
  destruct Hcase as [Ej|[Ej|[[Hj' Ei]|[Hj' Ei]]]].
  - (* top *)
    subst j. replace (i * NY + (NY - 1)) with (i * NY + NY - 1) in * by lia.
    rewrite (half_at_edge Top)
      by (unfold footprint; apply in_map_iff; exists i;
          split; [reflexivity|now apply in_range]).
    rewrite top_boundary_at by assumption.
    unfold top_cell. rewrite Ha. rewrite at_set_both. cbn [fst].
    f_equal.
    unfold Reference.laplacian_clamped, Reference.unflat, Reference.clamp,
      iplus_clamp, iminus_clamp.
    split_tests; unify_reads (phi fin); lra.
  - (* bottom *)
    subst j. replace (i * NY + 0) with (i * NY) in * by lia.
    rewrite (half_at_edge Bottom)
      by (unfold footprint; apply in_map_iff; exists i;
          split; [reflexivity|now apply in_range]).
    rewrite bottom_boundary_at by assumption.
    unfold bottom_cell. rewrite Ha. rewrite at_set_both. cbn [fst].
    f_equal.
    unfold Reference.laplacian_clamped, Reference.unflat, Reference.clamp,
      iplus_clamp, iminus_clamp.
    split_tests; unify_reads (phi fin); lra.
  - (* left *)
    subst i. replace (0 * NY + j) with j in * by lia.
    rewrite (half_at_edge Left)
      by (unfold footprint; apply in_map_iff; exists j;
          split; [reflexivity|now apply in_range]).
    rewrite left_boundary_at by (reflexivity || assumption).
    unfold left_cell. rewrite Ha. rewrite at_set_both. cbn [fst].
    f_equal.
    unfold Reference.laplacian_clamped, Reference.unflat, Reference.clamp.
    split_tests; unify_reads (phi fin); lra.
  - (* right *)
    subst i.
    rewrite (half_at_edge Right)
      by (unfold footprint; apply in_map_iff; exists j;
          split; [reflexivity|now apply in_range]).
    rewrite right_boundary_at by assumption.
    unfold right_cell. rewrite Ha. rewrite at_set_both. cbn [fst].
    f_equal.
    unfold Reference.laplacian_clamped, Reference.unflat, Reference.clamp.
    split_tests; unify_reads (phi fin); lra.
Qed.

End DirichletEdges.

(** C8.  At a border cell [(i,j)] of a grid of at least two rows and two
    columns, under the reflecting (Dirichlet) policy:
    - the four-neighbour Laplacian with the out-of-range indices clamped to
      the nearest in-range cell equals the sum of the neighbours that exist
      minus their number times the centre value, the number being 3 on an
      edge and 2 at a corner (doubles read as real numbers);
    - [evolve_wave_half] of [wave_3d.c] leaves at the cell, when it is
      active, the interior recurrence applied to that clamped Laplacian of
      [phi_in];
    - [evolve_wave_half] of [schrodinger.c] leaves at the cell, when it is
      inside the domain, its recurrence applied to that clamped Laplacian. *)
Theorem dirichlet_edge_clamped (NX NY i j : Z) :
  2 <= NX -> 2 <= NY -> 0 <= i < NX -> 0 <= j < NY -> on_border NX NY i j ->
  (forall a : array2 R,
      Reference.laplacian_clamped NX NY a i j
      = (Reference.neighbour_sum NX NY a i j
         - IZR (if is_corner NX NY i j then 2 else 3) * a i j)%R)
  /\
  (forall (TWOSPEEDS : bool)
          (KAPPA KAPPA_SIDES GAMMA_SIDES KAPPA_TOPBOT GAMMA_TOPBOT : R)
          (AMPLITUDE OMEGA VMAX : R) (xy_in : array1 Z)
          (tc tcc tgamma : array1 R) (time0 : Z) (fin out : Wave3D.field),
      Wave3D.active TWOSPEEDS xy_in (i * NY + j) = true ->
      Wave3D.phi
        (Wave3D.evolve_wave_half NX NY Wave3D.BC_DIRICHLET TWOSPEEDS false
           KAPPA KAPPA_SIDES GAMMA_SIDES KAPPA_TOPBOT GAMMA_TOPBOT AMPLITUDE
           OMEGA VMAX xy_in tc tcc tgamma time0 fin out)
        (i * NY + j)
      = Wave3D.leapfrog KAPPA tcc tgamma (i * NY + j)
          (Wave3D.phi fin (i * NY + j)) (Wave3D.psi fin (i * NY + j))
          (Reference.laplacian_clamped NX NY
             (Reference.unflat NY (Wave3D.phi fin)) i j))
  /\
  (forall (intstep intstep1 VMAX : R) (xy_in : array2 Z)
          (fin out : Schrodinger.field),
      xy_in i j <> 0 ->
      let out' :=
        Schrodinger.evolve_wave_half NX NY Schrodinger.BC_DIRICHLET intstep
          intstep1 VMAX fin out xy_in in
      Schrodinger.phi out' i j
      = (Schrodinger.phi fin i j
         - intstep
           * Reference.laplacian_clamped NX NY (Schrodinger.psi fin) i j)%R
      /\ Schrodinger.psi out' i j
         = (Schrodinger.psi fin i j
            + intstep
              * Reference.laplacian_clamped NX NY (Schrodinger.phi fin) i j)%R).
Proof.
  intros HX HY Hi Hj Hb. split; [|split].
  - intros a. rewrite laplacian_clamped_open by assumption.
    unfold Reference.laplacian_open.
    now rewrite neighbour_count_edge by assumption.
  - intros. now apply dirichlet_edge_update.
  - intros intstep intstep1 VMAX xy_in fin out Hin out'. subst out'.
    assert (Hbc : Schrodinger.BC_DIRICHLET <> Schrodinger.BC_ABSORBING)
      by discriminate.
    destruct (evolve_wave_half_inside NX NY Schrodinger.BC_DIRICHLET intstep
                intstep1 VMAX xy_in fin out i j Hbc Hi Hj Hin) as [A B].
    rewrite !(delta_of_policy NX NY Schrodinger.BC_DIRICHLET) in A, B
      by assumption.
    split; assumption.
Qed.

Lemma dirichlet_edge_clamped_witness :
  Reference.laplacian_clamped 3 3 Inputs.ramp 0 1
  = (Reference.neighbour_sum 3 3 Inputs.ramp 0 1 - 3 * Inputs.ramp 0%Z 1%Z)%R
  /\ Reference.laplacian_clamped 3 3 Inputs.ramp 0 0
     = (Reference.neighbour_sum 3 3 Inputs.ramp 0 0
        - 2 * Inputs.ramp 0%Z 0%Z)%R.
Proof.
  split.
  - apply (proj1 (dirichlet_edge_clamped 3 3 0 1 ltac:(lia) ltac:(lia)
                    ltac:(lia) ltac:(lia) (or_introl eq_refl))
                 Inputs.ramp).
  - apply (proj1 (dirichlet_edge_clamped 3 3 0 0 ltac:(lia) ltac:(lia)
                    ltac:(lia) ltac:(lia) (or_introl eq_refl))
                 Inputs.ramp).
Defined.

Lemma corner_written_by_one_pass_witness :
  ~ modifies
      (fun fin out =>
         Wave3D.edge_pass 3 3 Wave3D.BC_ABSORBING false false 0 0 0 0 0 0 0
           Inputs.all_inside (Inputs.constant 0) (Inputs.constant 0)
           (Inputs.constant 0) 1 fin Wave3D.Left out)
      2
  /\ modifies
       (fun fin out =>
          Wave3D.edge_pass 3 3 Wave3D.BC_ABSORBING false false 0 0 0 0 0 0 0
            Inputs.all_inside (Inputs.constant 0) (Inputs.constant 0)
            (Inputs.constant 0) 1 fin Wave3D.Top out)
       2.
Proof.
  pose proof
    (corner_written_by_one_pass 3 3 Wave3D.BC_ABSORBING false false 0 0 0 0 0
       0 0 Inputs.all_inside (Inputs.constant 0) (Inputs.constant 0)
       (Inputs.constant 0) 1 ltac:(lia) ltac:(lia)) as H.
  destruct H as (_ & _ & Htop & _).
  destruct (Htop 2 (or_introl eq_refl)) as (HL & _ & _ & HT).
  split; [exact HL|]. apply (proj2 HT). reflexivity.
Defined.

Lemma mask_invariance_witness :
  WaveBilliard.phi
    (Nat.iter 3 (WaveBilliard.evolve_wave 4 4 0.25 0 0 10)
       (Inputs.blocked Inputs.impulse)) 2 2
  = WaveBilliard.phi (Inputs.blocked Inputs.impulse) 2 2.
Proof.
  apply (proj1 mask_invariance 4 4 0.25%R 0%R 0%R 10%R 3%nat
           (Inputs.blocked Inputs.impulse) 2 2).
  reflexivity.
Defined.

(** * Further properties of the kernels *)

(** ** Loops that store at one key per iteration *)

Section KeyedLoop.

Variables T S K V : Type.
Variable l : list T.
Variable body : T -> S -> S.
Variable key : T -> K.
Variable obs : S -> K -> V.

Hypothesis l_nodup : NoDup l.
Hypothesis body_other :
  forall t s k, In t l -> k <> key t -> obs (body t s) k = obs s k.
Hypothesis body_local :
  forall t s1 s2, In t l -> obs s1 (key t) = obs s2 (key t) ->
                  obs (body t s1) (key t) = obs (body t s2) (key t).
Hypothesis key_inj :
  forall t t', In t l -> In t' l -> key t = key t' -> t = t'.

Lemma keyed_loop_miss (s : S) (k : K) :
  (forall t, In t l -> key t <> k) ->
  obs (fold_left (fun acc t => body t acc) l s) k = obs s k.
Proof.
  intros Hk.
  apply (fold_left_inv (fun o => obs o k = obs s k)); [reflexivity|].
  intros t o Ht Ho. rewrite body_other; [exact Ho|exact Ht|].
  intros E. now apply (Hk t Ht).
Qed.

Lemma keyed_loop_hit (s : S) (t : T) :
  In t l ->
  obs (fold_left (fun acc t => body t acc) l s) (key t)
  = obs (body t s) (key t).
Proof.
  intros Hin. destruct (in_split _ _ Hin) as [l1 [l2 E]].
  assert (Hall : forall t', In t' (l1 ++ t :: l2) -> In t' l)
    by (intros t' H; rewrite E; exact H).
  assert (Hnd : NoDup (l1 ++ t :: l2)) by (rewrite <- E; exact l_nodup).
  assert (Hother : forall t', In t' (l1 ++ l2) -> key t <> key t').
  { intros t' Hin' Ek. apply NoDup_remove_2 in Hnd. apply Hnd.
    assert (t = t'); [|now subst].
    apply key_inj; [exact Hin| |exact Ek].
    apply Hall. apply in_app_or in Hin'. apply in_or_app.
    destruct Hin'; [now left|right; now right]. }
  rewrite E, fold_left_app. cbn [fold_left].
  apply (fold_left_inv (fun o => obs o (key t) = obs (body t s) (key t))).
  - apply body_local; [exact Hin|].
    apply (fold_left_inv (fun o => obs o (key t) = obs s (key t)));
      [reflexivity|].
    intros t' o Hin' Ho. rewrite body_other; [exact Ho| |].
    + apply Hall, in_or_app. now left.
    + apply Hother, in_or_app. now left.
  - intros t' o Hin' Ho. rewrite body_other; [exact Ho| |].
    + apply Hall, in_or_app. right. now right.
    + apply Hother, in_or_app. now right.
Qed.

End KeyedLoop.

(** ** The order of the double loop *)






(** ** wave_billiard.c: the initialisers, cell by cell *)

Section WaveBilliardInit.

Import WaveBilliard.

Variables NX NY : Z.
Variable ij_to_xy : Z -> Z -> R * R.
Variable xy_in_billiard : R -> R -> Z.

Lemma add_drop_cell_other (factor x y : R) (i j : Z) (s : state)
    (c : Z * Z) :
  c <> (i, j) ->
  wave_at (add_drop_cell ij_to_xy factor x y i j s) c = wave_at s c.
Proof.
  intros H. destruct c as [i' j']. unfold wave_at, add_drop_cell.
  cbn [phi psi xy_in fst snd]. now rewrite aset_other by exact H.
Qed.

Lemma add_drop_cell_same (factor x y : R) (i j : Z) (s : state) :
  wave_at (add_drop_cell ij_to_xy factor x y i j s) (i, j)
  = ((phi s i j + factor * drop (dist2_of ij_to_xy x y i j))%R,
     psi s i j, xy_in s i j).
Proof.
  unfold wave_at, add_drop_cell, drop. cbn [phi psi xy_in fst snd].
  rewrite aset_same. f_equal. f_equal. ring.
Qed.

(** [add_drop_to_wave] adds [factor] times the drop to [phi] at every cell
    of the grid and changes nothing else. *)
Lemma add_drop_to_wave_at (factor x y : R) (s : state) (i j : Z) :
  wave_at (add_drop_to_wave NX NY ij_to_xy factor x y s) (i, j)
  = if Reference.in_grid NX NY i j
    then ((phi s i j + factor * drop (dist2_of ij_to_xy x y i j))%R,
          psi s i j, xy_in s i j)
    else wave_at s (i, j).
Proof.
  unfold add_drop_to_wave. rewrite for_loop2_cells.
  destruct (Reference.in_grid NX NY i j) eqn:G; unfold Reference.in_grid in G.
  - rewrite !andb_true_iff, !Z.leb_le, !Z.ltb_lt in G.
    rewrite (keyed_loop_hit _ _ _ _ (cells 0 NX 0 NY)
               (fun c acc => add_drop_cell ij_to_xy factor x y
                               (fst c) (snd c) acc)
               (fun c => c) wave_at (NoDup_cells 0 NX 0 NY)).
    + apply add_drop_cell_same.
    + intros [a b] o k _ Hk. now apply add_drop_cell_other.
    + intros [a b] o1 o2 _ Ho. cbn [fst snd] in *.
      rewrite !add_drop_cell_same. unfold wave_at in Ho.
      cbn [fst snd] in Ho. congruence.
    + intros t t' _ _ E. exact E.
    + apply in_cells. lia.
  - apply (keyed_loop_miss _ _ _ _ (cells 0 NX 0 NY)
             (fun c acc => add_drop_cell ij_to_xy factor x y
                             (fst c) (snd c) acc)
             (fun c => c) wave_at).
    + intros [a b] o k _ Hk. now apply add_drop_cell_other.
    + intros [a b] Hc E. inversion E; subst. apply in_cells in Hc.
      rewrite <- not_true_iff_false in G. apply G.
      rewrite !andb_true_iff, !Z.leb_le, !Z.ltb_lt. lia.
Qed.

(** X1.  Two calls of [add_drop_to_wave] with the same centre amount to one
    call with the sum of the factors, at every cell and in the three
    arrays. *)
Theorem add_drop_to_wave_compose (f1 f2 x y : R) (s : state) (i j : Z) :
  wave_at (add_drop_to_wave NX NY ij_to_xy f2 x y
             (add_drop_to_wave NX NY ij_to_xy f1 x y s)) (i, j)
  = wave_at (add_drop_to_wave NX NY ij_to_xy (f1 + f2) x y s) (i, j).
Proof.
  rewrite (add_drop_to_wave_at f2), (add_drop_to_wave_at (f1 + f2)).
  pose proof (add_drop_to_wave_at f1 x y s i j) as H1.
  destruct (Reference.in_grid NX NY i j); [|exact H1].
  unfold wave_at in H1. cbn [fst snd] in H1. inversion H1 as [[Hp Hq Hm]].
  rewrite Hp, Hq, Hm. f_equal. f_equal. ring.
Qed.

(** X2.  Adding a drop with factor [factor] and then with factor [-factor]
    at the same centre gives back the state: [phi] returns to its values
    cell by cell, [psi] and the mask are never touched. *)
Theorem add_drop_to_wave_cancel (factor x y : R) (s : state) (i j : Z) :
  wave_at (add_drop_to_wave NX NY ij_to_xy (- factor) x y
             (add_drop_to_wave NX NY ij_to_xy factor x y s)) (i, j)
  = wave_at s (i, j).
Proof.
  rewrite add_drop_to_wave_compose, add_drop_to_wave_at.
  destruct (Reference.in_grid NX NY i j); [|reflexivity].
  unfold wave_at. cbn [fst snd]. f_equal. f_equal. ring.
Qed.

Lemma init_wave_cell_other (x y : R) (i j : Z) (s : state) (c : Z * Z) :
  c <> (i, j) ->
  wave_at (init_wave_cell ij_to_xy xy_in_billiard x y i j s) c = wave_at s c.
Proof.
  intros H. destruct c as [i' j']. unfold wave_at, init_wave_cell.
  cbn [phi psi xy_in fst snd]. now rewrite !aset_other by exact H.
Qed.

Lemma init_wave_cell_same (x y : R) (i j : Z) (s : state) :
  wave_at (init_wave_cell ij_to_xy xy_in_billiard x y i j s) (i, j)
  = (drop (dist2_of ij_to_xy x y i j), 0%R,
     xy_in_billiard (fst (ij_to_xy i j)) (snd (ij_to_xy i j))).
Proof.
  unfold wave_at, init_wave_cell, drop. cbn [phi psi xy_in fst snd].
  now rewrite !aset_same.
Qed.

(** X3.  [init_wave] overwrites the three arrays on the whole grid, whatever
    they held: at a cell of the grid [phi] is the drop, [psi] is 0 and the
    mask is the value of [xy_in_billiard] at the cell's coordinates; outside
    the index range of the grid nothing is stored. *)
Theorem init_wave_at (x y : R) (s : state) (i j : Z) :
  wave_at (init_wave NX NY ij_to_xy xy_in_billiard x y s) (i, j)
  = if Reference.in_grid NX NY i j
    then (drop (dist2_of ij_to_xy x y i j), 0%R,
          xy_in_billiard (fst (ij_to_xy i j)) (snd (ij_to_xy i j)))
    else wave_at s (i, j).
Proof.
  unfold init_wave. rewrite for_loop2_cells.
  destruct (Reference.in_grid NX NY i j) eqn:G; unfold Reference.in_grid in G.
  - rewrite !andb_true_iff, !Z.leb_le, !Z.ltb_lt in G.
    rewrite (keyed_loop_hit _ _ _ _ (cells 0 NX 0 NY)
               (fun c acc => init_wave_cell ij_to_xy xy_in_billiard x y
                               (fst c) (snd c) acc)
               (fun c => c) wave_at (NoDup_cells 0 NX 0 NY)).
    + apply init_wave_cell_same.
    + intros [a b] o k _ Hk. now apply init_wave_cell_other.
    + intros [a b] o1 o2 _ _. cbn [fst snd].
      now rewrite !init_wave_cell_same.
    + intros t t' _ _ E. exact E.
    + apply in_cells. lia.
  - apply (keyed_loop_miss _ _ _ _ (cells 0 NX 0 NY)
             (fun c acc => init_wave_cell ij_to_xy xy_in_billiard x y
                             (fst c) (snd c) acc)
             (fun c => c) wave_at).
    + intros [a b] o k _ Hk. now apply init_wave_cell_other.
    + intros [a b] Hc E. inversion E; subst. apply in_cells in Hc.
      rewrite <- not_true_iff_false in G. apply G.
      rewrite !andb_true_iff, !Z.leb_le, !Z.ltb_lt. lia.
Qed.

Lemma dist2_of_nonneg (x y : R) (i j : Z) :
  (0 <= dist2_of ij_to_xy x y i j)%R.
Proof.
  unfold dist2_of. cbv zeta.
  apply Rplus_le_le_0_compat; apply Rle_0_sqr.
Qed.

Lemma drop_bound (d : R) : (0 <= d)%R -> (Rabs (drop d) <= 0.2)%R.
Proof.
  intros Hd. unfold drop.
  assert (He : (0 < exp (- d / 0.001) <= 1)%R).
  { split; [apply exp_pos|].
    rewrite <- exp_0.
    destruct (Req_dec d 0) as [->|Hn].
    - replace (- 0 / 0.001)%R with 0%R by lra. lra.
    - left. apply exp_increasing.
      assert (0 < d)%R by (destruct Hd as [Hd|Hd]; [exact Hd|congruence]).
      lra. }
  pose proof (COS_bound (- sqrt d / 0.01)) as Hc.
  apply Rabs_le. split; nra.
Qed.

(** X4.  After [init_wave] the field is at most 0.2 in absolute value at
    every cell of the grid. *)
Theorem init_wave_amplitude (x y : R) (s : state) (i j : Z) :
  0 <= i < NX -> 0 <= j < NY ->
  (Rabs (phi (init_wave NX NY ij_to_xy xy_in_billiard x y s) i j) <= 0.2)%R.
Proof.
  intros Hi Hj.
  pose proof (init_wave_at x y s i j) as H.
  replace (Reference.in_grid NX NY i j) with true in H.
  - unfold wave_at in H. cbn [fst snd] in H. inversion H as [[Hp Hq Hm]].
    rewrite Hp. apply drop_bound, dist2_of_nonneg.
  - symmetry. unfold Reference.in_grid.
    rewrite !andb_true_iff, !Z.leb_le, !Z.ltb_lt. lia.
Qed.

End WaveBilliardInit.

(** ** wave_billiard.c: what the in-place step computes *)

Section WaveBilliardStep.

Import WaveBilliard.

Variables NX NY : Z.
Variables courant2 KAPPA GAMMA VMAX : R.

Local Abbreviation cell_step :=
  (evolve_cell NX NY courant2 KAPPA GAMMA VMAX).
Local Abbreviation step := (evolve_wave NX NY courant2 KAPPA GAMMA VMAX).


Lemma evolve_cell_mask (i j : Z) (s : state) :
  xy_in (cell_step i j s) = xy_in s.
Proof.
  unfold evolve_cell, FLOOR. now destruct (xy_in s i j =? 0).
Qed.



End WaveBilliardStep.

(** ** wave_billiard.c: the variance and the animation loop *)

Lemma fold_left_ext_in {S T : Type} (f g : S -> T -> S) (l : list T) (s : S) :
  (forall t a, In t l -> f a t = g a t) ->
  fold_left f l s = fold_left g l s.
Proof.
  revert s. induction l as [|t l IH]; intros s H; [reflexivity|].
  cbn [fold_left]. rewrite (H t s) by now left.
  apply IH. intros t' a Ht'. apply H. now right.
Qed.

Section WaveBilliardVariance.

Import WaveBilliard.

Variables NX NY : Z.

(** X6.  [compute_variance] of [wave_billiard.c] reads the mask at rows and
    columns 1 and up only, and the field at the inside cells among them:
    two states that agree there have the same variance, whatever they hold
    in row 0, in column 0, in [psi] and at outside cells. *)
Theorem wave_variance_reads (s1 s2 : state) :
  (forall i j, 1 <= i < NX -> 1 <= j < NY ->
     xy_in s1 i j = xy_in s2 i j
     /\ (xy_in s1 i j <> 0 -> phi s1 i j = phi s2 i j)) ->
  compute_variance NX NY s1 = compute_variance NX NY s2.
Proof.
  intros H. unfold compute_variance. rewrite !for_loop2_cells.
  rewrite (fold_left_ext_in
             (fun acc c => variance_cell s1 (fst c) (snd c) acc)
             (fun acc c => variance_cell s2 (fst c) (snd c) acc));
    [reflexivity|].
  intros [i j] a Hc. apply in_cells in Hc. cbn [fst snd].
  destruct (H i j) as [Hm Hp]; [lia..|].
  unfold variance_cell. rewrite <- Hm.
  destruct (xy_in s1 i j =? 0) eqn:E; [reflexivity|].
  apply Z.eqb_neq in E. now rewrite (Hp E).
Qed.

Lemma wave_variance_nonneg (s : state) :
  (0 <= compute_variance NX NY s)%R.
Proof.
  unfold compute_variance. rewrite for_loop2_cells.
  set (acc := fold_left _ _ _).
  assert (Hacc : 0 <= fst acc /\ (0 <= snd acc)%R).
  { subst acc.
    apply (fold_left_inv (fun a : Z * R => 0 <= fst a /\ (0 <= snd a)%R)).
    - cbn [fst snd]. split; [lia|lra].
    - intros [i j] a _ [Ha Hb]. unfold variance_cell. cbn [fst snd].
      destruct (xy_in s i j =? 0); cbn [fst snd]; [now split|].
      split; [lia|]. pose proof (Rle_0_sqr (phi s i j)) as Hs.
      unfold Rsqr in Hs. lra. }
  destruct Hacc as [Ha Hb]. cbv zeta.
  apply Rmult_le_pos; [exact Hb|].
  left. apply Rinv_0_lt_compat.
  destruct (fst acc =? 0) eqn:E; [lra|].
  apply Z.eqb_neq in E. apply IZR_lt. lia.
Qed.

End WaveBilliardVariance.

Lemma schrodinger_variance_nonneg (NX NY : Z) (f : Schrodinger.field)
    (xy_in : array2 Z) :
  (0 <= Schrodinger.compute_variance NX NY f xy_in)%R.
Proof.
  rewrite compute_variance_counted.
  apply Rmult_le_pos.
  - apply Rsum_nonneg, Forall_forall. intros v Hv.
    apply in_map_iff in Hv as [c [<- _]]. apply sq_mag_nonneg.
  - left. apply Rinv_0_lt_compat, denominator_pos.
Qed.

Lemma sqrt_one_plus (v : R) : (0 <= v)%R -> (1 <= sqrt (1.0 + v))%R.
Proof.
  intros Hv. rewrite <- sqrt_1 at 1. apply sqrt_le_1_alt. lra.
Qed.

(** X7.  The display scale that [animation] computes is at least 1 in
    [wave_billiard.c] and in [schrodinger.c], with [SCALE] on or off: the
    variance under the square root is never negative. *)
Theorem scale_at_least_one :
  (forall (NX NY : Z) (SCALE : bool) (s : WaveBilliard.state),
      (1 <= Animation.wave_scale NX NY SCALE s)%R)
  /\
  (forall (NX NY : Z) (SCALE : bool) (xy_in : array2 Z)
          (f : Schrodinger.field),
      (1 <= Animation.schrodinger_scale NX NY SCALE xy_in f)%R).
Proof.
  split.
  - intros NX NY SCALE s. unfold Animation.wave_scale.
    destruct SCALE; [|lra]. apply sqrt_one_plus, wave_variance_nonneg.
  - intros NX NY SCALE xy_in f. unfold Animation.schrodinger_scale.
    destruct SCALE; [|lra]. apply sqrt_one_plus, schrodinger_variance_nonneg.
Qed.

Section WaveBilliardAnimation.

Import WaveBilliard.

Variables NX NY : Z.
Variables COURANT KAPPA GAMMA VMAX : R.
Variables NSTEPS NVID : Z.
Variable ij_to_xy : Z -> Z -> R * R.
Variable xy_in_billiard : R -> R -> Z.

Lemma wave_frame_same_outside (s : state) :
  same_outside s (Animation.wave_frame NX NY COURANT KAPPA GAMMA VMAX NVID s).
Proof.
  unfold Animation.wave_frame, for_loop.
  apply fold_left_inv; [apply same_outside_refl|].
  intros t o _ Ho. eapply same_outside_trans; [exact Ho|].
  apply evolve_wave_same_outside.
Qed.

(** X8.  Through the whole animation of [wave_billiard.c], whatever the
    numbers of frames and of steps per frame, a cell of the grid that
    [xy_in_billiard] puts outside the domain keeps the mask value 0, the
    value 0 in [psi], and in [phi] the value of the drop that [init_wave]
    stored there. *)
Theorem wave_animation_outside (s0 : state) (i j : Z) :
  0 <= i < NX -> 0 <= j < NY ->
  xy_in_billiard (fst (ij_to_xy i j)) (snd (ij_to_xy i j)) = 0 ->
  wave_at
    (Animation.wave_animation NX NY COURANT KAPPA GAMMA VMAX NSTEPS NVID
       ij_to_xy xy_in_billiard s0) (i, j)
  = (drop (dist2_of ij_to_xy 0.0 0.0 i j), 0%R, 0).
Proof.
  intros Hi Hj Hout. unfold Animation.wave_animation. cbv zeta.
  set (s1 := init_wave NX NY ij_to_xy xy_in_billiard 0.0 0.0 s0).
  assert (H1 : wave_at s1 (i, j)
               = (drop (dist2_of ij_to_xy 0.0 0.0 i j), 0%R, 0)).
  { subst s1. rewrite init_wave_at.
    replace (Reference.in_grid NX NY i j) with true; [now rewrite Hout|].
    symmetry. unfold Reference.in_grid.
    rewrite !andb_true_iff, !Z.leb_le, !Z.ltb_lt. lia. }
  assert (Hs : same_outside s1
                 (for_loop 0 (NSTEPS + 1)
                    (fun _ acc =>
                       Animation.wave_frame NX NY COURANT KAPPA GAMMA VMAX
                         NVID acc) s1)).
  { unfold for_loop. apply fold_left_inv; [apply same_outside_refl|].
    intros t o _ Ho. eapply same_outside_trans; [exact Ho|].
    apply wave_frame_same_outside. }
  destruct Hs as [Hm Hv]. unfold wave_at in H1 |- *.
  cbn [fst snd] in H1 |- *. injection H1 as Hp Hq Hx.
  destruct (Hv i j Hx) as [A B]. rewrite A, B, Hm, Hp, Hq, Hx.
  reflexivity.
Qed.

End WaveBilliardAnimation.

(** ** schrodinger.c: the half-step under every policy *)

Section SchrodingerHalfStep.

Import Schrodinger.

Variables NX NY : Z.
Variable B_COND : b_cond.
Variables intstep intstep1 VMAX : R.
Variable xy_in : array2 Z.

Local Abbreviation half_cell := (half_cell NX NY B_COND intstep intstep1 VMAX).
Local Abbreviation half :=
  (evolve_wave_half NX NY B_COND intstep intstep1 VMAX).

Lemma field_at_store (out : field) (i j : Z) (a b : R) :
  field_at (store out i j a b) (i, j) = (a, b).
Proof.
  unfold field_at. cbn [fst snd]. destruct (store_same out i j a b) as [A B].
  now rewrite A, B.
Qed.

Lemma store_phi (out : field) (i j : Z) (a b : R) :
  phi (store out i j a b) i j = a.
Proof. apply store_same. Qed.

Lemma store_psi (out : field) (i j : Z) (a b : R) :
  psi (store out i j a b) i j = b.
Proof. apply store_same. Qed.

Lemma half_cell_local (fin o1 o2 : field) (i j : Z) :
  field_at o1 (i, j) = field_at o2 (i, j) ->
  field_at (half_cell fin xy_in i j o1) (i, j)
  = field_at (half_cell fin xy_in i j o2) (i, j).
Proof.
  intros H. unfold Schrodinger.half_cell, FLOOR.
  destruct (xy_in i j =? 0); [exact H|].
  destruct B_COND; rewrite ?field_at_store; try reflexivity.
  repeat match goal with
         | |- context [if ?b then _ else _] => destruct b
         end; rewrite ?field_at_store; try reflexivity; exact H.
Qed.

(** At a cell of the grid the half-step leaves what the iteration for that
    cell leaves. *)
Lemma evolve_wave_half_at (fin out : field) (i j : Z) :
  0 <= i < NX -> 0 <= j < NY ->
  field_at (half fin out xy_in) (i, j)
  = field_at (half_cell fin xy_in i j out) (i, j).
Proof.
  intros Hi Hj. unfold Schrodinger.evolve_wave_half.
  rewrite for_loop2_cells.
  apply (keyed_loop_hit _ _ _ _ (cells 0 NX 0 NY)
           (fun c acc => half_cell fin xy_in (fst c) (snd c) acc)
           (fun c => c) field_at (NoDup_cells 0 NX 0 NY)).
  - intros [a b] o [a' b'] _ Hk. unfold field_at. cbn [fst snd].
    destruct (half_cell_other NX NY B_COND intstep intstep1 VMAX xy_in fin o
                a b a' b' Hk) as [A B].
    now rewrite A, B.
  - intros [a b] o1 o2 _. cbn [fst snd]. apply half_cell_local.
  - intros t t' _ _ E. exact E.
  - apply in_cells. lia.
Qed.

End SchrodingerHalfStep.

Section SchrodingerAbsorbing.

Import Schrodinger.

Variables NX NY : Z.
Variables intstep intstep1 VMAX : R.
Variable xy_in : array2 Z.

(** X9.  The absorbing policy of [schrodinger.c] on a grid of at least two
    rows and two columns, at an inside cell of the grid.  In the bulk the
    cell receives the leapfrog values with the four-neighbour Laplacian.
    On the border it receives the one-sided values
    [x - intstep1*(y - psi_in[n])] and [y + intstep1*(x - phi_in[n])], where
    [n] is the inward neighbour across the right border if the cell is on
    it, else across the upper, else the left, else the lower border; [n] is
    a cell of the grid. *)
Theorem absorbing_half_step (fin out : field) (i j : Z) :
  2 <= NX -> 2 <= NY -> 0 <= i < NX -> 0 <= j < NY -> xy_in i j <> 0 ->
  let out' := evolve_wave_half NX NY BC_ABSORBING intstep intstep1 VMAX
                fin out xy_in in
  let n := absorbing_neighbour NX NY i j in
  let x := phi fin i j in
  let y := psi fin i j in
  (0 <= fst n < NX /\ 0 <= snd n < NY)
  /\ phi out' i j
     = (if in_bulk NX NY i j
        then (x - intstep
                  * (psi fin (i + 1)%Z j + psi fin (i - 1)%Z j
                     + psi fin i (j + 1)%Z + psi fin i (j - 1)%Z - 4 * y))%R
        else (x - intstep1 * (y - psi fin (fst n) (snd n)))%R)
  /\ psi out' i j
     = (if in_bulk NX NY i j
        then (y + intstep
                  * (phi fin (i + 1)%Z j + phi fin (i - 1)%Z j
                     + phi fin i (j + 1)%Z + phi fin i (j - 1)%Z - 4 * x))%R
        else (y + intstep1 * (x - phi fin (fst n) (snd n)))%R).
Proof.
  intros HX HY Hi Hj Hin out' n x y. subst out' n x y.
  split.
  { unfold absorbing_neighbour. split_tests; cbn [fst snd]; lia. }
  pose proof (evolve_wave_half_at NX NY BC_ABSORBING intstep intstep1 VMAX
                xy_in fin out i j Hi Hj) as H.
  unfold field_at in H. cbn [fst snd] in H. injection H as Hp Hq.
  rewrite Hp, Hq. clear Hp Hq.
  unfold half_cell, FLOOR. apply Z.eqb_neq in Hin. rewrite Hin.
  unfold in_bulk, absorbing_neighbour, delta_of, neighbours.
  cbv zeta.
  destruct ((0 <? i) && (i <? NX - 1) && (0 <? j) && (j <? NY - 1)) eqn:Eb.
  - rewrite !andb_true_iff, !Z.ltb_lt in Eb.
    rewrite store_phi, store_psi.
    replace (i + 1 =? NX) with false by (symmetry; apply Z.eqb_neq; lia).
    replace (i - 1 =? -1) with false by (symmetry; apply Z.eqb_neq; lia).
    replace (j + 1 =? NY) with false by (symmetry; apply Z.eqb_neq; lia).
    replace (j - 1 =? -1) with false by (symmetry; apply Z.eqb_neq; lia).
    split; lra.
  - assert (Hb : ~ (0 < i < NX - 1 /\ 0 < j < NY - 1)).
    { intros [A B]. rewrite <- not_true_iff_false in Eb. apply Eb.
      rewrite !andb_true_iff, !Z.ltb_lt. lia. }
    destruct (i =? NX - 1) eqn:E1; [|destruct (j =? NY - 1) eqn:E2;
      [|destruct (i =? 0) eqn:E3; [|destruct (j =? 0) eqn:E4]]];
      rewrite ?Z.eqb_eq, ?Z.eqb_neq in *; cbn [fst snd];
      try (split; [apply store_phi|apply store_psi]).
    exfalso. lia.
Qed.

End SchrodingerAbsorbing.

(** ** schrodinger.c: a uniform wavefunction is stationary *)

Lemma b_cond_absorbing_dec (bc : Schrodinger.b_cond) :
  {bc = Schrodinger.BC_ABSORBING} + {bc <> Schrodinger.BC_ABSORBING}.
Proof. destruct bc; (now left) || (right; discriminate). Qed.

Section SchrodingerUniform.

Import Schrodinger.

Variables NX NY : Z.
Variable B_COND : b_cond.
Variables intstep intstep1 VMAX : R.
Variable xy_in : array2 Z.
Variables a b : R.

Hypothesis NX_ge : 2 <= NX.
Hypothesis NY_ge : 2 <= NY.

Local Abbreviation uniform f := (uniform_on_grid NX NY a b f).

Lemma clamp_in_grid (n k : Z) : 1 <= n -> 0 <= Reference.clamp n k < n.
Proof.
  intros H. unfold Reference.clamp. split_tests.
Qed.

Lemma wrap_in_grid (n k : Z) : 1 <= n -> 0 <= Reference.wrap n k < n.
Proof.
  intros H. unfold Reference.wrap. apply Z.mod_pos_bound. lia.
Qed.

Lemma policy_laplacian_uniform (bc : b_cond) (g : array2 R) (v : R)
    (i j : Z) :
  (forall i' j', 0 <= i' < NX -> 0 <= j' < NY -> g i' j' = v) ->
  0 <= i < NX -> 0 <= j < NY ->
  policy_laplacian bc NX NY g i j = 0%R.
Proof.
  intros Hg Hi Hj.
  unfold policy_laplacian, Reference.laplacian_periodic,
    Reference.laplacian_clamped.
  destruct bc;
    rewrite !Hg by (first [assumption | apply clamp_in_grid; lia
                          | apply wrap_in_grid; lia]);
    lra.
Qed.

Lemma half_step_uniform (fin out : field) (i j : Z) :
  uniform fin -> 0 <= i < NX -> 0 <= j < NY -> xy_in i j <> 0 ->
  field_at (evolve_wave_half NX NY B_COND intstep intstep1 VMAX fin out xy_in)
    (i, j) = (a, b).
Proof.
  intros Hu Hi Hj Hin.
  assert (Hphi : forall i' j', 0 <= i' < NX -> 0 <= j' < NY ->
                               phi fin i' j' = a).
  { intros i' j' Hi' Hj'. pose proof (Hu i' j' Hi' Hj') as H.
    unfold field_at in H. cbn [fst snd] in H. congruence. }
  assert (Hpsi : forall i' j', 0 <= i' < NX -> 0 <= j' < NY ->
                               psi fin i' j' = b).
  { intros i' j' Hi' Hj'. pose proof (Hu i' j' Hi' Hj') as H.
    unfold field_at in H. cbn [fst snd] in H. congruence. }
  unfold field_at. cbn [fst snd].
  destruct (b_cond_absorbing_dec B_COND) as [Eb|Eb].
  - subst B_COND.
    destruct (absorbing_half_step NX NY intstep intstep1 VMAX xy_in fin out
                i j NX_ge NY_ge Hi Hj Hin) as ([Hn1 Hn2] & Hp & Hq).
    cbv zeta in Hp, Hq. rewrite Hp, Hq.
    destruct (in_bulk NX NY i j) eqn:Ebulk.
    + unfold in_bulk in Ebulk.
      rewrite !andb_true_iff, !Z.ltb_lt in Ebulk.
      rewrite !Hphi, !Hpsi by lia. f_equal; lra.
    + rewrite !Hphi, !Hpsi by assumption. f_equal; lra.
  - destruct (evolve_wave_half_inside NX NY B_COND intstep intstep1 VMAX
                xy_in fin out i j Eb Hi Hj Hin) as [Hp Hq].
    rewrite Hp, Hq, !delta_of_policy by assumption.
    rewrite (policy_laplacian_uniform B_COND (psi fin) b) by assumption.
    rewrite (policy_laplacian_uniform B_COND (phi fin) a) by assumption.
    rewrite Hphi, Hpsi by assumption. f_equal; lra.
Qed.

(** X10.  On a grid of at least two rows and two columns whose cells are
    all inside the domain, under each of the three policies and whatever the
    scratch pair holds, a wavefunction that is uniform on the grid is left
    unchanged on the grid by any number of calls of [evolve_wave]. *)
Theorem uniform_field_is_stationary (n : nat) (s : state) :
  (forall i j, 0 <= i < NX -> 0 <= j < NY -> xy_in i j <> 0) ->
  uniform (main s) ->
  uniform
    (main (Nat.iter n
             (evolve_wave NX NY B_COND intstep intstep1 VMAX xy_in) s)).
Proof.
  intros Hall Hu. induction n as [|n IH]; [exact Hu|].
  rewrite Nat.iter_succ. unfold evolve_wave at 1. cbn [main].
  intros i j Hi Hj. apply half_step_uniform; try assumption; [|now apply Hall].
  intros i' j' Hi' Hj'. apply half_step_uniform; try assumption.
  now apply Hall.
Qed.

End SchrodingerUniform.

(** ** schrodinger.c: the normaliser, continued *)

Section NormaliserMore.

Import Schrodinger.

Variables NX NY : Z.
Variable xy_in : array2 Z.

Local Open Scope R_scope.

(** X11.  [renormalise_field] changes no cell but the counted ones: row 0,
    column 0, the cells the mask marks as outside and everything beyond the
    grid keep both components, whatever the variance passed. *)
Theorem renormalise_field_frame (f : field) (variance : R) (i j : Z) :
  ~ ((1 <= i < NX)%Z /\ (1 <= j < NY)%Z /\ xy_in i j <> 0%Z) ->
  field_at (renormalise_field NX NY f xy_in variance) (i, j)
  = field_at f (i, j).
Proof.
  intros Hc. unfold renormalise_field. rewrite for_loop2_cells.
  apply (fold_left_inv (fun o => field_at o (i, j) = field_at f (i, j)));
    [reflexivity|].
  intros [i' j'] o Hin Ho. apply in_cells in Hin. cbn [fst snd].
  rewrite <- Ho. unfold field_at. cbn [fst snd].
  destruct (cell_eq_dec (i, j) (i', j')) as [E|E].
  - inversion E; subst. unfold renormalise_cell.
    destruct (xy_in i' j' =? 0)%Z eqn:Em; [reflexivity|].
    apply Z.eqb_neq in Em. exfalso. apply Hc. tauto.
  - destruct (renormalise_cell_other xy_in (sqrt variance) o i' j' i j E)
      as [A B].
    now rewrite A, B.
Qed.

(** X12.  Renormalising with a positive number [v] divides the variance by
    [v]: [compute_variance] of the renormalised field is
    [compute_variance] of the field over [v]. *)
Theorem renormalise_scales_variance (f : field) (v : R) :
  0 < v ->
  compute_variance NX NY (renormalise_field NX NY f xy_in v) xy_in
  = compute_variance NX NY f xy_in / v.
Proof.
  intros Hv. rewrite !compute_variance_counted.
  rewrite (map_ext_in _ (fun c => sq_mag f c * / v));
    [|intros c Hc; now apply sq_mag_renormalised].
  rewrite <- (map_map (sq_mag f) (fun w => w * / v)), Rsum_scale.
  pose proof (denominator_pos (length (counted NX NY xy_in))) as Hd.
  field. split; lra.
Qed.

(** X13.  [compute_variance] of [schrodinger.c] reads the two components at
    the counted cells only (rows and columns 1 and up, mask non-zero): two
    fields that agree there have the same variance. *)
Theorem schrodinger_variance_reads (f1 f2 : field) :
  (forall i j, (1 <= i < NX)%Z -> (1 <= j < NY)%Z -> xy_in i j <> 0%Z ->
               field_at f1 (i, j) = field_at f2 (i, j)) ->
  compute_variance NX NY f1 xy_in = compute_variance NX NY f2 xy_in.
Proof.
  intros H. rewrite !compute_variance_counted. f_equal. f_equal.
  apply map_ext_in. intros [i j] Hc. apply in_counted in Hc.
  destruct Hc as (Hi & Hj & Hin). pose proof (H i j Hi Hj Hin) as E.
  unfold field_at in E. cbn [fst snd] in E. injection E as Ep Eq.
  unfold sq_mag. cbn [fst snd]. now rewrite Ep, Eq.
Qed.

(** With no counted cell, [renormalise_field] changes nothing. *)
Lemma renormalise_field_nothing_counted (f : field) (variance : R) (c : Z * Z) :
  (forall i j, (1 <= i < NX)%Z -> (1 <= j < NY)%Z -> xy_in i j = 0%Z) ->
  field_at (renormalise_field NX NY f xy_in variance) c = field_at f c.
Proof.
  intros H. destruct c as [i j]. apply renormalise_field_frame.
  intros (Hi & Hj & Hin). apply Hin. now apply H.
Qed.

End NormaliserMore.

(** ** schrodinger.c: the coherent state *)

Section CoherentStateMore.

Import Schrodinger.

Variables NX NY : Z.
Variable ij_to_xy : Z -> Z -> R * R.
Variable xy_in_billiard : R -> R -> Z.
Variables x y px py scalex : R.

Local Open Scope R_scope.

Lemma module_bounds (d : R) :
  scalex <> 0 -> 0 <= d ->
  let m := exp (- d / (scalex * scalex)) in
  let m := if Rlt_dec m 1.0e-15 then 1.0e-15 else m in
  1.0e-15 <= m <= 1.
Proof.
  intros Hs Hd. cbv zeta.
  assert (Hs2 : 0 < scalex * scalex) by nra.
  assert (He : exp (- d / (scalex * scalex)) <= 1).
  { rewrite <- exp_0. destruct Hd as [Hd|Hd].
    - left. apply exp_increasing.
      unfold Rdiv. rewrite <- Ropp_mult_distr_l.
      apply Ropp_lt_gt_0_contravar. apply Rmult_lt_0_compat; [exact Hd|].
      now apply Rinv_0_lt_compat.
    - subst d. right. f_equal. unfold Rdiv. ring. }
  destruct (Rlt_dec _ _) as [Hlt|Hge]; lra.
Qed.

Lemma init_coherent_cell_inside (i j : Z) (s : field * array2 Z) :
  scalex <> 0 ->
  xy_in_billiard (fst (ij_to_xy i j)) (snd (ij_to_xy i j)) <> 0%Z ->
  1.0e-30 <= sq_mag
               (fst (init_coherent_cell ij_to_xy xy_in_billiard x y px py
                       scalex i j s)) (i, j) <= 1.
Proof.
  intros Hs Hin. unfold init_coherent_cell. cbv zeta.
  rewrite aset_same. apply Z.eqb_neq in Hin. rewrite Hin.
  unfold sq_mag. cbn [fst snd phi psi]. rewrite !aset_same.
  match goal with
  | |- _ <= ?m * cos ?p * (?m * cos ?p) + ?m * sin ?p * (?m * sin ?p) <= _ =>
      assert (Hm : 1.0e-15 <= m <= 1);
      [|pose proof (sin2_cos2 p) as Hsc; unfold Rsqr in Hsc;
        replace (m * cos p * (m * cos p) + m * sin p * (m * sin p))
          with (m * m * (sin p * sin p + cos p * cos p)) by ring;
        rewrite Hsc; nra]
  end.
  apply module_bounds; [exact Hs|].
  apply Rplus_le_le_0_compat; apply Rle_0_sqr.
Qed.

(** X14.  [init_coherent_state] with a non-zero width [scalex] overwrites
    the grid whatever it held: the mask of a cell is the value of
    [xy_in_billiard] at its coordinates; a cell outside the domain holds
    exactly 0 in both components; a cell inside holds a value of squared
    modulus between 1e-30 and 1. *)
Theorem init_coherent_state_magnitude (s : field * array2 Z) (i j : Z) :
  scalex <> 0 -> (0 <= i < NX)%Z -> (0 <= j < NY)%Z ->
  let s' := init_coherent_state NX NY ij_to_xy xy_in_billiard x y px py
              scalex s in
  let inside := xy_in_billiard (fst (ij_to_xy i j)) (snd (ij_to_xy i j)) in
  snd s' i j = inside
  /\ (inside = 0%Z -> field_at (fst s') (i, j) = (0, 0))
  /\ (inside <> 0%Z -> 1.0e-30 <= sq_mag (fst s') (i, j) <= 1).
Proof.
  intros Hs Hi Hj s' inside. subst s' inside.
  destruct (init_coherent_state_at NX NY ij_to_xy xy_in_billiard x y px py
              scalex i j s Hi Hj) as (Hm & Hz & _).
  split; [exact Hm|]. split.
  - intros E. destruct (Hz E) as [A B]. unfold field_at. cbn [fst snd].
    now rewrite A, B.
  - intros Hin. unfold init_coherent_state. rewrite for_loop2_cells.
    apply (fold_left_hit
             (fun s' : field * array2 Z =>
                1.0e-30 <= sq_mag (fst s') (i, j) <= 1) _ _ (i, j)).
    + apply NoDup_cells.
    + apply in_cells. lia.
    + intros s'. cbn [fst snd]. now apply init_coherent_cell_inside.
    + intros [i' j'] s' _ Hne H. cbn [fst snd].
      assert (Hne' : (i, j) <> (i', j')) by congruence.
      destruct (init_coherent_cell_other ij_to_xy xy_in_billiard x y px py
                  scalex i' j' i j s' Hne') as (A & B & _).
      unfold sq_mag in *. cbn [fst snd] in *. now rewrite A, B.
Qed.

End CoherentStateMore.

(** ** schrodinger.c: the animation loop *)

Section SchrodingerAnimation.

Import Schrodinger.

Variables NX NY : Z.
Variable B_COND : b_cond.
Variables XMIN XMAX DT HBAR VMAX : R.
Variable SCALE : bool.
Variables NSTEPS NVID : Z.
Variable ij_to_xy : Z -> Z -> R * R.
Variable xy_in_billiard : R -> R -> Z.

Lemma normalise_frame (xy_in : array2 Z) (f : field) (i j : Z) :
  xy_in i j = 0 ->
  field_at (Animation.normalise NX NY SCALE xy_in f) (i, j) = field_at f (i, j).
Proof.
  intros Hout. unfold Animation.normalise. destruct SCALE; [|reflexivity].
  apply renormalise_field_frame. intros (_ & _ & H). contradiction.
Qed.

Lemma schrodinger_frame_outside (xy_in : array2 Z) (s : state) (i j : Z) :
  xy_in i j = 0 ->
  field_at
    (main (Animation.schrodinger_frame NX NY B_COND XMIN XMAX DT HBAR VMAX
             SCALE NVID xy_in s)) (i, j)
  = field_at (main s) (i, j).
Proof.
  intros Hout. unfold Animation.schrodinger_frame, for_loop. cbv zeta.
  rewrite <- (normalise_frame xy_in (main s) i j Hout).
  apply (fold_left_inv
           (fun o : state =>
              field_at (main o) (i, j)
              = field_at (Animation.normalise NX NY SCALE xy_in (main s))
                  (i, j))); [reflexivity|].
  intros t o _ Ho. rewrite <- Ho. unfold field_at. cbn [fst snd].
  destruct (evolve_wave_outside NX NY B_COND
              (Animation.intstep NX XMIN XMAX DT HBAR)
              (Animation.intstep1 NX XMIN XMAX DT HBAR) VMAX xy_in o i j Hout)
    as [[A B] _].
  now rewrite A, B.
Qed.

(** X15.  Through the whole animation of [schrodinger.c], whatever the
    policy, the numbers of frames and of steps per frame, the contents of
    the freshly allocated arrays and the setting of [SCALE], a cell of the
    grid that [xy_in_billiard] puts outside the domain has mask value 0 and
    holds exactly 0 in both components of the wavefunction. *)
Theorem schrodinger_animation_outside (s0 : state) (xy0 : array2 Z)
    (i j : Z) :
  0 <= i < NX -> 0 <= j < NY ->
  xy_in_billiard (fst (ij_to_xy i j)) (snd (ij_to_xy i j)) = 0 ->
  let r := Animation.schrodinger_animation NX NY B_COND XMIN XMAX DT HBAR
             VMAX SCALE NSTEPS NVID ij_to_xy xy_in_billiard s0 xy0 in
  snd r i j = 0 /\ field_at (main (fst r)) (i, j) = (0%R, 0%R).
Proof.
  intros Hi Hj Hout r. subst r. unfold Animation.schrodinger_animation.
  cbv zeta. cbn [fst snd].
  destruct (init_coherent_state_at NX NY ij_to_xy xy_in_billiard 0.5 0.0 40.0
              0.0 0.25 i j (main s0, xy0) Hi Hj) as (Hm & Hz & _).
  cbv zeta in Hm, Hz. rewrite Hout in Hm. destruct (Hz Hout) as [Zp Zq].
  split; [exact Hm|].
  unfold for_loop.
  apply (fold_left_inv
           (fun o : state => field_at (main o) (i, j) = (0%R, 0%R))).
  - cbn [main]. rewrite normalise_frame by exact Hm.
    unfold field_at. cbn [fst snd]. now rewrite Zp, Zq.
  - intros t o _ Ho. now rewrite schrodinger_frame_outside by exact Hm.
Qed.

End SchrodingerAnimation.

Section FirstRenormalisation.

Import Schrodinger.

Variables NX NY : Z.
Variable ij_to_xy : Z -> Z -> R * R.
Variable xy_in_billiard : R -> R -> Z.
Variables x y px py scalex : R.

(** X16.  The renormalisation that follows [init_coherent_state] does not
    divide by zero.  If the mask that the initialiser built has a counted
    cell, the variance of the initial field is strictly positive and so is
    its square root, the divisor; if it has none, [renormalise_field]
    divides nothing and leaves the field as it is. *)
Theorem first_renormalisation_divisor (s : field * array2 Z) :
  let init := init_coherent_state NX NY ij_to_xy xy_in_billiard x y px py
                scalex s in
  let var := compute_variance NX NY (fst init) (snd init) in
  (counted NX NY (snd init) <> [] -> (0 < var)%R /\ (0 < sqrt var)%R)
  /\ (counted NX NY (snd init) = [] ->
      forall c, field_at (renormalise_field NX NY (fst init) (snd init) var) c
                = field_at (fst init) c).
Proof.
  intros init var. split.
  - intros Hne.
    destruct (counted NX NY (snd init)) as [|[i j] l] eqn:E;
      [now contradiction Hne|].
    assert (Hc : In (i, j) (counted NX NY (snd init)))
      by (rewrite E; now left).
    pose proof Hc as Hc'. apply in_counted in Hc' as (Hi & Hj & Hin).
    assert (Hpos : (0 < var)%R).
    { subst var. apply (variance_positive NX NY (snd init) (fst init) i j Hc).
      destruct (init_coherent_state_at NX NY ij_to_xy xy_in_billiard x y px
                  py scalex i j s ltac:(lia) ltac:(lia)) as (Hm & _ & Hp).
      cbv zeta in Hm, Hp. fold init in Hm, Hp.
      assert (Hin' : xy_in_billiard (fst (ij_to_xy i j)) (snd (ij_to_xy i j))
                     <> 0) by (rewrite <- Hm; exact Hin).
      specialize (Hp Hin').
      destruct (Req_dec (phi (fst init) i j) 0) as [Ez|Ez]; [|now left].
      right. intros Eq. rewrite Ez, Eq in Hp. lra. }
    split; [exact Hpos|now apply sqrt_lt_R0].
  - intros E [i j]. apply renormalise_field_frame. intros (Hi & Hj & Hin).
    assert (Hc : In (i, j) (counted NX NY (snd init)))
      by (apply in_counted; tauto).
    rewrite E in Hc. contradiction.
Qed.

End FirstRenormalisation.

(** ** wave_3d.c: the half-step on the whole grid *)

Section Wave3DHalfStep.

Import Wave3D.

Variables NX NY : Z.
Variable B_COND : b_cond.
Variables TWOSPEEDS OSCILLATE_LEFT : bool.
Variables KAPPA KAPPA_SIDES GAMMA_SIDES KAPPA_TOPBOT GAMMA_TOPBOT : R.
Variables AMPLITUDE OMEGA VMAX : R.
Variable xy_in : array1 Z.
Variables tc tcc tgamma : array1 R.
Variable time0 : Z.
Variables fin out : field.

Hypothesis NX_ge : 2 <= NX.
Hypothesis NY_ge : 2 <= NY.

Local Abbreviation half :=
  (evolve_wave_half NX NY B_COND TWOSPEEDS OSCILLATE_LEFT KAPPA KAPPA_SIDES
     GAMMA_SIDES KAPPA_TOPBOT GAMMA_TOPBOT AMPLITUDE OMEGA VMAX xy_in tc tcc
     tgamma time0 fin out).
Local Abbreviation pass e o :=
  (edge_pass NX NY B_COND TWOSPEEDS OSCILLATE_LEFT KAPPA KAPPA_SIDES
     GAMMA_SIDES KAPPA_TOPBOT GAMMA_TOPBOT AMPLITUDE OMEGA xy_in tc tcc
     tgamma (time0 + 1) fin e o).
Local Abbreviation bulk_of o :=
  (bulk NX NY TWOSPEEDS KAPPA xy_in tcc tgamma fin o).
Local Abbreviation bulk_cell_of := (bulk_cell NY TWOSPEEDS KAPPA xy_in tcc tgamma fin).

Lemma bulk_cell_other (i j : Z) (o : field) (k : Z) :
  k <> i * NY + j -> at_ (bulk_cell_of i j o) k = at_ o k.
Proof.
  intros H. unfold bulk_cell.
  destruct (active TWOSPEEDS xy_in (i * NY + j)); [|reflexivity].
  now rewrite at_set_psi_other, at_set_phi_other by exact H.
Qed.

Lemma bulk_cell_local (i j : Z) (o1 o2 : field) :
  at_ o1 (i * NY + j) = at_ o2 (i * NY + j) ->
  at_ (bulk_cell_of i j o1) (i * NY + j) = at_ (bulk_cell_of i j o2) (i * NY + j).
Proof.
  intros H. unfold bulk_cell.
  destruct (active TWOSPEEDS xy_in (i * NY + j)); [|exact H].
  now rewrite !at_set_both.
Qed.

(** At an interior index the bulk loop leaves what its iteration for that
    cell leaves; at any other index it leaves the output buffer as it is. *)
Lemma bulk_at (i j : Z) :
  1 <= i < NX - 1 -> 1 <= j < NY - 1 ->
  at_ (bulk_of out) (i * NY + j) = at_ (bulk_cell_of i j out) (i * NY + j).
Proof.
  intros Hi Hj. unfold bulk. rewrite for_loop2_cells.
  refine (keyed_loop_hit _ _ _ _ (cells 1 (NX - 1) 1 (NY - 1))
            (fun c acc => bulk_cell_of (fst c) (snd c) acc)
            (fun c => fst c * NY + snd c) at_ (NoDup_cells _ _ _ _)
            _ _ _ out (i, j) _).
  - intros [a b] o k _ Hk. cbn [fst snd] in *. now apply bulk_cell_other.
  - intros [a b] o1 o2 _. cbn [fst snd]. apply bulk_cell_local.
  - intros [a b] [a' b'] Hc Hc' E. apply in_cells in Hc, Hc'.
    cbn [fst snd] in E.
    apply flat_index_inj in E as [-> ->]; [reflexivity|lia|lia].
  - apply in_cells. lia.
Qed.

Lemma bulk_not_interior (k : Z) :
  (forall i j, 1 <= i < NX - 1 -> 1 <= j < NY - 1 -> k <> i * NY + j) ->
  at_ (bulk_of out) k = at_ out k.
Proof.
  intros H. unfold bulk. rewrite for_loop2_cells.
  apply (fold_left_inv (fun o => at_ o k = at_ out k)); [reflexivity|].
  intros [a b] o Hc Ho. apply in_cells in Hc. cbn [fst snd].
  rewrite bulk_cell_other; [exact Ho|]. apply H; lia.
Qed.

Lemma interior_not_on_edge (e : edge) (i j : Z) :
  1 <= i < NX - 1 -> 1 <= j < NY - 1 -> ~ In (i * NY + j) (footprint NX NY e).
Proof.
  intros Hi Hj Hk.
  destruct (footprint_position NX NY NX_ge NY_ge e _ Hk) as (i' & j' & E & Hi' & Hj' & P).
  apply flat_index_inj in E as [Ei Ej]; [|lia|lia].
  subst i' j'. destruct e; lia.
Qed.

Lemma oscillate_corners_other (tm : Z) (o : field) (k : Z) :
  k <> 0 -> k <> NY - 1 ->
  at_ (oscillate_corners NY OSCILLATE_LEFT AMPLITUDE OMEGA tm o) k = at_ o k.
Proof.
  intros H0 H1. unfold oscillate_corners.
  destruct OSCILLATE_LEFT; [|reflexivity].
  now rewrite !at_set_phi_other by assumption.
Qed.

(** X17.  Whatever the boundary policy and the settings of [TWOSPEEDS] and
    [OSCILLATE_LEFT], [evolve_wave_half] of [wave_3d.c] leaves at an active
    interior cell the leapfrog value computed from [phi_in] at the cell and
    at its four axis neighbours and from [psi_in] at the cell, and leaves
    [phi_in] of the cell in [psi_out]. *)
Theorem interior_update (i j : Z) :
  1 <= i < NX - 1 -> 1 <= j < NY - 1 ->
  active TWOSPEEDS xy_in (i * NY + j) = true ->
  let k := i * NY + j in
  let a := Reference.unflat NY (phi fin) in
  at_ half k
  = (leapfrog KAPPA tcc tgamma k (phi fin k) (psi fin k)
       (a (i + 1)%Z j + a (i - 1)%Z j + a i (j + 1)%Z + a i (j - 1)%Z
        - 4 * a i j)%R,
     phi fin k).
Proof.
  intros Hi Hj Ha k a. subst k a.
  unfold evolve_wave_half, floor_pass, FLOOR. cbv zeta.
  rewrite oscillate_corners_other by nia.
  rewrite edge_passes_miss
    by (try assumption; intros e _; now apply interior_not_on_edge).
  rewrite bulk_at by assumption.
  unfold bulk_cell. rewrite Ha, at_set_both.
  unfold Reference.unflat. f_equal. f_equal.
  unify_reads (phi fin). lra.
Qed.

Local Abbreviation left_cell_of :=
  (left_cell NX NY B_COND TWOSPEEDS KAPPA KAPPA_SIDES GAMMA_SIDES xy_in
     tc tcc tgamma fin).
Local Abbreviation right_cell_of :=
  (right_cell NX NY B_COND TWOSPEEDS KAPPA KAPPA_SIDES GAMMA_SIDES xy_in
     tc tcc tgamma fin).
Local Abbreviation top_cell_of :=
  (top_cell NX NY B_COND TWOSPEEDS KAPPA KAPPA_SIDES GAMMA_SIDES
     KAPPA_TOPBOT GAMMA_TOPBOT xy_in tc tcc tgamma fin).
Local Abbreviation bottom_cell_of :=
  (bottom_cell NX NY B_COND TWOSPEEDS KAPPA KAPPA_SIDES GAMMA_SIDES
     KAPPA_TOPBOT GAMMA_TOPBOT xy_in tc tcc tgamma fin).

(** With the guard false an iteration stores nothing. *)
Lemma bulk_cell_inactive (i j : Z) (o : field) :
  active TWOSPEEDS xy_in (i * NY + j) = false -> bulk_cell_of i j o = o.
Proof. intros H. unfold bulk_cell. now rewrite H. Qed.

Lemma left_cell_inactive (j : Z) (o : field) :
  active TWOSPEEDS xy_in j = false -> left_cell_of j o = o.
Proof. intros H. unfold left_cell. now rewrite H. Qed.

Lemma right_cell_inactive (j : Z) (o : field) :
  active TWOSPEEDS xy_in ((NX - 1) * NY + j) = false -> right_cell_of j o = o.
Proof. intros H. unfold right_cell. now rewrite H. Qed.

Lemma top_cell_inactive (i : Z) (o : field) :
  active TWOSPEEDS xy_in (i * NY + NY - 1) = false -> top_cell_of i o = o.
Proof. intros H. unfold top_cell. now rewrite H. Qed.

Lemma bottom_cell_inactive (i : Z) (o : field) :
  active TWOSPEEDS xy_in (i * NY) = false -> bottom_cell_of i o = o.
Proof. intros H. unfold bottom_cell. now rewrite H. Qed.

Lemma left_cell_psi (j : Z) (o : field) :
  active TWOSPEEDS xy_in j = true -> psi (left_cell_of j o) j = phi fin j.
Proof.
  intros Ha. unfold left_cell. rewrite Ha.
  unfold set_psi. cbn [psi]. apply aset1_same.
Qed.

Lemma right_cell_psi (j : Z) (o : field) :
  active TWOSPEEDS xy_in ((NX - 1) * NY + j) = true ->
  psi (right_cell_of j o) ((NX - 1) * NY + j) = phi fin ((NX - 1) * NY + j).
Proof.
  intros Ha. unfold right_cell. cbv zeta. rewrite Ha.
  unfold set_psi. cbn [psi]. apply aset1_same.
Qed.

(** With [OSCILLATE_LEFT] off, the half-step leaves at an index of the
    footprint of an edge what the loop of that edge leaves when run alone. *)
Lemma half_at_edge_any (e : edge) (k : Z) :
  OSCILLATE_LEFT = false -> In k (footprint NX NY e) ->
  at_ half k = at_ (pass e out) k.
Proof.
  intros Hosc Hk.
  unfold evolve_wave_half, floor_pass, oscillate_corners, FLOOR.
  cbv zeta. rewrite Hosc.
  rewrite (edge_passes_single NX NY B_COND TWOSPEEDS false KAPPA
             KAPPA_SIDES GAMMA_SIDES KAPPA_TOPBOT GAMMA_TOPBOT AMPLITUDE OMEGA
             xy_in tc tcc tgamma (time0 + 1) fin NX_ge NY_ge all_edges e);
    [|apply NoDup_all_edges|destruct e; simpl; tauto|exact Hk].
  apply edge_pass_local; try assumption.
  now apply (bulk_miss NX NY _ _ _ _ _ _ NX_ge NY_ge e).
Qed.

(** Where no loop of the half-step stores, the output buffer is kept. *)
Lemma half_elsewhere (k : Z) :
  OSCILLATE_LEFT = false ->
  (forall e, ~ In k (footprint NX NY e)) ->
  (forall i j, 1 <= i < NX - 1 -> 1 <= j < NY - 1 -> k <> i * NY + j) ->
  at_ half k = at_ out k.
Proof.
  intros Hosc He Hb.
  unfold evolve_wave_half, floor_pass, oscillate_corners, FLOOR.
  cbv zeta. rewrite Hosc.
  rewrite edge_passes_miss by (try assumption; intros e _; apply He).
  now apply bulk_not_interior.
Qed.

Lemma half_at_top (i : Z) :
  OSCILLATE_LEFT = false -> 0 <= i < NX ->
  at_ half (i * NY + NY - 1) = at_ (top_cell_of i out) (i * NY + NY - 1).
Proof.
  intros Hosc Hi. rewrite (half_at_edge_any Top) by
    first [assumption
          | unfold footprint; apply in_map_iff; exists i;
            split; [reflexivity|now apply in_range]].
  now apply top_boundary_at.
Qed.

Lemma half_at_bottom (i : Z) :
  OSCILLATE_LEFT = false -> 0 <= i < NX ->
  at_ half (i * NY) = at_ (bottom_cell_of i out) (i * NY).
Proof.
  intros Hosc Hi. rewrite (half_at_edge_any Bottom) by
    first [assumption
          | unfold footprint; apply in_map_iff; exists i;
            split; [reflexivity|now apply in_range]].
  now apply bottom_boundary_at.
Qed.

Lemma half_at_left (j : Z) :
  OSCILLATE_LEFT = false -> 1 <= j < NY - 1 ->
  at_ half j = at_ (left_cell_of j out) j.
Proof.
  intros Hosc Hj. rewrite (half_at_edge_any Left) by
    first [assumption
          | unfold footprint; apply in_map_iff; exists j;
            split; [reflexivity|now apply in_range]].
  now apply left_boundary_at.
Qed.

Lemma half_at_right (j : Z) :
  OSCILLATE_LEFT = false -> 1 <= j < NY - 1 ->
  at_ half ((NX - 1) * NY + j)
  = at_ (right_cell_of j out) ((NX - 1) * NY + j).
Proof.
  intros Hosc Hj. rewrite (half_at_edge_any Right) by
    first [assumption
          | unfold footprint; apply in_map_iff; exists j;
            split; [reflexivity|now apply in_range]].
  now apply right_boundary_at.
Qed.

(** X18.  With [OSCILLATE_LEFT] off and under every boundary policy,
    [evolve_wave_half] of [wave_3d.c] leaves in [psi_out], at every active
    cell of the grid, border and corners included, the value of [phi_in] at
    that cell. *)
Theorem psi_out_is_phi_in (i j : Z) :
  OSCILLATE_LEFT = false -> 0 <= i < NX -> 0 <= j < NY ->
  active TWOSPEEDS xy_in (i * NY + j) = true ->
  psi half (i * NY + j) = phi fin (i * NY + j).
Proof.
  intros Hosc Hi Hj Ha.
  change (psi half (i * NY + j)) with (snd (at_ half (i * NY + j))).
  assert (Hcase : j = NY - 1 \/ j = 0 \/ (1 <= j < NY - 1 /\ i = 0)
                  \/ (1 <= j < NY - 1 /\ i = NX - 1)
                  \/ (1 <= j < NY - 1 /\ 1 <= i < NX - 1)) by lia.
  destruct Hcase as [Ej|[Ej|[[Hj' Ei]|[[Hj' Ei]|[Hj' Hi']]]]].
  - subst j. replace (i * NY + (NY - 1)) with (i * NY + NY - 1) in * by lia.
    rewrite half_at_top by assumption. now apply top_cell_psi.
  - subst j. replace (i * NY + 0) with (i * NY) in * by lia.
    rewrite half_at_bottom by assumption. now apply bottom_cell_psi.
  - subst i. replace (0 * NY + j) with j in * by lia.
    rewrite half_at_left by assumption. now apply left_cell_psi.
  - subst i. rewrite half_at_right by assumption. now apply right_cell_psi.
  - now rewrite interior_update by assumption.
Qed.

(** With [TWOSPEEDS] and [OSCILLATE_LEFT] off, the half-step stores nothing
    at an index where the mask is 0. *)
Lemma half_outside (k : Z) :
  TWOSPEEDS = false -> OSCILLATE_LEFT = false -> xy_in k = 0 ->
  at_ half k = at_ out k.
Proof.
  intros Htwo Hosc Hout.
  assert (Ha : active TWOSPEEDS xy_in k = false).
  { unfold active. rewrite Htwo, Hout. reflexivity. }
  destruct (in_dec Z.eq_dec k (footprint NX NY Top)) as [H|HT].
  { unfold footprint in H. apply in_map_iff in H as [t [<- Ht]].
    apply in_range in Ht. rewrite half_at_top by assumption.
    now rewrite top_cell_inactive. }
  destruct (in_dec Z.eq_dec k (footprint NX NY Bottom)) as [H|HB].
  { unfold footprint in H. apply in_map_iff in H as [t [<- Ht]].
    apply in_range in Ht. rewrite half_at_bottom by assumption.
    now rewrite bottom_cell_inactive. }
  destruct (in_dec Z.eq_dec k (footprint NX NY Left)) as [H|HL].
  { unfold footprint in H. apply in_map_iff in H as [t [<- Ht]].
    apply in_range in Ht. rewrite half_at_left by assumption.
    now rewrite left_cell_inactive. }
  destruct (in_dec Z.eq_dec k (footprint NX NY Right)) as [H|HR].
  { unfold footprint in H. apply in_map_iff in H as [t [<- Ht]].
    apply in_range in Ht. rewrite half_at_right by assumption.
    now rewrite right_cell_inactive. }
  destruct (in_dec Z.eq_dec k
              (map (fun c => fst c * NY + snd c)
                 (cells 1 (NX - 1) 1 (NY - 1)))) as [H|HI].
  { apply in_map_iff in H as [[i j] [<- Hc]]. apply in_cells in Hc.
    cbn [fst snd] in *.
    unfold evolve_wave_half, floor_pass, FLOOR. cbv zeta.
    rewrite oscillate_corners_other by nia.
    rewrite edge_passes_miss
      by (try assumption; intros e _; apply interior_not_on_edge; lia).
    rewrite bulk_at by lia. now rewrite bulk_cell_inactive. }
  apply half_elsewhere; [assumption| |].
  - intros e. destruct e; assumption.
  - intros i j Hi Hj E. apply HI. apply in_map_iff. exists (i, j).
    split; [now subst|]. apply in_cells. lia.
Qed.

End Wave3DHalfStep.

(** ** wave_3d.c: masked cells, periodic and absorbing borders *)

Ltac grid_side := first [assumption | reflexivity | lia].

Section Wave3DMask.

Import Wave3D.

Variables NX NY : Z.
Variable B_COND : b_cond.
Variables KAPPA KAPPA_SIDES GAMMA_SIDES KAPPA_TOPBOT GAMMA_TOPBOT : R.
Variables AMPLITUDE OMEGA VMAX : R.
Variable xy_in : array1 Z.
Variables tc tcc tgamma : array1 R.

Local Abbreviation step :=
  (evolve_wave NX NY B_COND false false KAPPA KAPPA_SIDES GAMMA_SIDES
     KAPPA_TOPBOT GAMMA_TOPBOT AMPLITUDE OMEGA VMAX xy_in tc tcc tgamma).

(** X19.  In [wave_3d.c] with [TWOSPEEDS] and [OSCILLATE_LEFT] off, on a
    grid of at least two rows and two columns and under every boundary
    policy, an index where the mask is 0 keeps its values in the primary and
    in the scratch pair through any number of calls of [evolve_wave]. *)
Theorem wave_3d_mask_invariance (n : nat) (s : state) (k : Z) :
  2 <= NX -> 2 <= NY -> xy_in k = 0 ->
  at_ (main (Nat.iter n step s)) k = at_ (main s) k
  /\ at_ (tmp (Nat.iter n step s)) k = at_ (tmp s) k.
Proof.
  intros HX HY Hout. induction n as [|n IH]; [split; reflexivity|].
  rewrite Nat.iter_succ. destruct IH as [IHm IHt].
  unfold evolve_wave at 1 3. cbn [main tmp].
  rewrite !half_outside by grid_side. split; assumption.
Qed.

End Wave3DMask.

Lemma wrap_cases (n k : Z) :
  1 <= n -> -1 <= k <= n ->
  Reference.wrap n k = if k =? -1 then n - 1 else if k =? n then 0 else k.
Proof.
  intros Hn Hk. unfold Reference.wrap.
  destruct (k =? -1) eqn:E1; [|destruct (k =? n) eqn:E2];
    rewrite ?Z.eqb_eq, ?Z.eqb_neq in *.
  - subst k. symmetry. apply Z.mod_unique with (q := -1); lia.
  - subst k. apply Z.mod_same. lia.
  - apply Z.mod_small. lia.
Qed.

Section Wave3DPeriodic.

Import Wave3D.

Variables NX NY : Z.
Variable TWOSPEEDS : bool.
Variables KAPPA KAPPA_SIDES GAMMA_SIDES KAPPA_TOPBOT GAMMA_TOPBOT : R.
Variables AMPLITUDE OMEGA VMAX : R.
Variable xy_in : array1 Z.
Variables tc tcc tgamma : array1 R.
Variable time0 : Z.
Variables fin out : field.

Hypothesis NX_ge : 2 <= NX.
Hypothesis NY_ge : 2 <= NY.

Local Abbreviation half bc :=
  (evolve_wave_half NX NY bc TWOSPEEDS false KAPPA KAPPA_SIDES
     GAMMA_SIDES KAPPA_TOPBOT GAMMA_TOPBOT AMPLITUDE OMEGA VMAX xy_in tc tcc
     tgamma time0 fin out).

Lemma iplus_wrap_cases (i : Z) :
  0 <= i < NX -> iplus_wrap NX i = if i + 1 =? NX then 0 else i + 1.
Proof.
  intros Hi. unfold iplus_wrap. rewrite rem_wrap_plus by lia.
  rewrite wrap_cases by lia.
  replace (i + 1 =? -1) with false by (symmetry; apply Z.eqb_neq; lia).
  reflexivity.
Qed.

Lemma iminus_wrap_cases (i : Z) :
  0 <= i < NX -> iminus_wrap NX i = if i - 1 =? -1 then NX - 1 else i - 1.
Proof.
  intros Hi. unfold iminus_wrap.
  pose proof (rem_wrap_minus NX i Hi) as H. cbv zeta in H. rewrite H.
  rewrite wrap_cases by lia.
  destruct (i - 1 =? -1) eqn:E; [reflexivity|].
  replace (i - 1 =? NX) with false by (symmetry; apply Z.eqb_neq; lia).
  reflexivity.
Qed.

(** X20.  Under the periodic policy with [OSCILLATE_LEFT] off,
    [evolve_wave_half] of [wave_3d.c] applies one rule to every active cell
    of the grid, interior, edge or corner: the leapfrog recurrence with the
    four-neighbour Laplacian of [phi_in] whose indices wrap around the grid
    in both directions; [psi_out] receives [phi_in]. *)
Theorem periodic_half_step (i j : Z) :
  0 <= i < NX -> 0 <= j < NY ->
  active TWOSPEEDS xy_in (i * NY + j) = true ->
  let k := i * NY + j in
  at_ (half BC_PERIODIC) k
  = (leapfrog KAPPA tcc tgamma k (phi fin k) (psi fin k)
       (Reference.laplacian_periodic NX NY
          (Reference.unflat NY (phi fin)) i j),
     phi fin k).
Proof.
  intros Hi Hj Ha k. subst k.
  assert (Hcase : j = NY - 1 \/ j = 0 \/ (1 <= j < NY - 1 /\ i = 0)
                  \/ (1 <= j < NY - 1 /\ i = NX - 1)
                  \/ (1 <= j < NY - 1 /\ 1 <= i < NX - 1)) by lia.
  unfold Reference.laplacian_periodic, Reference.unflat.
  rewrite !wrap_cases by lia.
  destruct Hcase as [Ej|[Ej|[[Hj' Ei]|[[Hj' Ei]|[Hj' Hi']]]]].
  - subst j. replace (i * NY + (NY - 1)) with (i * NY + NY - 1) in * by lia.
    rewrite half_at_top by grid_side.
    unfold top_cell. cbv zeta. rewrite Ha, at_set_both.
    rewrite iplus_wrap_cases, iminus_wrap_cases by assumption.
    f_equal. f_equal. split_tests; unify_reads (phi fin); lra.
  - subst j. replace (i * NY + 0) with (i * NY) in * by lia.
    rewrite half_at_bottom by grid_side.
    unfold bottom_cell. cbv zeta. rewrite Ha, at_set_both.
    rewrite iplus_wrap_cases, iminus_wrap_cases by assumption.
    f_equal. f_equal. split_tests; unify_reads (phi fin); lra.
  - subst i. replace (0 * NY + j) with j in * by lia.
    rewrite half_at_left by grid_side.
    unfold left_cell. rewrite Ha, at_set_both.
    f_equal. f_equal. split_tests; unify_reads (phi fin); lra.
  - subst i. rewrite half_at_right by grid_side.
    unfold right_cell. cbv zeta. rewrite Ha, at_set_both.
    f_equal. f_equal. split_tests; unify_reads (phi fin); lra.
  - rewrite interior_update by grid_side. unfold Reference.unflat.
    f_equal. f_equal. split_tests; unify_reads (phi fin); lra.
Qed.

(** X21.  Under the absorbing policy with [OSCILLATE_LEFT] off, an active
    border cell of [wave_3d.c] receives the one-sided value
    [x - tc*(x - inward) - kappa*x - gamma*(x - y)].  On the bottom and top
    rows, corners included, [inward] is the cell above or below and the
    constants are [KAPPA_TOPBOT] and [GAMMA_TOPBOT]; on the rest of the left
    and right columns [inward] is the cell to the right or left and the
    constants are [KAPPA_SIDES] and [GAMMA_SIDES]. *)
Theorem absorbing_edge_update (i j : Z) :
  0 <= i < NX -> 0 <= j < NY -> on_border NX NY i j ->
  active TWOSPEEDS xy_in (i * NY + j) = true ->
  let k := i * NY + j in
  let x := phi fin k in
  let y := psi fin k in
  phi (half BC_ABSORBING) k
  = if (j =? 0) || (j =? NY - 1)
    then (x - tc k
              * (x - phi fin (i * NY + (if j =? 0 then 1 else NY - 2))%Z)
          - KAPPA_TOPBOT * x - GAMMA_TOPBOT * (x - y))%R
    else (x - tc k
              * (x - phi fin ((if i =? 0 then 1 else NX - 2) * NY + j)%Z)
          - KAPPA_SIDES * x - GAMMA_SIDES * (x - y))%R.
Proof.
  intros Hi Hj Hb Ha k x y. subst k x y. unfold on_border in Hb.
  change (phi (half BC_ABSORBING) (i * NY + j))
    with (fst (at_ (half BC_ABSORBING) (i * NY + j))).
  assert (Hcase : j = NY - 1 \/ j = 0 \/ (1 <= j < NY - 1 /\ i = 0)
                  \/ (1 <= j < NY - 1 /\ i = NX - 1)) by lia.
  destruct Hcase as [Ej|[Ej|[[Hj' Ei]|[Hj' Ei]]]].
  - subst j. replace (i * NY + (NY - 1)) with (i * NY + NY - 1) in * by lia.
    rewrite half_at_top by grid_side.
    unfold top_cell. cbv zeta. rewrite Ha, at_set_both. cbn [fst].
    split_tests; unify_reads (phi fin); lra.
  - subst j. replace (i * NY + 0) with (i * NY) in * by lia.
    rewrite half_at_bottom by grid_side.
    unfold bottom_cell. cbv zeta. rewrite Ha, at_set_both. cbn [fst].
    split_tests; unify_reads (phi fin); lra.
  - subst i. replace (0 * NY + j) with j in * by lia.
    rewrite half_at_left by grid_side.
    unfold left_cell. rewrite Ha, at_set_both. cbn [fst].
    split_tests; unify_reads (phi fin); lra.
  - subst i. rewrite half_at_right by grid_side.
    unfold right_cell. cbv zeta. rewrite Ha, at_set_both. cbn [fst].
    split_tests; unify_reads (phi fin); lra.
Qed.

End Wave3DPeriodic.

(** ** wave_3d.c: the mixed policy and the oscillating left edge *)

Section Wave3DMixed.

Import Wave3D.

Variables NX NY : Z.
Variable TWOSPEEDS : bool.
Variables KAPPA KAPPA_SIDES GAMMA_SIDES KAPPA_TOPBOT GAMMA_TOPBOT : R.
Variables AMPLITUDE OMEGA VMAX : R.
Variable xy_in : array1 Z.
Variables tc tcc tgamma : array1 R.
Variable time0 : Z.
Variables fin out : field.

Hypothesis NX_ge : 2 <= NX.
Hypothesis NY_ge : 2 <= NY.

Local Abbreviation half :=
  (evolve_wave_half NX NY BC_VPER_HABS TWOSPEEDS false KAPPA KAPPA_SIDES
     GAMMA_SIDES KAPPA_TOPBOT GAMMA_TOPBOT AMPLITUDE OMEGA VMAX xy_in tc tcc
     tgamma time0 fin out).

(** X22.  Under the mixed policy (periodic vertically, absorbing
    horizontally) with [OSCILLATE_LEFT] off, at an active border cell of
    [wave_3d.c]: on the left and right columns away from the corners the
    cell receives the one-sided absorbing value with [KAPPA_SIDES] and
    [GAMMA_SIDES]; on the bottom and top rows it receives the leapfrog value
    whose Laplacian wraps vertically and is clamped horizontally, except in
    column 0, where the two left corners receive the absorbing value.  The
    two right corners receive the leapfrog value. *)
Theorem mixed_policy_update (i j : Z) :
  0 <= i < NX -> 0 <= j < NY -> on_border NX NY i j ->
  active TWOSPEEDS xy_in (i * NY + j) = true ->
  let k := i * NY + j in
  let x := phi fin k in
  let y := psi fin k in
  let a := Reference.unflat NY (phi fin) in
  let absorbing :=
    (x - tc k * (x - a (if i =? 0 then 1 else NX - 2)%Z j)
     - KAPPA_SIDES * x - GAMMA_SIDES * (x - y))%R in
  phi half k
  = if (j =? 0) || (j =? NY - 1)
    then if i =? 0 then absorbing
         else leapfrog KAPPA tcc tgamma k x y
                (a (Reference.clamp NX (i + 1)%Z) j
                 + a (Reference.clamp NX (i - 1)%Z) j
                 + a i (Reference.wrap NY (j + 1)%Z)
                 + a i (Reference.wrap NY (j - 1)%Z) - 4 * a i j)%R
    else absorbing.
Proof.
  intros Hi Hj Hb Ha k x y a absorbing. subst absorbing a k x y.
  unfold on_border in Hb.
  change (phi half (i * NY + j)) with (fst (at_ half (i * NY + j))).
  assert (Hcase : j = NY - 1 \/ j = 0 \/ (1 <= j < NY - 1 /\ i = 0)
                  \/ (1 <= j < NY - 1 /\ i = NX - 1)) by lia.
  unfold Reference.unflat, Reference.clamp.
  rewrite !wrap_cases by lia.
  destruct Hcase as [Ej|[Ej|[[Hj' Ei]|[Hj' Ei]]]].
  - subst j. replace (i * NY + (NY - 1)) with (i * NY + NY - 1) in * by lia.
    rewrite half_at_top by grid_side.
    unfold top_cell, iplus_clamp, iminus_clamp. cbv zeta. rewrite Ha.
    destruct (i =? 0) eqn:E0.
    + apply Z.eqb_eq in E0. subst i.
      replace (0 * NY + NY - 1) with (NY - 1) in * by lia.
      rewrite at_set_both. cbn [fst].
      split_tests; unify_reads (phi fin); lra.
    + rewrite at_set_both. cbn [fst]. unfold leapfrog.
      split_tests; unify_reads (phi fin); lra.
  - subst j. replace (i * NY + 0) with (i * NY) in * by lia.
    rewrite half_at_bottom by grid_side.
    unfold bottom_cell, iplus_clamp, iminus_clamp. cbv zeta. rewrite Ha.
    destruct (i =? 0) eqn:E0.
    + apply Z.eqb_eq in E0. subst i.
      replace (0 * NY) with 0 in * by lia.
      rewrite at_set_both. cbn [fst].
      split_tests; unify_reads (phi fin); lra.
    + rewrite at_set_both. cbn [fst]. unfold leapfrog.
      split_tests; unify_reads (phi fin); lra.
  - subst i. replace (0 * NY + j) with j in * by lia.
    rewrite half_at_left by grid_side.
    unfold left_cell. rewrite Ha, at_set_both. cbn [fst].
    split_tests; unify_reads (phi fin); lra.
  - subst i. rewrite half_at_right by grid_side.
    unfold right_cell. cbv zeta. rewrite Ha, at_set_both. cbn [fst].
    split_tests; unify_reads (phi fin); lra.
Qed.

End Wave3DMixed.

Section Wave3DOscillating.

Import Wave3D.

Variables NX NY : Z.
Variable B_COND : b_cond.
Variable TWOSPEEDS : bool.
Variables KAPPA KAPPA_SIDES GAMMA_SIDES KAPPA_TOPBOT GAMMA_TOPBOT : R.
Variables AMPLITUDE OMEGA VMAX : R.
Variable xy_in : array1 Z.
Variables tc tcc tgamma : array1 R.
Variable time0 : Z.
Variables fin out : field.

(** X23.  With [OSCILLATE_LEFT] on, [evolve_wave_half] of [wave_3d.c]
    leaves the value [AMPLITUDE*cos(time*OMEGA)], taken at the incremented
    call counter, in [phi_out] at every cell of column 0, the two corners
    included, whatever the mask, the boundary policy and the input. *)
Theorem oscillating_left_column (j : Z) :
  2 <= NX -> 2 <= NY -> 0 <= j < NY ->
  phi (evolve_wave_half NX NY B_COND TWOSPEEDS true KAPPA KAPPA_SIDES
         GAMMA_SIDES KAPPA_TOPBOT GAMMA_TOPBOT AMPLITUDE OMEGA VMAX xy_in
         tc tcc tgamma time0 fin out) j
  = (AMPLITUDE * cos (IZR (time0 + 1) * OMEGA))%R.
Proof.
  intros HX HY Hj.
  unfold evolve_wave_half, floor_pass, oscillate_corners, FLOOR. cbv zeta.
  destruct (Z.eq_dec j (NY - 1)) as [->|H1].
  { unfold set_phi. cbn [phi]. apply aset1_same. }
  destruct (Z.eq_dec j 0) as [->|H0].
  { unfold set_phi. cbn [phi]. rewrite aset1_other by lia.
    apply aset1_same. }
  unfold set_phi at 1 2. cbn [phi]. rewrite !aset1_other by lia.
  match goal with
  | |- phi ?o j = _ => change (phi o j) with (fst (at_ o j))
  end.
  rewrite (edge_passes_single NX NY B_COND TWOSPEEDS true KAPPA
             KAPPA_SIDES GAMMA_SIDES KAPPA_TOPBOT GAMMA_TOPBOT AMPLITUDE OMEGA
             xy_in tc tcc tgamma (time0 + 1) fin HX HY all_edges Left);
    [|apply NoDup_all_edges|simpl; tauto
     |unfold footprint; apply in_map_iff; exists j;
      split; [reflexivity|apply in_range; lia]].
  unfold edge_pass, left_boundary.
  rewrite (flat_loop_hit
             (fun j o => set_phi o j (AMPLITUDE * cos (IZR (time0 + 1) * OMEGA)))
             (fun j => j) 1 (NY - 1)).
  - rewrite at_set_phi_same. reflexivity.
  - intros t o k Hne. now apply at_set_phi_other.
  - intros t p q Hpq. rewrite !at_set_phi_same.
    unfold at_ in Hpq. congruence.
  - intros t t' _ _ E. exact E.
  - lia.
Qed.

End Wave3DOscillating.

(** ** wave_3d.c: the coefficient tables *)

Section Wave3DTablesFacts.

Variables NX NY : Z.
Variable TWOSPEEDS : bool.
Variables COURANT COURANTB GAMMA GAMMAB : R.
Variable xy_in : array1 Z.

Local Abbreviation cell :=
  (Animation.table_cell NY TWOSPEEDS COURANT COURANTB GAMMA GAMMAB xy_in).

Lemma table_cell_other (i j : Z) (t : Animation.tables) (k : Z) :
  k <> i * NY + j -> tables_at (cell i j t) k = tables_at t k.
Proof.
  intros H. unfold Animation.table_cell, tables_at. cbv zeta.
  destruct (negb (xy_in (i * NY + j) =? 0));
    [destruct (xy_in (i * NY + j) =? 1)|destruct TWOSPEEDS];
    cbn [Animation.tc Animation.tcc Animation.tgamma];
    now rewrite ?aset1_other by exact H.
Qed.

Lemma table_cell_same (i j : Z) (t : Animation.tables) :
  tables_at (cell i j t) (i * NY + j)
  = if Wave3D.active TWOSPEEDS xy_in (i * NY + j)
    then let c := if xy_in (i * NY + j) =? 0 then COURANTB else COURANT in
         (c, (c * c)%R, if xy_in (i * NY + j) =? 1 then GAMMA else GAMMAB)
    else tables_at t (i * NY + j).
Proof.
  unfold Animation.table_cell, tables_at, Wave3D.active. cbv zeta.
  destruct (xy_in (i * NY + j) =? 0) eqn:E0; cbn [negb orb].
  - apply Z.eqb_eq in E0.
    replace (xy_in (i * NY + j) =? 1) with false
      by (symmetry; apply Z.eqb_neq; lia).
    destruct TWOSPEEDS; cbn [orb];
      cbn [Animation.tc Animation.tcc Animation.tgamma];
      now rewrite ?aset1_same.
  - rewrite orb_true_r.
    destruct (xy_in (i * NY + j) =? 1);
      cbn [Animation.tc Animation.tcc Animation.tgamma];
      now rewrite ?aset1_same.
Qed.

(** X24.  The loop of [animation] that fills the tables of [wave_3d.c]
    sets the three coefficients of every cell of the grid that the updater
    treats as active, whatever the tables held: the Courant number of the
    medium of the cell, its square, and the damping of the medium.  At a
    cell that is not active the tables keep what they held. *)
Theorem init_tables_at (t : Animation.tables) (i j : Z) :
  0 <= i < NX -> 0 <= j < NY ->
  let k := i * NY + j in
  tables_at
    (Animation.init_tables NX NY TWOSPEEDS COURANT COURANTB GAMMA GAMMAB
       xy_in t) k
  = if Wave3D.active TWOSPEEDS xy_in k
    then let c := if xy_in k =? 0 then COURANTB else COURANT in
         (c, (c * c)%R, if xy_in k =? 1 then GAMMA else GAMMAB)
    else tables_at t k.
Proof.
  intros Hi Hj k. subst k. unfold Animation.init_tables.
  rewrite for_loop2_cells.
  pose proof (keyed_loop_hit _ _ _ _ (cells 0 NX 0 NY)
             (fun c acc => cell (fst c) (snd c) acc)
             (fun c => fst c * NY + snd c) tables_at (NoDup_cells _ _ _ _)
             ltac:(intros [a b] o k _ Hk; now apply table_cell_other)
             ltac:(intros [a b] o1 o2 _ Ho; cbn [fst snd] in *;
                   rewrite !table_cell_same;
                   destruct (Wave3D.active _ _ _); [reflexivity|exact Ho])
             ltac:(intros [a b] [a' b'] Hc Hc' E; apply in_cells in Hc, Hc';
                   cbn [fst snd] in E;
                   apply flat_index_inj in E as [-> ->];
                   [reflexivity|lia|lia])
             t (i, j)) as H.
  cbn [fst snd] in H. rewrite H; [apply table_cell_same|].
  apply in_cells. lia.
Qed.

End Wave3DTablesFacts.

(** ** The debugging clamp *)

(** X25.  For a non-negative [VMAX], the clamp of the [FLOOR] branches
    returns a value between [-VMAX] and [VMAX], and returns its argument
    when the argument already lies there. *)
Theorem floor_clamp_bounds (VMAX v : R) :
  (0 <= VMAX)%R ->
  (- VMAX <= floor_clamp VMAX v <= VMAX)%R
  /\ ((- VMAX <= v <= VMAX)%R -> floor_clamp VMAX v = v).
Proof.
  intros HV. unfold floor_clamp. cbv zeta.
  destruct (Rlt_dec VMAX v) as [H1|H1];
    match goal with
    | |- context [Rlt_dec ?a ?b] => destruct (Rlt_dec a b) as [H2|H2]
    end; split; try lra; intros; lra.
Qed.

(** ** The periodic neighbour indices *)

(** X26.  The neighbour indices that the periodic loops compute with the C
    remainder and the correction of a negative result are the indices plus
    and minus one modulo the grid size; they lie in the grid. *)
Theorem periodic_indices_in_range (n k : Z) :
  0 <= k < n ->
  (wrap_plus n k = (k + 1) mod n /\ 0 <= wrap_plus n k < n)
  /\ (wrap_minus n k = (k - 1) mod n /\ 0 <= wrap_minus n k < n).
Proof.
  intros H.
  assert (Hp : wrap_plus n k = (k + 1) mod n)
    by (unfold wrap_plus; now apply rem_wrap_plus).
  assert (Hm : wrap_minus n k = (k - 1) mod n)
    by (unfold wrap_minus; now apply rem_wrap_minus).
  rewrite Hp, Hm.
  pose proof (Z.mod_pos_bound (k + 1) n ltac:(lia)).
  pose proof (Z.mod_pos_bound (k - 1) n ltac:(lia)).
  repeat split; lia.
Qed.

(** ** Instances *)

Lemma init_wave_amplitude_witness :
  (Rabs (WaveBilliard.phi
           (WaveBilliard.init_wave 4 4 Inputs.unit_coords Inputs.nowhere 0 0
              Inputs.flat) 1%Z 1%Z) <= 0.2)%R.
Proof.
  apply (init_wave_amplitude 4 4 Inputs.unit_coords Inputs.nowhere 0%R 0%R
           Inputs.flat 1 1); lia.
Defined.


Lemma wave_variance_reads_witness :
  WaveBilliard.compute_variance 2 2 Inputs.corner_spike
  = WaveBilliard.compute_variance 2 2 Inputs.flat.
Proof.
  apply (wave_variance_reads 2 2 Inputs.corner_spike Inputs.flat).
  intros i j Hi Hj. assert (i = 1) by lia. assert (j = 1) by lia. subst.
  split; reflexivity.
Defined.

Lemma wave_animation_outside_witness :
  wave_at
    (Animation.wave_animation 2 2 0.5 0 0 10 1 1 Inputs.unit_coords
       Inputs.nowhere Inputs.flat) (0, 0)
  = (drop (WaveBilliard.dist2_of Inputs.unit_coords 0.0 0.0 0 0), 0%R, 0).
Proof.
  apply (wave_animation_outside 2 2 0.5%R 0%R 0%R 10%R 1 1
           Inputs.unit_coords Inputs.nowhere Inputs.flat 0 0);
    solve [lia | reflexivity].
Defined.

Lemma absorbing_half_step_witness :
  Schrodinger.phi
    (Schrodinger.evolve_wave_half 2 2 Schrodinger.BC_ABSORBING 1 1 10
       Inputs.uniform_field Samples.zero_field Inputs.full_mask) 0 0
  = (Schrodinger.phi Inputs.uniform_field 0%Z 0%Z
     - 1 * (Schrodinger.psi Inputs.uniform_field 0%Z 0%Z
            - Schrodinger.psi Inputs.uniform_field 1%Z 0%Z))%R.
Proof.
  apply (proj1 (proj2
           (absorbing_half_step 2 2 1%R 1%R 10%R Inputs.full_mask
              Inputs.uniform_field Samples.zero_field 0 0 ltac:(lia)
              ltac:(lia) ltac:(lia) ltac:(lia) ltac:(discriminate)))).
Defined.

Lemma uniform_field_is_stationary_witness :
  uniform_on_grid 2 2 1 0
    (Schrodinger.main
       (Nat.iter 3
          (Schrodinger.evolve_wave 2 2 Schrodinger.BC_PERIODIC 1 1 10
             Inputs.full_mask) Samples.uniform_state)).
Proof.
  apply (uniform_field_is_stationary 2 2 Schrodinger.BC_PERIODIC 1%R 1%R
           10%R Inputs.full_mask 1%R 0%R ltac:(lia) ltac:(lia) 3%nat
           Samples.uniform_state).
  - intros i j _ _. discriminate.
  - intros i j _ _. reflexivity.
Defined.

Lemma renormalise_field_frame_witness :
  field_at (Schrodinger.renormalise_field 2 2 Inputs.uniform_field
              Inputs.full_mask 4) (0, 0)
  = field_at Inputs.uniform_field (0, 0).
Proof.
  apply (renormalise_field_frame 2 2 Inputs.full_mask Inputs.uniform_field
           4%R 0 0).
  lia.
Defined.

Lemma renormalise_scales_variance_witness :
  Schrodinger.compute_variance 2 2
    (Schrodinger.renormalise_field 2 2 Inputs.uniform_field Inputs.full_mask
       4) Inputs.full_mask
  = (Schrodinger.compute_variance 2 2 Inputs.uniform_field Inputs.full_mask
     / 4)%R.
Proof.
  apply (renormalise_scales_variance 2 2 Inputs.full_mask
           Inputs.uniform_field 4%R).
  lra.
Defined.

Lemma schrodinger_variance_reads_witness :
  Schrodinger.compute_variance 2 2 Inputs.corner_spike_field Inputs.full_mask
  = Schrodinger.compute_variance 2 2 Samples.zero_field Inputs.full_mask.
Proof.
  apply (schrodinger_variance_reads 2 2 Inputs.full_mask
           Inputs.corner_spike_field Samples.zero_field).
  intros i j Hi Hj _. assert (i = 1) by lia. assert (j = 1) by lia. subst.
  reflexivity.
Defined.

Lemma init_coherent_state_magnitude_witness :
  snd (Schrodinger.init_coherent_state 2 2 Inputs.unit_coords Inputs.nowhere
         0 0 1 0 1 (Samples.zero_field, Inputs.full_mask)) 0 0 = 0.
Proof.
  apply (proj1 (init_coherent_state_magnitude 2 2 Inputs.unit_coords
                  Inputs.nowhere 0%R 0%R 1%R 0%R 1%R
                  (Samples.zero_field, Inputs.full_mask) 0 0
                  ltac:(lra) ltac:(lia) ltac:(lia))).
Defined.

Lemma schrodinger_animation_outside_witness :
  field_at
    (Schrodinger.main
       (fst (Animation.schrodinger_animation 2 2 Schrodinger.BC_PERIODIC
               (-2) 2 1 1 10 true 1 1 Inputs.unit_coords Inputs.nowhere
               Samples.uniform_state Inputs.full_mask))) (0, 0)
  = (0%R, 0%R).
Proof.
  apply (proj2 (schrodinger_animation_outside 2 2 Schrodinger.BC_PERIODIC
                  (-2)%R 2%R 1%R 1%R 10%R true 1 1 Inputs.unit_coords
                  Inputs.nowhere Samples.uniform_state Inputs.full_mask 0 0
                  ltac:(lia) ltac:(lia) eq_refl)).
Defined.

Lemma interior_update_witness :
  Wave3D.psi (Samples.half3 Wave3D.BC_ABSORBING true) (1 * 3 + 1)
  = Wave3D.phi Samples.ramp_field (1 * 3 + 1).
Proof.
  exact (f_equal snd
           (interior_update 3 3 Wave3D.BC_ABSORBING false true 0 0 0 0 0 1 1
              10 Inputs.all_inside (Inputs.constant 1) (Inputs.constant 1)
              (Inputs.constant 0) 0 Samples.ramp_field Samples.ramp_field
              ltac:(lia) ltac:(lia) 1 1 ltac:(lia) ltac:(lia) eq_refl)).
Defined.

Lemma psi_out_is_phi_in_witness :
  Wave3D.psi (Samples.half3 Wave3D.BC_VPER_HABS false) (0 * 3 + 2)
  = Wave3D.phi Samples.ramp_field (0 * 3 + 2).
Proof.
  exact (psi_out_is_phi_in 3 3 Wave3D.BC_VPER_HABS false false 0 0 0 0 0 1 1
           10 Inputs.all_inside (Inputs.constant 1) (Inputs.constant 1)
           (Inputs.constant 0) 0 Samples.ramp_field Samples.ramp_field
           ltac:(lia) ltac:(lia) 0 2 eq_refl ltac:(lia) ltac:(lia) eq_refl).
Defined.

Lemma wave_3d_mask_invariance_witness :
  at_ (Wave3D.main
         (Nat.iter 2
            (Wave3D.evolve_wave 3 3 Wave3D.BC_DIRICHLET false false 0 0 0 0 0
               1 1 10 Samples.all_outside (Inputs.constant 1)
               (Inputs.constant 1) (Inputs.constant 0))
            Samples.ramp_state)) 4
  = at_ (Wave3D.main Samples.ramp_state) 4.
Proof.
  exact (proj1
           (wave_3d_mask_invariance 3 3 Wave3D.BC_DIRICHLET 0 0 0 0 0 1 1 10
              Samples.all_outside (Inputs.constant 1) (Inputs.constant 1)
              (Inputs.constant 0) 2 Samples.ramp_state 4 ltac:(lia)
              ltac:(lia) eq_refl)).
Defined.

Lemma periodic_half_step_witness :
  Wave3D.psi (Samples.half3 Wave3D.BC_PERIODIC false) (2 * 3 + 0)
  = Wave3D.phi Samples.ramp_field (2 * 3 + 0).
Proof.
  exact (f_equal snd
           (periodic_half_step 3 3 false 0 0 0 0 0 1 1 10 Inputs.all_inside
              (Inputs.constant 1) (Inputs.constant 1) (Inputs.constant 0) 0
              Samples.ramp_field Samples.ramp_field ltac:(lia) ltac:(lia)
              2 0 ltac:(lia) ltac:(lia) eq_refl)).
Defined.

Lemma absorbing_edge_update_witness :
  Wave3D.phi (Samples.half3 Wave3D.BC_ABSORBING false) (0 * 3 + 1)
  = (Wave3D.phi Samples.ramp_field (0 * 3 + 1)%Z
     - 1 * (Wave3D.phi Samples.ramp_field (0 * 3 + 1)%Z
            - Wave3D.phi Samples.ramp_field (1 * 3 + 1)%Z)
     - 0 * Wave3D.phi Samples.ramp_field (0 * 3 + 1)%Z
     - 0 * (Wave3D.phi Samples.ramp_field (0 * 3 + 1)%Z
            - Wave3D.psi Samples.ramp_field (0 * 3 + 1)%Z))%R.
Proof.
  exact (absorbing_edge_update 3 3 false 0 0 0 0 0 1 1 10 Inputs.all_inside
           (Inputs.constant 1) (Inputs.constant 1) (Inputs.constant 0) 0
           Samples.ramp_field Samples.ramp_field ltac:(lia) ltac:(lia)
           0 1 ltac:(lia) ltac:(lia) (or_introl eq_refl) eq_refl).
Defined.

Lemma mixed_policy_update_witness :
  Wave3D.phi (Samples.half3 Wave3D.BC_VPER_HABS false) (0 * 3 + 1)
  = (Wave3D.phi Samples.ramp_field (0 * 3 + 1)%Z
     - 1 * (Wave3D.phi Samples.ramp_field (0 * 3 + 1)%Z
            - Wave3D.phi Samples.ramp_field (1 * 3 + 1)%Z)
     - 0 * Wave3D.phi Samples.ramp_field (0 * 3 + 1)%Z
     - 0 * (Wave3D.phi Samples.ramp_field (0 * 3 + 1)%Z
            - Wave3D.psi Samples.ramp_field (0 * 3 + 1)%Z))%R.
Proof.
  exact (mixed_policy_update 3 3 false 0 0 0 0 0 1 1 10 Inputs.all_inside
           (Inputs.constant 1) (Inputs.constant 1) (Inputs.constant 0) 0
           Samples.ramp_field Samples.ramp_field ltac:(lia) ltac:(lia)
           0 1 ltac:(lia) ltac:(lia) (or_introl eq_refl) eq_refl).
Defined.

Lemma oscillating_left_column_witness :
  Wave3D.phi (Samples.half3 Wave3D.BC_DIRICHLET true) 0
  = (1 * cos (IZR (0 + 1) * 1))%R.
Proof.
  exact (oscillating_left_column 3 3 Wave3D.BC_DIRICHLET false 0 0 0 0 0 1 1
           10 Inputs.all_inside (Inputs.constant 1) (Inputs.constant 1)
           (Inputs.constant 0) 0 Samples.ramp_field Samples.ramp_field 0
           ltac:(lia) ltac:(lia) ltac:(lia)).
Defined.

Lemma init_tables_at_witness :
  tables_at
    (Animation.init_tables 3 3 false 0.5 0.25 0 1 Inputs.all_inside
       Samples.zero_tables) (1 * 3 + 1)
  = (0.5%R, (0.5 * 0.5)%R, 0%R).
Proof.
  exact (init_tables_at 3 3 false 0.5 0.25 0 1 Inputs.all_inside
           Samples.zero_tables 1 1 ltac:(lia) ltac:(lia)).
Defined.

Lemma floor_clamp_bounds_witness :
  (- 10 <= floor_clamp 10 25 <= 10)%R.
Proof.
  exact (proj1 (floor_clamp_bounds 10 25 ltac:(lra))).
Defined.

Lemma periodic_indices_in_range_witness :
  wrap_minus 4 0 = (0 - 1) mod 4 /\ 0 <= wrap_minus 4 0 < 4.
Proof.
  exact (proj2 (periodic_indices_in_range 4 0 ltac:(lia))).
Defined.
